(** * proglog: the segmented commit log (store, index, segment, log)

    A shallow embedding of package [log] of the repository: the
    append-only store file behind a buffered writer, the memory-mapped
    index of fixed-width entries, the segment that pairs them under a base
    offset, and the log that routes appends and reads over its segments.

    Conventions.
    - Go's [uint64], [uint32] and [int64] values are integers of [Z]; every
      arithmetic operation of the source is followed by its wrap-around
      ([u64], [u32], [i64]).
    - A Go function returning [(v, err)] returns the same tuple here, with
      [err : option error] and [None] for [nil]; so [return 0, nil] stays
      visible as [(0, None)].
    - A run-time panic (slice bounds, nil dereference, index out of range)
      is the outcome [Panic] of the type [exec].
    - The operating system is one directory, the log's [Dir]: a finite map
      from file names to file contents, or nothing when the directory does
      not exist.  A file has at most one open handle at a time; the bytes
      of a mapped file live in the index ([mmap]) and reach the directory
      when the mapping is synced.
    - Writes to the mapped region are modelled for a live mapping
      ([index_live]): once [index.Close] has cut the file back under the
      region, the source faults on a write past the end of the file, and
      the properties of such writes assume the mapping is live. *)

From Stdlib Require Import ZArith Lia Wf_nat Strings.Byte Strings.Ascii DecimalString.
From Stdlib Require DecimalN DecimalPos.
From stdpp Require Import gmap strings list fin_maps.

Open Scope Z_scope.

(** ** Machine integers *)

Definition u64 (z : Z) : Z := z mod 2 ^ 64.
Definition u32 (z : Z) : Z := z mod 2 ^ 32.

(** [int64(x)] of a [uint64]: the two's complement reading. *)
Definition i64 (z : Z) : Z :=
  let w := z mod 2 ^ 64 in if w <? 2 ^ 63 then w else w - 2 ^ 64.

(** The largest [int] (64-bit platforms). *)
Definition maxInt : Z := 2 ^ 63 - 1.

(** ** Bytes and [encoding/binary] with [enc = binary.BigEndian] *)

Definition byte_of_Z (z : Z) : byte :=
  match Byte.of_N (Z.to_N (z mod 256)) with
  | Some b => b
  | None => x00
  end.

Definition Z_of_byte (b : byte) : Z := Z.of_N (Byte.to_N b).

(** The [n] low bytes of [v], most significant first. *)
Fixpoint be_bytes (n : nat) (v : Z) : list byte :=
  match n with
  | O => []
  | S k => byte_of_Z (Z.shiftr v (8 * Z.of_nat k)) :: be_bytes k v
  end.

Definition be_value (bs : list byte) : Z :=
  fold_left (fun acc b => acc * 256 + Z_of_byte b) bs 0.

Definition PutUint32 (v : Z) : list byte := be_bytes 4 v.
Definition PutUint64 (v : Z) : list byte := be_bytes 8 v.
Definition Uint32 (bs : list byte) : Z := be_value (take 4 bs).
Definition Uint64 (bs : list byte) : Z := be_value (take 8 bs).

Definition len {A} (l : list A) : Z := Z.of_nat (length l).

(** The slice expression [s[lo:hi]] and its bounds check
    ([0 <= lo <= hi <= cap(s)], otherwise the program panics). *)
Definition in_bounds {A} (l : list A) (lo hi : Z) : bool :=
  (0 <=? lo) && (lo <=? hi) && (hi <=? len l).

Definition slice {A} (l : list A) (lo hi : Z) : list A :=
  take (Z.to_nat (hi - lo)) (drop (Z.to_nat lo) l).

(** Writing [bs] through the slice that starts at [lo]: the bytes of the
    underlying array from [lo] on are replaced, the rest is kept. *)
Definition write_at {A} (l : list A) (lo : Z) (bs : list A) : list A :=
  take (Z.to_nat lo) l ++ bs ++ drop (Z.to_nat lo + length bs) l.

(** ** Errors and outcomes *)

Inductive error : Type :=
  | EOF                                (* io.EOF *)
  | ErrClosed                          (* os.ErrClosed: file already closed *)
  | ErrNotExist                        (* no such file or directory *)
  | ErrInvalid                         (* invalid argument *)
  | ErrSyntax                          (* strconv.ErrSyntax *)
  | ErrRange                           (* strconv.ErrRange *)
  | ErrOffsetOutOfRange (off : Z)      (* fmt.Errorf("offset out of range: %d", off) *)
  | ErrProto (code : nat).             (* an error of the protobuf codec *)

Inductive exec (A : Type) : Type :=
  | Done (a : A)
  | Panic.
Arguments Done {A} a.
Arguments Panic {A}.

(** Sequencing: a panic ends the run ([x ← m; k] below). *)
#[global] Instance exec_bind : MBind exec := fun A B k m =>
  match m with
  | Done a => k a
  | Panic => Panic
  end.

#[global] Instance exec_ret : MRet exec := fun A a => Done a.

(** ** Configuration (config.go) *)

(** Modelled from the spec: the [Config] structure of config.go, which is
    not among the sources.  Its fields are the three the code reads as
    [c.Segment.MaxStoreBytes], [c.Segment.MaxIndexBytes] and
    [c.Segment.InitialOffset], all [uint64]; the specification lists them
    as the recognised keys. *)
Record SegmentConfig := {
  MaxStoreBytes : Z;
  MaxIndexBytes : Z;
  InitialOffset : Z
}.

Record Config := { Segment : SegmentConfig }.

(** ** Records (api/v1) and the protobuf codec *)

(** Modelled from the spec: the record type [api.Record] of package
    api/v1, which is not among the sources.  It carries the opaque payload
    of the specification and the [Offset] field that [segment.Append]
    assigns. *)
Record api_Record := { Value : list byte; Offset : Z }.

(** [proto.Marshal] and [proto.Unmarshal] belong to the protobuf library;
    the development is parametric in them. *)

Class Codec := {
  Marshal : api_Record -> list byte * option error;
  Unmarshal : list byte -> api_Record * option error
}.

(** ** The operating system: files of the log directory *)

Abbreviation Disk := (option (gmap string (list byte))).

(** An [*os.File]: the name it was opened under and whether it has been
    closed. *)
Record os_File := { fname : string; closed : bool }.

Definition file_content (d : Disk) (name : string) : option (list byte) :=
  match d with
  | Some m => m !! name
  | None => None
  end.

Definition set_content (d : Disk) (name : string) (c : list byte) : Disk :=
  match d with
  | Some m => Some (<[name := c]> m)
  | None => None
  end.

(** [os.OpenFile(name, O_RDWR|O_CREATE|..., 0644)] *)
Definition os_OpenFile (d : Disk) (name : string) : Disk * (option os_File * option error) :=
  match d with
  | None => (d, (None, Some ErrNotExist))
  | Some m =>
      let f := {| fname := name; closed := false |} in
      match m !! name with
      | Some _ => (d, (Some f, None))
      | None => (Some (<[name := []]> m), (Some f, None))
      end
  end.

(** [os.Stat(name)], reduced to the size it reports. *)
Definition os_Stat (d : Disk) (name : string) : Z * option error :=
  match file_content d name with
  | Some c => (len c, None)
  | None => (0, Some ErrNotExist)
  end.

(** A file cut or zero-extended to [n] bytes. *)
Definition resize (c : list byte) (n : Z) : list byte :=
  take (Z.to_nat n) c ++ replicate (Z.to_nat n - length c)%nat x00.

(** [os.Truncate(name, n)] with [n : int64]. *)
Definition os_Truncate (d : Disk) (name : string) (n : Z) : Disk * option error :=
  match file_content d name with
  | None => (d, Some ErrNotExist)
  | Some c =>
      if n <? 0 then (d, Some ErrInvalid)
      else (set_content d name (resize c n), None)
  end.

(** [os.Remove(name)] *)
Definition os_Remove (d : Disk) (name : string) : Disk * option error :=
  match d with
  | None => (d, Some ErrNotExist)
  | Some m =>
      match m !! name with
      | Some _ => (Some (delete name m), None)
      | None => (d, Some ErrNotExist)
      end
  end.

(** [os.RemoveAll(dir)]: the directory and everything in it. *)
Definition os_RemoveAll (d : Disk) : Disk * option error := (None, None).

(** [ioutil.ReadDir(dir)], reduced to the file names.  The order of the
    listing is left open: [setup] sorts what it parses from it. *)
Definition ioutil_ReadDir (d : Disk) : list string * option error :=
  match d with
  | None => ([], Some ErrNotExist)
  | Some m => ((map_to_list m).*1, None)
  end.

(** [f.Write(p)] on a file opened with [O_APPEND]. *)
Definition File_Write (d : Disk) (f : os_File) (p : list byte) : Disk * (Z * option error) :=
  if closed f then (d, (0, Some ErrClosed))
  else match file_content d (fname f) with
       | None => (d, (0, Some ErrNotExist))
       | Some c => (set_content d (fname f) (c ++ p), (len p, None))
       end.

(** [f.ReadAt(b, off)] with [n = len(b)]: the bytes read and the error.
    A negative offset is refused, nothing is read into an empty [b], and
    a short read reports [io.EOF]. *)
Definition File_ReadAt (d : Disk) (f : os_File) (n : Z) (off : Z) : list byte * option error :=
  if off <? 0 then ([], Some ErrInvalid)
  else if n =? 0 then ([], None)
  else if closed f then ([], Some ErrClosed)
  else match file_content d (fname f) with
       | None => ([], Some ErrNotExist)
       | Some c =>
           if len c <? off + n
           then (if len c <=? off then [] else drop (Z.to_nat off) c, Some EOF)
           else (slice c off (off + n), None)
       end.

Definition File_Sync (f : os_File) : option error :=
  if closed f then Some ErrClosed else None.

(** [f.Truncate(n)] with [n : int64]. *)
Definition File_Truncate (d : Disk) (f : os_File) (n : Z) : Disk * option error :=
  if closed f then (d, Some ErrClosed)
  else if n <? 0 then (d, Some ErrInvalid)
  else match file_content d (fname f) with
       | None => (d, Some ErrNotExist)
       | Some c => (set_content d (fname f) (resize c n), None)
       end.

Definition File_Close (f : os_File) : os_File * option error :=
  if closed f then (f, Some ErrClosed)
  else ({| fname := fname f; closed := true |}, None).

(** ** The index (index.go) *)

Definition offWidth : Z := 4.
Definition posWidth : Z := 8.
Definition entWidth : Z := offWidth + posWidth.

Module index.

(** [mmap] is the mapped region ([len(i.mmap)] is its length), [size]
    the number of bytes of entries written so far. *)
Record t := { file : os_File; mmap : list byte; size : Z }.

(** [gommap.Map(fd, PROT_READ|PROT_WRITE, MAP_SHARED)]: the whole file;
    an empty file cannot be mapped. *)
Definition gommap_Map (d : Disk) (f : os_File) : list byte * option error :=
  if closed f then ([], Some ErrClosed)
  else match file_content d (fname f) with
       | None => ([], Some ErrNotExist)
       | Some c => if len c =? 0 then ([], Some ErrInvalid) else (c, None)
       end.

Definition newIndex (d : Disk) (f : os_File) (c : Config) : Disk * (option t * option error) :=
  let '(fi_size, err) := os_Stat d (fname f) in
  match err with
  | Some e => (d, (None, Some e))
  | None =>
      let size := u64 fi_size in
      let '(d, err) := os_Truncate d (fname f) (i64 (MaxIndexBytes (Segment c))) in
      match err with
      | Some e => (d, (None, Some e))
      | None =>
          let '(m, err) := gommap_Map d f in
          match err with
          | Some e => (d, (None, Some e))
          | None => (d, (Some {| file := f; mmap := m; size := size |}, None))
          end
      end
  end.

(** [i.mmap.Sync(gommap.MS_SYNC)]: the mapped bytes reach the file. *)
Definition mmap_Sync (d : Disk) (i : t) : Disk * option error :=
  match file_content d (fname (file i)) with
  | Some _ => (set_content d (fname (file i)) (mmap i), None)
  | None => (d, None)
  end.

Definition Close (d : Disk) (i : t) : Disk * t * option error :=
  let '(d, err) := mmap_Sync d i in
  match err with
  | Some e => (d, i, Some e)
  | None =>
      match File_Sync (file i) with
      | Some e => (d, i, Some e)
      | None =>
          let '(d, err) := File_Truncate d (file i) (i64 (size i)) in
          match err with
          | Some e => (d, i, Some e)
          | None =>
              let '(f, err) := File_Close (file i) in
              (d, {| file := f; mmap := mmap i; size := size i |}, err)
          end
      end
  end.

Definition Name (i : t) : string := fname (file i).

Definition Read (i : t) (in_ : Z) : exec (Z * Z * option error) :=
  if size i =? 0 then Done (0, 0, Some EOF)
  else
    let off :=
      if in_ =? -1 then u32 (u64 (size i / entWidth - 1))
      else u32 (size i) in
    let pos := u64 (entWidth * off) in
    if size i <? u64 (pos + entWidth) then Done (0, 0, Some EOF)
    else if in_bounds (mmap i) pos (u64 (pos + offWidth))
            && in_bounds (mmap i) (u64 (pos + offWidth)) (u64 (pos + entWidth))
    then
      let off := Uint32 (slice (mmap i) pos (u64 (pos + offWidth))) in
      let pos := Uint64 (slice (mmap i) (u64 (pos + offWidth)) (u64 (pos + entWidth))) in
      Done (off, pos, None)
    else Panic.

(** The write goes to the mapped region as memory: this is [Write] on a
    mapping that is backed by its file.  Once [Close] has cut the file
    back under the region, a write to a page past the end of the file
    faults; the properties of [Write] are stated for a live mapping. *)
Definition Write (i : t) (off pos : Z) : exec (t * option error) :=
  if len (mmap i) <? u64 (size i + entWidth) then Done (i, Some EOF)
  else if in_bounds (mmap i) (size i) (u64 (size i + offWidth))
          && in_bounds (mmap i) (u64 (size i + offWidth)) (u64 (size i + entWidth))
  then
    let m := write_at (mmap i) (size i) (PutUint32 off) in
    let m := write_at m (u64 (size i + offWidth)) (PutUint64 pos) in
    Done ({| file := file i; mmap := m; size := u64 (size i + entWidth) |}, None)
  else Panic.

End index.

(** ** [bufio.Writer] over the store's file

    The library's writer with its default buffer of 4096 bytes: the bytes
    not yet handed to the file, and the error that sticks once a write to
    the file has failed. *)

Module bufio.

Definition defaultBufSize : Z := 4096.

Record Writer := { pending : list byte; err : option error }.

Definition NewWriter : Writer := {| pending := []; err := None |}.

Definition Available (b : Writer) : Z := defaultBufSize - len (pending b).
Definition Buffered (b : Writer) : Z := len (pending b).

Definition Flush (d : Disk) (f : os_File) (b : Writer) : Disk * Writer * option error :=
  match err b with
  | Some e => (d, b, Some e)
  | None =>
      if Buffered b =? 0 then (d, b, None)
      else
        let '(d, (n, werr)) := File_Write d f (pending b) in
        match werr with
        | Some e => (d, {| pending := drop (Z.to_nat n) (pending b); err := Some e |}, Some e)
        | None => (d, {| pending := []; err := None |}, None)
        end
  end.

(** [Write] on a writer whose buffer is empty and has no error: a large
    [p] goes to the file directly, anything else is buffered. *)
Definition Write_empty (d : Disk) (f : os_File) (p : list byte) (nn : Z)
  : Disk * Writer * (Z * option error) :=
  if defaultBufSize <? len p then
    let '(d, (n, werr)) := File_Write d f p in
    (d, {| pending := []; err := werr |}, (nn + n, werr))
  else (d, {| pending := p; err := None |}, (nn + len p, None)).

Definition Write (d : Disk) (f : os_File) (b : Writer) (p : list byte)
  : Disk * Writer * (Z * option error) :=
  match err b with
  | Some e => (d, b, (0, Some e))
  | None =>
      if len p <=? Available b then
        (d, {| pending := pending b ++ p; err := None |}, (len p, None))
      else if Buffered b =? 0 then Write_empty d f p 0
      else
        let n := Available b in
        let full := {| pending := pending b ++ take (Z.to_nat n) p; err := None |} in
        let '(d, b, ferr) := Flush d f full in
        match ferr with
        | Some e => (d, b, (n, Some e))
        | None => Write_empty d f (drop (Z.to_nat n) p) n
        end
  end.

End bufio.

(** [binary.Write(w, enc, v)] for a [uint64]: its eight bytes go to [w]. *)
Definition binary_Write (d : Disk) (f : os_File) (b : bufio.Writer) (v : Z)
  : Disk * bufio.Writer * option error :=
  let '(d, b, (_, err)) := bufio.Write d f b (PutUint64 v) in (d, b, err).

(** ** The store (store.go) *)

Definition lenWidth : Z := 8.

Module store.

Record t := { File : os_File; buf : bufio.Writer; size : Z }.

Definition Name (s : t) : string := fname (File s).

Definition newStore (d : Disk) (f : os_File) : option t * option error :=
  let '(fi_size, err) := os_Stat d (fname f) in
  match err with
  | Some e => (None, Some e)
  | None =>
      let size := u64 fi_size in
      (Some {| File := f; size := size; buf := bufio.NewWriter |}, None)
  end.

Definition Append (d : Disk) (s : t) (p : list byte) : Disk * t * (Z * Z * option error) :=
  let pos := size s in
  let '(d, b, err) := binary_Write d (File s) (buf s) (u64 (len p)) in
  match err with
  | Some e => (d, {| File := File s; buf := b; size := size s |}, (0, 0, Some e))
  | None =>
      let '(d, b, (w, err)) := bufio.Write d (File s) b p in
      match err with
      | Some e => (d, {| File := File s; buf := b; size := size s |}, (0, 0, Some e))
      | None =>
          let w := w + lenWidth in
          (d, {| File := File s; buf := b; size := u64 (size s + u64 w) |},
           (u64 w, pos, None))
      end
  end.

(** [make([]byte, n)] panics when [n] is no [int]; other allocations
    are taken to succeed. *)
Definition Read (d : Disk) (s : t) (pos : Z) : exec (Disk * t * (list byte * option error)) :=
  let '(d, b, err) := bufio.Flush d (File s) (buf s) in
  let s := {| File := File s; buf := b; size := size s |} in
  match err with
  | Some e => Done (d, s, ([], Some e))
  | None =>
      let '(size_, err) := File_ReadAt d (File s) lenWidth (i64 pos) in
      match err with
      | Some e => Done (d, s, ([], Some e))
      | None =>
          let n := Uint64 size_ in
          if maxInt <? n then Panic
          else
            let '(b, err) := File_ReadAt d (File s) n (i64 (u64 (pos + lenWidth))) in
            match err with
            | Some e => Done (d, s, ([], Some e))
            | None => Done (d, s, (b, None))
            end
      end
  end.

(** [ReadAt(p, off)] with [n = len(p)]. *)
Definition ReadAt (d : Disk) (s : t) (n : Z) (off : Z) : Disk * t * (list byte * option error) :=
  let '(d, b, err) := bufio.Flush d (File s) (buf s) in
  let s := {| File := File s; buf := b; size := size s |} in
  match err with
  | Some e => (d, s, ([], Some e))
  | None => (d, s, File_ReadAt d (File s) n off)
  end.

Definition Close (d : Disk) (s : t) : Disk * t * option error :=
  let '(d, b, err) := bufio.Flush d (File s) (buf s) in
  match err with
  | Some e => (d, {| File := File s; buf := b; size := size s |}, Some e)
  | None =>
      let '(f, err) := File_Close (File s) in
      (d, {| File := f; buf := b; size := size s |}, err)
  end.

End store.

(** ** The segment (segment.go) *)

(** [fmt.Sprintf("%d%s", baseOffset, ext)] *)
Definition file_name (baseOffset : Z) (ext : string) : string :=
  (NilZero.string_of_uint (N.to_uint (Z.to_N baseOffset)) +:+ ext)%string.

Definition set_Offset (r : api_Record) (off : Z) : api_Record :=
  {| Value := Value r; Offset := off |}.

Module segment.

Record t := {
  store : store.t;
  index : index.t;
  baseOffset : Z;
  nextOffset : Z;
  config : Config
}.

Definition with_store (s : t) (st : store.t) : t :=
  {| store := st; index := index s; baseOffset := baseOffset s;
     nextOffset := nextOffset s; config := config s |}.

Definition with_index (s : t) (ix : index.t) : t :=
  {| store := store s; index := ix; baseOffset := baseOffset s;
     nextOffset := nextOffset s; config := config s |}.

Definition with_nextOffset (s : t) (n : Z) : t :=
  {| store := store s; index := index s; baseOffset := baseOffset s;
     nextOffset := n; config := config s |}.

Definition newSegment (d : Disk) (baseOffset : Z) (c : Config)
  : exec (Disk * (option t * option error)) :=
  let '(d, (storeFile, err)) := os_OpenFile d (file_name baseOffset ".store") in
  match storeFile, err with
  | Some storeFile, None =>
      match store.newStore d storeFile with
      | (Some st, None) =>
          let '(d, (indexFile, err)) := os_OpenFile d (file_name baseOffset ".index") in
          match indexFile, err with
          | Some indexFile, None =>
              let '(d, (ix, err)) := index.newIndex d indexFile c in
              match ix, err with
              | Some ix, None =>
                  '(off, _, err) ← index.Read ix (-1);
                  let next :=
                    match err with
                    | Some _ => baseOffset
                    | None => u64 (u64 (baseOffset + off) + 1)
                    end in
                  Done (d, (Some {| store := st; index := ix; baseOffset := baseOffset;
                                    nextOffset := next; config := c |}, None))
              | _, Some e => Done (d, (None, Some e))
              | None, None => Panic
              end
          | _, Some e => Done (d, (None, Some e))
          | None, None => Panic
          end
      | (_, Some e) => Done (d, (None, Some e))
      | (None, None) => Panic
      end
  | _, Some e => Done (d, (None, Some e))
  | None, None => Panic
  end.

(** The caller's record is a pointer: the record as [Append] leaves it
    is returned next to the results. *)
Definition Append `{Codec} (d : Disk) (s : t) (record : api_Record)
  : exec (Disk * t * api_Record * (Z * option error)) :=
  let cur := nextOffset s in
  let record := set_Offset record cur in
  let '(r, err) := Marshal record in
  match err with
  | Some e => Done (d, s, record, (0, Some e))
  | None =>
      let '(d, st, (_, pos, err)) := store.Append d (store s) r in
      let s := with_store s st in
      match err with
      | Some e => Done (d, s, record, (0, Some e))
      | None =>
          '(ix, err) ← index.Write (index s) (u32 (u64 (nextOffset s - baseOffset s))) pos;
          let s := with_index s ix in
          match err with
          | Some _ => Done (d, s, record, (0, None))
          | None =>
              let s := with_nextOffset s (u64 (nextOffset s + 1)) in
              Done (d, s, record, (cur, None))
          end
      end
  end.

Definition Read `{Codec} (d : Disk) (s : t) (off : Z)
  : exec (Disk * t * (option api_Record * option error)) :=
  '(_, pos, err) ← index.Read (index s) (i64 (u64 (off - baseOffset s)));
  match err with
  | Some e => Done (d, s, (None, Some e))
  | None =>
      '(d, st, (r, err)) ← store.Read d (store s) pos;
      let s := with_store s st in
      match err with
      | Some e => Done (d, s, (None, Some e))
      | None =>
          let '(record, err) := Unmarshal r in
          match err with
          | Some e => Done (d, s, (None, Some e))
          | None => Done (d, s, (Some record, None))
          end
      end
  end.

Definition IsMaxed (s : t) : bool :=
  (MaxStoreBytes (Segment (config s)) <=? store.size (store s))
  || (MaxIndexBytes (Segment (config s)) <=? index.size (index s)).

Definition Close (d : Disk) (s : t) : Disk * t * option error :=
  let '(d, st, err) := store.Close d (store s) in
  let s := with_store s st in
  match err with
  | Some e => (d, s, Some e)
  | None =>
      let '(d, ix, err) := index.Close d (index s) in
      let s := with_index s ix in
      match err with
      | Some e => (d, s, Some e)
      | None => (d, s, None)
      end
  end.

Definition Remove (d : Disk) (s : t) : Disk * t * option error :=
  let '(d, s, err) := Close d s in
  match err with
  | Some e => (d, s, Some e)
  | None =>
      let '(d, err) := os_Remove d (index.Name (index s)) in
      match err with
      | Some e => (d, s, Some e)
      | None =>
          let '(d, err) := os_Remove d (store.Name (store s)) in
          match err with
          | Some e => (d, s, Some e)
          | None => (d, s, None)
          end
      end
  end.

End segment.

(** [j >= 0] always holds for a [uint64]. *)
Definition nearestMultiple (j k : Z) : exec Z :=
  if k =? 0 then Panic else Done (u64 ((j / k) * k)).

(** ** The log (log.go) *)

(** [path.Ext] on a file name and [strings.TrimSuffix(name, path.Ext(name))]:
    the name up to its last dot. *)
Fixpoint has_dot (s : string) : bool :=
  match s with
  | EmptyString => false
  | String a s' => if Ascii.eqb a "."%char then true else has_dot s'
  end.

Fixpoint trim_ext (s : string) : string :=
  match s with
  | EmptyString => EmptyString
  | String a s' =>
      if Ascii.eqb a "."%char && negb (has_dot s') then EmptyString
      else String a (trim_ext s')
  end.

(** [strconv.ParseUint(s, 10, 0)] *)
Definition digit_of (a : ascii) : option Z :=
  let n := Z.of_nat (nat_of_ascii a) in
  if (48 <=? n) && (n <=? 57) then Some (n - 48) else None.

Fixpoint parse_digits (acc : Z) (s : string) : option Z :=
  match s with
  | EmptyString => Some acc
  | String a s' =>
      match digit_of a with
      | Some dg => parse_digits (acc * 10 + dg) s'
      | None => None
      end
  end.

Definition strconv_ParseUint (s : string) : Z * option error :=
  match s with
  | EmptyString => (0, Some ErrSyntax)
  | _ =>
      match parse_digits 0 s with
      | None => (0, Some ErrSyntax)
      | Some v => if v <? 2 ^ 64 then (v, None) else (2 ^ 64 - 1, Some ErrRange)
      end
  end.

(** [sort.Slice(baseOffsets, func(i, j) bool { return baseOffsets[i] < baseOffsets[j] })] *)
Fixpoint insert_sorted (x : Z) (l : list Z) : list Z :=
  match l with
  | [] => [x]
  | y :: l' => if x <=? y then x :: l else y :: insert_sorted x l'
  end.

Definition sort_Slice (l : list Z) : list Z := foldr insert_sorted [] l.

Abbreviation log_Config := Config.

Module Log.

(** [mem] holds the segments the log has allocated; [activeSegment] and
    the entries of [segments] are pointers into it, so a write through
    [activeSegment] is seen through [segments]. *)
Record t := {
  Dir : string;
  Config : Config;
  mem : list segment.t;
  activeSegment : option nat;
  segments : list nat
}.

Definition with_mem (l : t) (m : list segment.t) : t :=
  {| Dir := Dir l; Config := Config l; mem := m;
     activeSegment := activeSegment l; segments := segments l |}.

Definition with_segments (l : t) (ss : list nat) : t :=
  {| Dir := Dir l; Config := Config l; mem := mem l;
     activeSegment := activeSegment l; segments := ss |}.

(** Dereferencing a segment pointer; [nil] panics. *)
Definition deref (l : t) (p : nat) : exec segment.t :=
  match mem l !! p with
  | Some s => Done s
  | None => Panic
  end.

Definition newSegment (d : Disk) (l : t) (off : Z) : exec (Disk * t * option error) :=
  '(d, (s, err)) ← segment.newSegment d off (Config l);
  match s, err with
  | _, Some e => Done (d, l, Some e)
  | None, None => Panic
  | Some s, None =>
      let p := length (mem l) in
      Done (d, {| Dir := Dir l; Config := Config l; mem := mem l ++ [s];
                  activeSegment := Some p; segments := segments l ++ [p] |}, None)
  end.

(** The names of the directory, parsed into base offsets. *)
Fixpoint parse_names (files : list string) (baseOffsets : list Z) : list Z * option error :=
  match files with
  | [] => (baseOffsets, None)
  | name :: files' =>
      let offStr := trim_ext name in
      let '(off, err) := strconv_ParseUint offStr in
      match err with
      | Some e => (baseOffsets, Some e)
      | None => parse_names files' (baseOffsets ++ [off])
      end
  end.

(** The loop over [baseOffsets]: a segment for the entry at [i], then
    [i++] twice. *)
Fixpoint setup_loop (d : Disk) (l : t) (baseOffsets : list Z) : exec (Disk * t * option error) :=
  match baseOffsets with
  | [] => Done (d, l, None)
  | off :: rest =>
      '(d, l, err) ← newSegment d l off;
      match err with
      | Some e => Done (d, l, Some e)
      | None =>
          match rest with
          | [] => Done (d, l, None)
          | _ :: rest' => setup_loop d l rest'
          end
      end
  end.

Definition setup (d : Disk) (l : t) : exec (Disk * t * option error) :=
  let '(files, err) := ioutil_ReadDir d in
  match err with
  | Some e => Done (d, l, Some e)
  | None =>
      let '(baseOffsets, err) := parse_names files [] in
      match err with
      | Some e => Done (d, l, Some e)
      | None =>
          let baseOffsets := sort_Slice baseOffsets in
          '(d, l, err) ← setup_loop d l baseOffsets;
          match err with
          | Some e => Done (d, l, Some e)
          | None =>
              match segments l with
              | [] =>
                  '(d, l, err) ← newSegment d l (InitialOffset (Segment (Config l)));
                  match err with
                  | Some e => Done (d, l, Some e)
                  | None => Done (d, l, None)
                  end
              | _ => Done (d, l, None)
              end
          end
      end
  end.

Definition NewLog (d : Disk) (dir : string) (c : log_Config) : exec (Disk * t * option error) :=
  let c :=
    if MaxIndexBytes (Segment c) =? 0
    then {| Segment := {| MaxStoreBytes := MaxStoreBytes (Segment c);
                          MaxIndexBytes := 1024;
                          InitialOffset := InitialOffset (Segment c) |} |}
    else c in
  let c :=
    if MaxStoreBytes (Segment c) =? 0
    then {| Segment := {| MaxStoreBytes := 1024;
                          MaxIndexBytes := MaxIndexBytes (Segment c);
                          InitialOffset := InitialOffset (Segment c) |} |}
    else c in
  let l := {| Dir := dir; Config := c; mem := []; activeSegment := None; segments := [] |} in
  setup d l.

Definition Append `{Codec} (d : Disk) (l : t) (record : api_Record)
  : exec (Disk * t * api_Record * (Z * option error)) :=
  match activeSegment l with
  | None => Panic
  | Some p =>
      s ← deref l p;
      '(d, s, record, (off, err)) ← segment.Append d s record;
      let l := with_mem l (<[p := s]> (mem l)) in
      match err with
      | Some _ => Done (d, l, record, (0, None))
      | None =>
          if segment.IsMaxed s then
            '(d, l, err) ← newSegment d l (u64 (off + 1));
            Done (d, l, record, (off, err))
          else Done (d, l, record, (off, None))
      end
  end.

(** The first segment of the list with [baseOffset <= off < nextOffset]. *)
Fixpoint find_segment (l : t) (ps : list nat) (off : Z) : exec (option nat) :=
  match ps with
  | [] => Done None
  | p :: ps' =>
      s ← deref l p;
      if (segment.baseOffset s <=? off) && (off <? segment.nextOffset s)
      then Done (Some p)
      else find_segment l ps' off
  end.

Definition Read `{Codec} (d : Disk) (l : t) (off : Z)
  : exec (Disk * t * (option api_Record * option error)) :=
  found ← find_segment l (segments l) off;
  match found with
  | None => Done (d, l, (None, Some (ErrOffsetOutOfRange off)))
  | Some p =>
      s ← deref l p;
      if segment.nextOffset s <=? off
      then Done (d, l, (None, Some (ErrOffsetOutOfRange off)))
      else
        '(d, s, res) ← segment.Read d s off;
        Done (d, with_mem l (<[p := s]> (mem l)), res)
  end.

Fixpoint Close_loop (d : Disk) (l : t) (ps : list nat) : exec (Disk * t * option error) :=
  match ps with
  | [] => Done (d, l, None)
  | p :: ps' =>
      s ← deref l p;
      let '(d, s, err) := segment.Close d s in
      let l := with_mem l (<[p := s]> (mem l)) in
      match err with
      | Some e => Done (d, l, Some e)
      | None => Close_loop d l ps'
      end
  end.

Definition Close (d : Disk) (l : t) : exec (Disk * t * option error) :=
  Close_loop d l (segments l).

Definition Remove (d : Disk) (l : t) : exec (Disk * t * option error) :=
  '(d, l, err) ← Close d l;
  match err with
  | Some e => Done (d, l, Some e)
  | None => let '(d, err) := os_RemoveAll d in Done (d, l, err)
  end.

Definition Reset (d : Disk) (l : t) : exec (Disk * t * option error) :=
  '(d, l, err) ← Remove d l;
  match err with
  | Some _ => Done (d, l, None)
  | None => setup d l
  end.

Definition LowestOffset (l : t) : exec (Z * option error) :=
  match segments l with
  | [] => Panic
  | p :: _ => s ← deref l p; Done (segment.baseOffset s, None)
  end.

Definition HighestOffset (l : t) : exec (Z * option error) :=
  match last (segments l) with
  | None => Panic
  | Some p =>
      s ← deref l p;
      let off := segment.nextOffset s in
      if off =? 0 then Done (0, None)
      else Done (u64 (off - 1), None)
  end.

(** The loop of [Truncate]: [kept] is the local slice [segments]. *)
Fixpoint Truncate_loop (d : Disk) (l : t) (lowest : Z) (ps kept : list nat)
  : exec (Disk * t * list nat * option error) :=
  match ps with
  | [] => Done (d, l, kept, None)
  | p :: ps' =>
      s ← deref l p;
      if segment.nextOffset s <=? u64 (lowest + 1) then
        let '(d, s, err) := segment.Remove d s in
        let l := with_mem l (<[p := s]> (mem l)) in
        match err with
        | Some e => Done (d, l, kept, Some e)
        | None => Truncate_loop d l lowest ps' kept
        end
      else Truncate_loop d l lowest ps' (kept ++ [p])
  end.

Definition Truncate (d : Disk) (l : t) (lowest : Z) : exec (Disk * t * option error) :=
  '(d, l, kept, err) ← Truncate_loop d l lowest (segments l) [];
  match err with
  | Some e => Done (d, l, Some e)
  | None => Done (d, with_segments l kept, None)
  end.

(** [Reader]: one [originReader] per segment, each holding the
    segment's store (here: the segment's pointer) and the offset 0;
    [io.MultiReader] chains them in this order. *)
Fixpoint Reader_loop (l : t) (ps : list nat) : exec (list (nat * Z)) :=
  match ps with
  | [] => Done []
  | p :: ps' =>
      _ ← deref l p;
      readers ← Reader_loop l ps';
      Done ((p, 0) :: readers)
  end.

Definition Reader (l : t) : exec (list (nat * Z)) := Reader_loop l (segments l).

End Log.

(** ** The public operations as a transition system *)

Inductive op : Type :=
  | OpAppend (record : api_Record)
  | OpRead (off : Z)
  | OpClose
  | OpRemove
  | OpReset
  | OpLowestOffset
  | OpHighestOffset
  | OpTruncate (lowest : Z)
  | OpReader.

(** The state a public operation leaves behind. *)
Definition run_op `{Codec} (d : Disk) (l : Log.t) (o : op) : exec (Disk * Log.t) :=
  match o with
  | OpAppend record => '(d, l, _, _) ← Log.Append d l record; Done (d, l)
  | OpRead off => '(d, l, _) ← Log.Read d l off; Done (d, l)
  | OpClose => '(d, l, _) ← Log.Close d l; Done (d, l)
  | OpRemove => '(d, l, _) ← Log.Remove d l; Done (d, l)
  | OpReset => '(d, l, _) ← Log.Reset d l; Done (d, l)
  | OpLowestOffset => _ ← Log.LowestOffset l; Done (d, l)
  | OpHighestOffset => _ ← Log.HighestOffset l; Done (d, l)
  | OpTruncate lowest => '(d, l, _) ← Log.Truncate d l lowest; Done (d, l)
  | OpReader => _ ← Log.Reader l; Done (d, l)
  end.

(** ** Vocabulary of the statements *)

(** The bytes of a store in order: those in its file, then those still in
    the writer's buffer. *)
Definition store_content (d : Disk) (s : store.t) : list byte :=
  match file_content d (store.Name s) with
  | Some c => c ++ bufio.pending (store.buf s)
  | None => bufio.pending (store.buf s)
  end.

(** A store that accepts writes: its file is open and present, and its
    writer holds no error and no more than its buffer size. *)
Definition store_ready (d : Disk) (s : store.t) : Prop :=
  closed (store.File s) = false /\
  is_Some (file_content d (store.Name s)) /\
  bufio.err (store.buf s) = None /\
  bufio.Buffered (store.buf s) <= bufio.defaultBufSize.

(** The mapped region of the index is backed by its file: [Close] has
    not run on the index, so its file is open, and the file in the
    directory is as long as the region, as [newIndex] leaves it.  [Close]
    cuts the file back to [size] under the mapping, and a write to a page
    of the region that lies past the end of the file faults. *)
Definition index_live (d : Disk) (i : index.t) : Prop :=
  closed (index.file i) = false /\
  exists c, file_content d (index.Name i) = Some c /\ len (index.mmap i) <= len c.

(** The segment behind [p] survives [Truncate(lowest)]: the negation of
    the loop's test [nextOffset <= lowest+1]. *)
Definition retained (l : Log.t) (lowest : Z) (p : nat) : bool :=
  match Log.mem l !! p with
  | Some s => u64 (lowest + 1) <? segment.nextOffset s
  | None => false
  end.

(** The segment behind [p] has been removed: both files are closed and
    gone from the directory. *)
Definition removed (d : Disk) (l : Log.t) (p : nat) : Prop :=
  exists s,
    Log.mem l !! p = Some s /\
    closed (store.File (segment.store s)) = true /\
    closed (index.file (segment.index s)) = true /\
    file_content d (store.Name (segment.store s)) = None /\
    file_content d (index.Name (segment.index s)) = None.

(** ** A codec for concrete runs

    The offset in eight bytes, then the payload.  It never fails to
    marshal, and rejects inputs shorter than its header. *)
#[global] Instance header_codec : Codec := {|
  Marshal r := (PutUint64 (Offset r) ++ Value r, None);
  Unmarshal b :=
    if len b <? 8 then ({| Value := []; Offset := 0 |}, Some (ErrProto 0))
    else ({| Value := drop 8 b; Offset := Uint64 b |}, None)
|}.

(** Appending the records of a list one after the other; the offsets and
    errors returned are collected in order. *)
Fixpoint append_all `{Codec} (d : Disk) (l : Log.t) (rs : list api_Record)
  : exec (Disk * Log.t * list (Z * option error)) :=
  match rs with
  | [] => Done (d, l, [])
  | r :: rs' =>
      '(d, l, _, res) ← Log.Append d l r;
      '(d, l, out) ← append_all d l rs';
      Done (d, l, res :: out)
  end.

(** ** The index file format and runs of index writes *)

(** One entry on disk: the relative offset in four bytes, the position in
    eight, both big-endian. *)
Definition entry_bytes (off pos : Z) : list byte := PutUint32 off ++ PutUint64 pos.

Definition encode_entries (es : list (Z * Z)) : list byte :=
  concat (map (fun e => entry_bytes e.1 e.2) es).

(** Writing the entries of a list in order, stopping at the first error. *)
Fixpoint Write_all (i : index.t) (es : list (Z * Z)) : exec (index.t * option error) :=
  match es with
  | [] => Done (i, None)
  | e :: es' =>
      '(i, err) ← index.Write i e.1 e.2;
      match err with
      | Some e => Done (i, Some e)
      | None => Write_all i es'
      end
  end.

(** No file appears between two states of the directory. *)
Definition no_new_files (d d' : Disk) : Prop :=
  forall n, file_content d n = None -> file_content d' n = None.

(** The segment list only grows at its end. *)
Definition extends (l l' : Log.t) : Prop :=
  exists extra, Log.segments l' = Log.segments l ++ extra.

(** The base and next offsets of the segments of the list, in order. *)
Definition bases (l : Log.t) : list (option (Z * Z)) :=
  map (fun p => (fun s => (segment.baseOffset s, segment.nextOffset s)) <$> Log.mem l !! p)
      (Log.segments l).

(** ** Concrete inputs *)

Definition empty_dir : Disk := Some ∅.

(** The configuration [NewLog] completes from the zero [Config]. *)
Definition cfg1024 : Config :=
  {| Segment := {| MaxStoreBytes := 1024; MaxIndexBytes := 1024; InitialOffset := 0 |} |}.

(** The default index size with a store that does not fill up first. *)
Definition cfg_big_store : Config :=
  {| Segment := {| MaxStoreBytes := 65536; MaxIndexBytes := 0; InitialOffset := 0 |} |}.

(** Three entries per index, as in scenario B of the specification. *)
Definition cfg_three : Config :=
  {| Segment := {| MaxStoreBytes := 1024; MaxIndexBytes := 36; InitialOffset := 0 |} |}.

Definition hello : api_Record :=
  {| Value := [x68; x65; x6c; x6c; x6f]; Offset := 0 |}.

(** The temporary file of the index test, and the index of the test after
    its two writes. *)
Definition test_disk : Disk := Some {[ "index_test"%string := [] ]}.
Definition test_file : os_File := {| fname := "index_test"; closed := false |}.

Definition two_entries : index.t :=
  {| index.file := test_file;
     index.mmap := encode_entries [(0, 0); (1, 10)] ++ replicate 1000 x00;
     index.size := 24 |}.

(** The log [NewLog] returns for an empty directory: one empty segment at
    offset 0 ([seg0]) over two new files ([disk0]). *)
Definition fresh_log : exec (Disk * Log.t * option error) :=
  Log.NewLog empty_dir "log" cfg1024.

Definition seg0 : segment.t :=
  {| segment.store :=
       {| store.File := {| fname := "0.store"; closed := false |};
          store.buf := bufio.NewWriter; store.size := 0 |};
     segment.index :=
       {| index.file := {| fname := "0.index"; closed := false |};
          index.mmap := replicate 1024 x00; index.size := 0 |};
     segment.baseOffset := 0; segment.nextOffset := 0; segment.config := cfg1024 |}.

Definition disk0 : Disk :=
  Some (<["0.index"%string := replicate 1024 x00]> {[ "0.store"%string := [] ]}).

Definition log0 : Log.t :=
  {| Log.Dir := "log"; Log.Config := cfg1024; Log.mem := [seg0];
     Log.activeSegment := Some 0%nat; Log.segments := [0%nat] |}.

(** That log after one append. *)
Definition one_record_log : exec (Disk * Log.t) :=
  '(d, l, _) ← fresh_log;
  '(d, l, _, _) ← Log.Append d l hello;
  Done (d, l).

(** A log with the default index size and a large store: 85 entries fit
    in the 1024 bytes of the index, with 4 bytes to spare. *)
Definition big_store_log : exec (Disk * Log.t * option error) :=
  Log.NewLog empty_dir "log" cfg_big_store.

Definition after_85_appends : exec (Disk * Log.t * list (Z * option error)) :=
  '(d, l, _) ← big_store_log; append_all d l (replicate 85 hello).

Definition after_86_appends : exec (Disk * Log.t * list (Z * option error)) :=
  '(d, l, _) ← big_store_log; append_all d l (replicate 86 hello).

(** The temporary file of the index test once [newIndex] has grown it to
    the configured 1024 bytes. *)
Definition test_disk_mapped : Disk := (index.newIndex test_disk test_file cfg1024).1.

(** The directory and the fresh segment after one append of [hello]: the
    next offset is 1, the store holds 21 bytes and the index one entry. *)
Definition appended_seg : Disk * segment.t :=
  match segment.Append disk0 seg0 hello with
  | Done (d, s, _, _) => (d, s)
  | Panic => (disk0, seg0)
  end.

(** A log of three segments: with three entries to an index, seven
    appends fill the segments at offsets 0 and 3 and put one record in the
    segment at offset 6. *)
Definition three_segments : Disk * Log.t :=
  match '(d, l, _) ← Log.NewLog empty_dir "log" cfg_three;
        append_all d l (replicate 7 hello) with
  | Done (d, l, _) => (d, l)
  | Panic => (disk0, log0)
  end.

(** ** The readers of the log (log.go) *)

(** [originReader]: a pointer to a segment, whose store it reads, and the
    offset of the next read. *)
Definition originReader : Type := nat * Z.

(** [o.Read(p)] with [len(p) = n]: the bytes read, the error, and the
    reader with its offset advanced by the number of bytes read. *)
Definition originReader_Read (d : Disk) (l : Log.t) (o : originReader) (n : Z)
  : exec (Disk * Log.t * originReader * (list byte * option error)) :=
  let '(p, off) := o in
  s ← Log.deref l p;
  let '(d, st, (bs, err)) := store.ReadAt d (segment.store s) n off in
  Done (d, Log.with_mem l (<[p := segment.with_store s st]> (Log.mem l)),
        (p, i64 (off + len bs)), (bs, err)).

(** ** Vocabulary of the further properties *)

(** A record in the store file: the length of the payload in eight bytes,
    then the payload. *)
Definition frame (p : list byte) : list byte := PutUint64 (u64 (len p)) ++ p.

(** The store's [size] is the length of what it holds. *)
Definition store_sized (d : Disk) (s : store.t) : Prop :=
  store.size s = len (store_content d s).

(** The configuration after [NewLog] has filled in its defaults. *)
Definition with_defaults (c : Config) : Config :=
  {| Segment :=
       {| MaxStoreBytes := if MaxStoreBytes (Segment c) =? 0 then 1024
                           else MaxStoreBytes (Segment c);
          MaxIndexBytes := if MaxIndexBytes (Segment c) =? 0 then 1024
                           else MaxIndexBytes (Segment c);
          InitialOffset := InitialOffset (Segment c) |} |}.

(** The segment behind [p] has both its files closed. *)
Definition closed_at (l : Log.t) (p : nat) : Prop :=
  exists s, Log.mem l !! p = Some s /\
            closed (store.File (segment.store s)) = true /\
            closed (index.file (segment.index s)) = true.

(** ** Further concrete inputs *)

(** The store of the fresh segment. *)
Definition store0 : store.t := segment.store seg0.

(** The store of a fresh segment after one append of two bytes. *)
Definition store1 : Disk * store.t :=
  let '(d, s, _) := store.Append disk0 store0 [x41; x42] in (d, s).

(** The directory and the segment of a fresh log closed after one append. *)
Definition closed_seg : Disk * segment.t :=
  match segment.Append disk0 seg0 hello with
  | Done (d, s, _, _) => let '(d, s, _) := segment.Close d s in (d, s)
  | Panic => (disk0, seg0)
  end.

(** The fresh log after its [Close]. *)
Definition closed_log : Disk * Log.t :=
  match Log.Close disk0 log0 with
  | Done (d, l, _) => (d, l)
  | Panic => (disk0, log0)
  end.

(** The fresh log with one record of two bytes appended to the store of
    its segment, still in the store's buffer. *)
Definition buffered_log : Disk * Log.t :=
  (store1.1, Log.with_mem log0 [segment.with_store seg0 store1.2]).

(** A directory that holds one file that is not of a segment. *)
Definition foreign_dir : Disk := Some {[ "readme.md"%string := [] ]}.

(** * Lemmas and theorems *)

(** * Big-endian encoding *)

Lemma Z_of_byte_of_Z z : Z_of_byte (byte_of_Z z) = z mod 256.
Proof.
  unfold Z_of_byte, byte_of_Z.
  assert (Hr : 0 <= z mod 256 < 256) by (apply Z.mod_pos_bound; lia).
  destruct (Byte.of_N (Z.to_N (z mod 256))) as [b|] eqn:E.
  - apply Byte.to_of_N in E. rewrite E. lia.
  - apply Byte.of_N_None_iff in E. lia.
Qed.

Lemma length_be_bytes n v : length (be_bytes n v) = n.
Proof. induction n as [|n IH]; simpl; [done | by rewrite IH]. Qed.

Lemma be_value_acc bs acc :
  fold_left (fun a b => a * 256 + Z_of_byte b) bs acc
  = acc * 256 ^ Z.of_nat (length bs) + be_value bs.
Proof.
  unfold be_value. revert acc. induction bs as [|b bs IH]; intros acc; simpl fold_left.
  - simpl. lia.
  - rewrite IH, (IH (0 * 256 + Z_of_byte b)).
    rewrite length_cons, Nat2Z.inj_succ, Z.pow_succ_r by lia. lia.
Qed.

Lemma be_value_cons b bs :
  be_value (b :: bs) = Z_of_byte b * 256 ^ Z.of_nat (length bs) + be_value bs.
Proof. unfold be_value at 1. simpl. rewrite be_value_acc. lia. Qed.

Lemma be_value_be_bytes n v : be_value (be_bytes n v) = v mod 256 ^ Z.of_nat n.
Proof.
  induction n as [|n IH].
  - simpl. unfold be_value. simpl. by rewrite Z.mod_1_r.
  - cbn [be_bytes]. rewrite be_value_cons, IH, length_be_bytes, Z_of_byte_of_Z.
    rewrite Z.shiftr_div_pow2 by lia.
    replace (2 ^ (8 * Z.of_nat n)) with (256 ^ Z.of_nat n)
      by (replace 256 with (2 ^ 8) by reflexivity; rewrite <- Z.pow_mul_r by lia; done).
    rewrite Nat2Z.inj_succ, Z.pow_succ_r by lia.
    rewrite (Z.mul_comm 256), Z.rem_mul_r by lia. lia.
Qed.

Lemma Uint32_PutUint32 v : Uint32 (PutUint32 v) = u32 v.
Proof.
  unfold Uint32, PutUint32, u32. rewrite take_ge by (rewrite length_be_bytes; lia).
  by rewrite be_value_be_bytes.
Qed.

Lemma Uint64_PutUint64 v : Uint64 (PutUint64 v) = u64 v.
Proof.
  unfold Uint64, PutUint64, u64. rewrite take_ge by (rewrite length_be_bytes; lia).
  by rewrite be_value_be_bytes.
Qed.

(** * Slices *)

Section slices.
Context {A : Type}.
Implicit Types (l bs : list A).

Lemma len_app l1 l2 : len (l1 ++ l2) = len l1 + len l2.
Proof. unfold len. rewrite length_app. lia. Qed.

Lemma len_nonneg l : 0 <= len l.
Proof. unfold len. lia. Qed.

Lemma slice_app_mid l1 bs l2 lo :
  lo = len l1 -> slice (l1 ++ bs ++ l2) lo (lo + len bs) = bs.
Proof.
  unfold slice, len. intros ->.
  rewrite Nat2Z.id, drop_app_length.
  replace (Z.to_nat _) with (length bs) by lia.
  by rewrite take_app_length.
Qed.
End slices.

(** * The index: writes *)

Lemma u64_small z : 0 <= z < 2 ^ 64 -> u64 z = z.
Proof. intros. unfold u64. by apply Z.mod_small. Qed.

Lemma u32_small z : 0 <= z < 2 ^ 32 -> u32 z = z.
Proof. intros. unfold u32. by apply Z.mod_small. Qed.

Lemma i64_small z : 0 <= z < 2 ^ 63 -> i64 z = z.
Proof.
  intros. unfold i64. rewrite Z.mod_small by lia.
  destruct (Z.ltb_spec z (2 ^ 63)); [done | lia].
Qed.

Lemma len_PutUint32 v : len (PutUint32 v) = 4.
Proof. unfold len, PutUint32. by rewrite length_be_bytes. Qed.

Lemma len_PutUint64 v : len (PutUint64 v) = 8.
Proof. unfold len, PutUint64. by rewrite length_be_bytes. Qed.

Lemma len_entry_bytes off pos : len (entry_bytes off pos) = 12.
Proof. unfold entry_bytes. rewrite len_app, len_PutUint32, len_PutUint64. lia. Qed.

Lemma in_bounds_true {A} (l : list A) lo hi :
  0 <= lo -> lo <= hi -> hi <= len l -> in_bounds l lo hi = true.
Proof.
  intros. unfold in_bounds.
  repeat (apply andb_true_intro; split); by apply Z.leb_le.
Qed.

Lemma Write_full i off pos :
  0 <= index.size i < 2 ^ 64 - 12 -> len (index.mmap i) < index.size i + 12 ->
  index.Write i off pos = Done (i, Some EOF).
Proof.
  intros Hs Hfull. unfold index.Write.
  change entWidth with 12. rewrite u64_small by lia.
  destruct (Z.ltb_spec (len (index.mmap i)) (index.size i + 12)); [done | lia].
Qed.

Lemma Write_room i off pos :
  0 <= index.size i < 2 ^ 64 - 12 -> index.size i + 12 <= len (index.mmap i) ->
  index.Write i off pos =
  Done ({| index.file := index.file i;
           index.mmap := take (Z.to_nat (index.size i)) (index.mmap i)
                           ++ entry_bytes off pos
                           ++ drop (Z.to_nat (index.size i + 12)) (index.mmap i);
           index.size := index.size i + 12 |}, None).
Proof.
  intros Hs Hroom. unfold index.Write.
  change entWidth with 12. change offWidth with 4.
  rewrite !u64_small by lia.
  destruct (Z.ltb_spec (len (index.mmap i)) (index.size i + 12)); [lia |].
  rewrite !in_bounds_true by lia. simpl andb. cbv iota.
  do 3 f_equal.
  set (m := index.mmap i) in *. set (s := index.size i) in *.
  assert (H4 : length (PutUint32 off) = 4%nat) by apply length_be_bytes.
  assert (H8 : length (PutUint64 pos) = 8%nat) by apply length_be_bytes.
  assert (Hm : (Z.to_nat s + 12 <= length m)%nat) by (unfold len in *; lia).
  unfold write_at, entry_bytes. rewrite H4, H8.
  replace (Z.to_nat (s + 4)) with (Z.to_nat s + 4)%nat by lia.
  replace (Z.to_nat (s + 12)) with (Z.to_nat s + 12)%nat by lia.
  rewrite take_app_ge by (rewrite length_take; lia).
  rewrite length_take, Nat.min_l by lia.
  replace (Z.to_nat s + 4 - Z.to_nat s)%nat with 4%nat by lia.
  rewrite take_app_length' by done.
  rewrite <- !app_assoc. do 3 f_equal.
  rewrite drop_app_ge by (rewrite length_take; lia).
  rewrite length_take, Nat.min_l by lia.
  rewrite drop_app_ge by lia.
  rewrite drop_drop. f_equal. lia.
Qed.

(** * The index: reads *)

Lemma encode_entries_app es1 es2 :
  encode_entries (es1 ++ es2) = encode_entries es1 ++ encode_entries es2.
Proof. unfold encode_entries. by rewrite map_app, concat_app. Qed.

Lemma encode_entries_snoc es e :
  encode_entries (es ++ [e]) = encode_entries es ++ entry_bytes e.1 e.2.
Proof. rewrite encode_entries_app. by f_equal. Qed.

Lemma len_encode_entries es : len (encode_entries es) = 12 * len es.
Proof.
  induction es as [|e es IH]; [done |].
  change (encode_entries (e :: es)) with (entry_bytes e.1 e.2 ++ encode_entries es).
  rewrite len_app, len_entry_bytes, IH. unfold len. rewrite length_cons. lia.
Qed.

Lemma Read_not_last i n :
  n <> -1 -> 0 <= index.size i < 2 ^ 32 ->
  index.Read i n = Done (0, 0, Some EOF).
Proof.
  intros Hn Hs. unfold index.Read.
  destruct (Z.eqb_spec (index.size i) 0); [done |].
  destruct (Z.eqb_spec n (-1)); [done |].
  change entWidth with 12.
  rewrite (u32_small (index.size i)) by lia.
  rewrite (u64_small (12 * index.size i)) by lia.
  rewrite (u64_small (12 * index.size i + 12)) by lia.
  destruct (Z.ltb_spec (index.size i) (12 * index.size i + 12)); [done | lia].
Qed.

Lemma Read_last f es e rest :
  len es < 2 ^ 32 ->
  index.Read {| index.file := f;
                index.mmap := encode_entries (es ++ [e]) ++ rest;
                index.size := 12 * len (es ++ [e]) |} (-1)
  = Done (u32 e.1, u64 e.2, None).
Proof.
  intros Hn. unfold index.Read. cbn [index.size index.mmap].
  assert (Hlen : len (es ++ [e]) = len es + 1) by (rewrite len_app; done).
  pose proof (len_nonneg es) as Hnn.
  rewrite Hlen.
  destruct (Z.eqb_spec (12 * (len es + 1)) 0); [lia |].
  change (-1 =? -1) with true. cbv iota.
  change entWidth with 12. change offWidth with 4.
  replace (12 * (len es + 1) / 12 - 1) with (len es)
    by (rewrite Z.mul_comm, Z.div_mul by lia; lia).
  rewrite (u64_small (len es)), (u32_small (len es)) by lia.
  rewrite (u64_small (12 * len es)) by lia.
  rewrite (u64_small (12 * len es + 12)), (u64_small (12 * len es + 4)) by lia.
  destruct (Z.ltb_spec (12 * (len es + 1)) (12 * len es + 12)); [lia |].
  assert (Hm : len (encode_entries (es ++ [e]) ++ rest) = 12 * (len es + 1) + len rest).
  { rewrite len_app, len_encode_entries, Hlen. done. }
  pose proof (len_nonneg rest).
  rewrite !in_bounds_true by lia. simpl andb. cbv iota.
  rewrite encode_entries_snoc. unfold entry_bytes. rewrite <- !app_assoc.
  do 2 f_equal.
  - f_equal.
    + replace (12 * len es + 4) with (12 * len es + len (PutUint32 e.1))
        by (rewrite len_PutUint32; lia).
      rewrite slice_app_mid by (by rewrite len_encode_entries).
      apply Uint32_PutUint32.
    + rewrite (app_assoc (encode_entries es)).
      replace (12 * len es + 12) with (12 * len es + 4 + len (PutUint64 e.2))
        by (rewrite len_PutUint64; lia).
      rewrite slice_app_mid by (rewrite len_app, len_encode_entries, len_PutUint32; done).
      apply Uint64_PutUint64.
Qed.

(** * The index: opening and runs of writes *)

Lemma len_resize c n : 0 <= n -> len (resize c n) = n.
Proof.
  intros. unfold resize, len. rewrite length_app, length_take, length_replicate. lia.
Qed.

Lemma resize_le c n : 0 <= n <= len c -> resize c n = take (Z.to_nat n) c.
Proof.
  intros. unfold resize, len in *.
  replace (Z.to_nat n - length c)%nat with 0%nat by lia. simpl. apply app_nil_r.
Qed.

Lemma resize_ge c n :
  len c <= n -> resize c n = c ++ replicate (Z.to_nat n - length c) x00.
Proof. intros. unfold resize, len in *. rewrite take_ge by lia. done. Qed.

Lemma newIndex_inv d f c d' i :
  index.newIndex d f c = (d', (Some i, None)) ->
  let M := i64 (MaxIndexBytes (Segment c)) in
  exists m c0,
    d = Some m /\ m !! fname f = Some c0 /\ closed f = false /\ 0 < M /\
    d' = Some (<[fname f := resize c0 M]> m) /\
    i = {| index.file := f; index.mmap := resize c0 M; index.size := u64 (len c0) |}.
Proof.
  intros Heq M. revert Heq. fold M.
  unfold index.newIndex, os_Stat, os_Truncate, index.gommap_Map, file_content, set_content.
  destruct d as [m|]; [| intros; simplify_eq].
  destruct (m !! fname f) as [c0|] eqn:Hc0; [| intros; simplify_eq].
  fold M. destruct (Z.ltb_spec M 0); [intros; simplify_eq |].
  destruct (closed f) eqn:Hcl; [intros; simplify_eq |].
  rewrite lookup_insert_eq.
  destruct (Z.eqb_spec (len (resize c0 M)) 0) as [E|E];
    [intros; simplify_eq |].
  intros Heq. simplify_eq. exists m, c0.
  rewrite len_resize in E by done. repeat split; try done. lia.
Qed.

Lemma newIndex_ok m f c c0 :
  let M := i64 (MaxIndexBytes (Segment c)) in
  m !! fname f = Some c0 -> closed f = false -> 0 < M ->
  index.newIndex (Some m) f c =
    (Some (<[fname f := resize c0 M]> m),
     (Some {| index.file := f; index.mmap := resize c0 M; index.size := u64 (len c0) |}, None)).
Proof.
  intros M Hc0 Hcl HM.
  unfold index.newIndex, os_Stat, os_Truncate, index.gommap_Map, file_content, set_content.
  rewrite Hc0. fold M.
  destruct (Z.ltb_spec M 0); [lia |].
  rewrite Hcl, lookup_insert_eq.
  destruct (Z.eqb_spec (len (resize c0 M)) 0) as [E|E]; [| done].
  rewrite len_resize in E; lia.
Qed.

Lemma Write_all_spec es : forall i i',
  Write_all i es = Done (i', None) ->
  0 <= index.size i <= len (index.mmap i) -> len (index.mmap i) <= maxInt ->
  index.size i' = index.size i + 12 * len es /\
  index.size i' <= len (index.mmap i) /\
  index.file i' = index.file i /\
  index.mmap i' = take (Z.to_nat (index.size i)) (index.mmap i)
                    ++ encode_entries es
                    ++ drop (Z.to_nat (index.size i + 12 * len es)) (index.mmap i).
Proof.
  induction es as [|e es IH]; intros i i' Hrun Hs Hm.
  - simpl in Hrun. simplify_eq. change (len []) with 0.
    rewrite Z.add_0_r. cbn [encode_entries map concat app].
    rewrite take_drop. repeat split; try done; lia.
  - cbn [Write_all] in Hrun.
    destruct (Z.lt_ge_cases (len (index.mmap i)) (index.size i + 12)) as [Hfull|Hroom].
    + rewrite Write_full in Hrun by (unfold maxInt in Hm; lia). simpl in Hrun. simplify_eq.
    + rewrite Write_room in Hrun by (unfold maxInt in Hm; lia).
      set (i1 := {| index.file := index.file i;
                    index.mmap := take (Z.to_nat (index.size i)) (index.mmap i)
                                    ++ entry_bytes e.1 e.2
                                    ++ drop (Z.to_nat (index.size i + 12)) (index.mmap i);
                    index.size := index.size i + 12 |}) in *.
      change (Write_all i1 es = Done (i', None)) in Hrun.
      assert (He : length (entry_bytes e.1 e.2) = 12%nat).
      { pose proof (len_entry_bytes e.1 e.2). unfold len in *. lia. }
      assert (Hn : (Z.to_nat (index.size i) + 12 <= length (index.mmap i))%nat)
        by (unfold len in *; lia).
      assert (Hlen : len (index.mmap i1) = len (index.mmap i)).
      { unfold i1, len. cbn [index.mmap].
        rewrite !length_app, length_take, length_drop, He. lia. }
      apply IH in Hrun; [| unfold i1 in *; cbn [index.size] in *; lia | lia].
      rewrite Hlen in Hrun.
      destruct Hrun as (Hsz & Hle & Hf & Hmm).
      assert (Hl : len (e :: es) = 1 + len es) by (unfold len; rewrite length_cons; lia).
      rewrite Hl. pose proof (len_nonneg es).
      unfold i1 in Hsz, Hf, Hmm. cbn [index.size index.mmap index.file] in Hsz, Hf, Hmm.
      repeat split; try lia; try done.
      rewrite Hmm.
      change (encode_entries (e :: es)) with (entry_bytes e.1 e.2 ++ encode_entries es).
      replace (Z.to_nat (index.size i + 12)) with (Z.to_nat (index.size i) + 12)%nat by lia.
      assert (HT : length (take (Z.to_nat (index.size i)) (index.mmap i))
                   = Z.to_nat (index.size i)) by (rewrite length_take; lia).
      set (T := take (Z.to_nat (index.size i)) (index.mmap i)) in *.
      set (E := entry_bytes e.1 e.2) in *.
      rewrite (app_assoc T E).
      rewrite take_app_length' by (rewrite length_app; lia).
      rewrite drop_app_ge by (rewrite length_app; lia).
      rewrite drop_drop, length_app, HT, He.
      rewrite <- !app_assoc. do 4 f_equal. lia.
Qed.

(** * The index: close and reopen *)

Lemma i64_range z : - 2 ^ 63 <= i64 z < 2 ^ 63.
Proof.
  unfold i64. pose proof (Z.mod_pos_bound z (2 ^ 64) ltac:(lia)).
  destruct (Z.ltb_spec (z mod 2 ^ 64) (2 ^ 63)); lia.
Qed.

Lemma Close_ok m i c :
  m !! fname (index.file i) = Some c -> closed (index.file i) = false ->
  0 <= index.size i <= maxInt ->
  index.Close (Some m) i =
    (Some (<[fname (index.file i) := resize (index.mmap i) (index.size i)]> m),
     {| index.file := {| fname := fname (index.file i); closed := true |};
        index.mmap := index.mmap i; index.size := index.size i |}, None).
Proof.
  intros Hc Hcl Hs. unfold maxInt in Hs.
  unfold index.Close, index.mmap_Sync, File_Sync, File_Truncate, File_Close,
    file_content, set_content.
  rewrite Hc, Hcl, lookup_insert_eq, i64_small by lia.
  destruct (Z.ltb_spec (index.size i) 0); [lia |].
  by rewrite insert_insert_eq.
Qed.

(** C7.  Take an index file holding the entries [es0] of earlier sessions
    (none for a new file) that fits the configured size, open it, write
    the entries [es] without error and close it without error.  Then the
    file on disk is exactly the encoding of [es0 ++ es], so its size is 12
    times the number of entries; and opening it again under the same
    configuration gives an index of that size whose [Read(-1)] returns the
    last entry written ([io.EOF] when there is none).  The number of
    entries is within the range of the 32-bit entry number. *)
Theorem C7_index_close_reopen (d : Disk) (f : os_File) (c : Config)
    (es0 es : list (Z * Z)) (d0 d1 : Disk) (i0 i1 i1' : index.t) :
  file_content d (fname f) = Some (encode_entries es0) ->
  12 * len es0 <= i64 (MaxIndexBytes (Segment c)) ->
  len (es0 ++ es) <= 2 ^ 32 ->
  Forall (fun e => 0 <= e.1 < 2 ^ 32 /\ 0 <= e.2 < 2 ^ 64) (es0 ++ es) ->
  index.newIndex d f c = (d0, (Some i0, None)) ->
  Write_all i0 es = Done (i1, None) ->
  index.Close d0 i1 = (d1, i1', None) ->
  file_content d1 (fname f) = Some (encode_entries (es0 ++ es)) /\
  os_Stat d1 (fname f) = (12 * len (es0 ++ es), None) /\
  forall f', fname f' = fname f -> closed f' = false ->
    exists d2 i2,
      index.newIndex d1 f' c = (d2, (Some i2, None)) /\
      index.size i2 = 12 * len (es0 ++ es) /\
      index.Read i2 (-1) =
        match last (es0 ++ es) with
        | Some e => Done (e.1, e.2, None)
        | None => Done (0, 0, Some EOF)
        end.
Proof.
  intros Hfile Hfit Hcount Htyped Hnew Hwr Hclose.
  apply newIndex_inv in Hnew.
  destruct Hnew as (m & c0 & -> & Hc0 & Hcl & HM & -> & ->).
  set (M := i64 (MaxIndexBytes (Segment c))) in *.
  simpl in Hfile. rewrite Hc0 in Hfile. injection Hfile as ->.
  pose proof (i64_range (MaxIndexBytes (Segment c))) as HMr. fold M in HMr.
  pose proof (len_encode_entries es0) as Hl0.
  pose proof (len_nonneg es0) as Hn0.
  assert (Htot : len (es0 ++ es) = len es0 + len es) by apply len_app.
  pose proof (len_nonneg es) as Hn1.
  rewrite (u64_small (len (encode_entries es0))) in Hwr by lia.
  apply Write_all_spec in Hwr; cbn [index.size index.mmap index.file] in *;
    rewrite ?len_resize by lia; [| lia | unfold maxInt; lia].
  rewrite len_resize in Hwr by lia.
  destruct Hwr as (Hsz & Hle & Hf & Hmm).
  rewrite resize_ge in Hmm by lia.
  rewrite Hl0 in Hmm, Hsz.
  replace (Z.to_nat (12 * len es0)) with (length (encode_entries es0)) in Hmm
    by (clear -Hl0; unfold len in *; lia).
  rewrite take_app_length in Hmm.
  rewrite app_assoc, <- encode_entries_app in Hmm.
  set (rest := drop _ _) in Hmm.
  assert (Hlt : len (encode_entries (es0 ++ es)) = 12 * len (es0 ++ es))
    by apply len_encode_entries.
  rewrite (Close_ok _ _ (resize (encode_entries es0) M)) in Hclose;
    [| by rewrite Hf; apply lookup_insert_eq | by rewrite Hf | unfold maxInt; lia].
  injection Hclose as <- <-. rewrite Hf, insert_insert_eq.
  assert (Hres : resize (index.mmap i1) (index.size i1) = encode_entries (es0 ++ es)).
  { rewrite resize_le by (rewrite Hmm, len_app, Hlt; pose proof (len_nonneg rest); lia).
    rewrite Hmm, Hsz.
    replace (Z.to_nat (12 * len es0 + 12 * len es))
      with (length (encode_entries (es0 ++ es))) by (clear -Hlt Htot; unfold len in *; lia).
    apply take_app_length. }
  rewrite Hres. cbn [file_content]. rewrite lookup_insert_eq.
  split; [done |]. split.
  { unfold os_Stat. cbn [file_content]. rewrite lookup_insert_eq. by rewrite Hlt. }
  intros f' Hname Hcl'.
  eexists _, _. split.
  { rewrite <- Hname. apply newIndex_ok; [by rewrite lookup_insert_eq | done | done]. }
  cbn [index.size]. rewrite Hlt, u64_small by lia. split; [done |].
  fold M. rewrite resize_ge by lia.
  destruct (last (es0 ++ es)) as [e|] eqn:Hlast.
  - apply last_Some in Hlast as [es' Hes']. rewrite Hes' in *.
    apply Forall_app in Htyped as [_ He]. apply Forall_inv in He.
    rewrite Read_last by (rewrite len_app in Hcount; change (len [e]) with 1 in Hcount; lia).
    rewrite u32_small, u64_small by lia. done.
  - apply last_None in Hlast. rewrite Hlast. done.
Qed.

(** * Closing and removing segments *)

Lemma no_new_files_refl d : no_new_files d d.
Proof. by intros n. Qed.

Lemma no_new_files_trans d1 d2 d3 :
  no_new_files d1 d2 -> no_new_files d2 d3 -> no_new_files d1 d3.
Proof. intros H1 H2 n Hn. by apply H2, H1. Qed.

Lemma set_content_no_new d name c c' :
  file_content d name = Some c -> no_new_files d (set_content d name c').
Proof.
  intros Hc n Hn. destruct d as [m|]; [| done]. simpl in *.
  assert (name <> n) by (intros ?; simplify_eq).
  by rewrite lookup_insert_ne.
Qed.

Lemma File_Write_no_new d f p d' r :
  File_Write d f p = (d', r) -> no_new_files d d'.
Proof.
  unfold File_Write. destruct (closed f); [intros; simplify_eq; apply no_new_files_refl |].
  destruct (file_content d (fname f)) eqn:E; intros; simplify_eq.
  - by eapply set_content_no_new.
  - apply no_new_files_refl.
Qed.

Lemma Flush_no_new d f b d' b' e :
  bufio.Flush d f b = (d', b', e) -> no_new_files d d'.
Proof.
  unfold bufio.Flush. destruct (bufio.err b); [intros; simplify_eq; apply no_new_files_refl |].
  destruct (bufio.Buffered b =? 0); [intros; simplify_eq; apply no_new_files_refl |].
  destruct (File_Write d f (bufio.pending b)) as [d1 [n werr]] eqn:E.
  apply File_Write_no_new in E. destruct werr; intros; by simplify_eq.
Qed.

Lemma store_Close_inv d s d' s' e :
  store.Close d s = (d', s', e) ->
  no_new_files d d' /\ store.Name s' = store.Name s /\
  (e = None -> closed (store.File s') = true).
Proof.
  unfold store.Close.
  destruct (bufio.Flush d (store.File s) (store.buf s)) as [[d1 b] ferr] eqn:E.
  apply Flush_no_new in E.
  destruct ferr; [intros; simplify_eq; done |].
  unfold File_Close. destruct (closed (store.File s)) eqn:Hc; intros; simplify_eq; done.
Qed.

Lemma index_Close_inv d i d' i' e :
  index.Close d i = (d', i', e) ->
  no_new_files d d' /\ index.Name i' = index.Name i /\
  (e = None -> closed (index.file i') = true).
Proof.
  unfold index.Close, index.mmap_Sync, File_Sync, File_Truncate, File_Close.
  destruct (file_content d (fname (index.file i))) as [c|] eqn:Hc.
  - destruct (closed (index.file i)) eqn:Hcl;
      [intros; simplify_eq; split; [by eapply set_content_no_new | done] |].
    destruct (i64 (index.size i) <? 0);
      [intros; simplify_eq; split; [by eapply set_content_no_new | done] |].
    destruct d as [m|]; [| done]. cbn [file_content set_content] in *.
    rewrite lookup_insert_eq. intros; simplify_eq. split; [| done].
    intros n Hn. cbn [file_content] in *.
    assert (fname (index.file i) <> n) by (intros ?; simplify_eq).
    by rewrite !lookup_insert_ne.
  - destruct (closed (index.file i)) eqn:Hcl;
      [intros; simplify_eq; split; [apply no_new_files_refl | done] |].
    destruct (i64 (index.size i) <? 0);
      [intros; simplify_eq; split; [apply no_new_files_refl | done] |].
    rewrite Hc. intros; simplify_eq. split; [apply no_new_files_refl | done].
Qed.

Lemma os_Remove_inv d name d' :
  os_Remove d name = (d', None) ->
  file_content d' name = None /\ no_new_files d d'.
Proof.
  unfold os_Remove. destruct d as [m|]; [| intros; simplify_eq].
  destruct (m !! name) eqn:E; intros; simplify_eq. split.
  - simpl. apply lookup_delete_eq.
  - intros n Hn. simpl in *.
    assert (name <> n) by (intros ?; simplify_eq).
    by rewrite lookup_delete_ne.
Qed.

Lemma segment_Close_inv d s d' s' e :
  segment.Close d s = (d', s', e) ->
  no_new_files d d' /\
  segment.nextOffset s' = segment.nextOffset s /\
  segment.baseOffset s' = segment.baseOffset s /\
  store.Name (segment.store s') = store.Name (segment.store s) /\
  index.Name (segment.index s') = index.Name (segment.index s) /\
  (e = None -> closed (store.File (segment.store s')) = true /\
               closed (index.file (segment.index s')) = true).
Proof.
  unfold segment.Close.
  destruct (store.Close d (segment.store s)) as [[d1 st] e1] eqn:E1.
  apply store_Close_inv in E1 as (Hn1 & Hname1 & Hcl1).
  destruct e1; [intros; simplify_eq; done |].
  destruct (index.Close d1 (segment.index (segment.with_store s st))) as [[d2 ix] e2] eqn:E2.
  apply index_Close_inv in E2 as (Hn2 & Hname2 & Hcl2).
  assert (no_new_files d d2) by by eapply no_new_files_trans.
  destruct e2; intros; simplify_eq; cbn; repeat split; auto; done.
Qed.

Lemma segment_Remove_inv d s d' s' :
  segment.Remove d s = (d', s', None) ->
  no_new_files d d' /\
  segment.nextOffset s' = segment.nextOffset s /\
  segment.baseOffset s' = segment.baseOffset s /\
  closed (store.File (segment.store s')) = true /\
  closed (index.file (segment.index s')) = true /\
  file_content d' (store.Name (segment.store s')) = None /\
  file_content d' (index.Name (segment.index s')) = None.
Proof.
  unfold segment.Remove.
  destruct (segment.Close d s) as [[d1 s1] e1] eqn:E1.
  apply segment_Close_inv in E1 as (Hn1 & Hnext & Hbase & Hs & Hi & Hcl).
  destruct e1; [intros; simplify_eq |].
  destruct (Hcl eq_refl) as [Hc1 Hc2].
  destruct (os_Remove d1 (index.Name (segment.index s1))) as [d2 e2] eqn:E2.
  destruct e2; [intros; simplify_eq |].
  apply os_Remove_inv in E2 as [Hgone2 Hn2].
  destruct (os_Remove d2 (store.Name (segment.store s1))) as [d3 e3] eqn:E3.
  destruct e3; [intros; simplify_eq |].
  apply os_Remove_inv in E3 as [Hgone3 Hn3].
  intros; simplify_eq. repeat split; auto.
  by eapply no_new_files_trans; [| eapply no_new_files_trans].
Qed.

(** * The loop of Truncate *)

Lemma segment_Remove_was_open d s d' s' :
  segment.Remove d s = (d', s', None) -> closed (store.File (segment.store s)) = false.
Proof.
  unfold segment.Remove, segment.Close, store.Close, File_Close.
  destruct (bufio.Flush _ _ _) as [[d1 b] [e|]]; [intros; simplify_eq |].
  destruct (closed (store.File (segment.store s))); [intros; simplify_eq | done].
Qed.

Lemma deref_Done l p s : Log.deref l p = Done s -> Log.mem l !! p = Some s.
Proof. unfold Log.deref. destruct (Log.mem l !! p); intros; by simplify_eq. Qed.

Lemma retained_ext l1 l2 lowest :
  (forall q, segment.nextOffset <$> (Log.mem l1 !! q)
             = segment.nextOffset <$> (Log.mem l2 !! q)) ->
  forall q, retained l1 lowest q = retained l2 lowest q.
Proof.
  intros H q. unfold retained. specialize (H q).
  destruct (Log.mem l1 !! q) as [s1|], (Log.mem l2 !! q) as [s2|];
    simpl in H; try done.
  injection H as H. by rewrite H.
Qed.

Lemma Truncate_loop_spec lowest ps : forall d l kept d' l' kept',
  Log.Truncate_loop d l lowest ps kept = Done (d', l', kept', None) ->
  kept' = kept ++ List.filter (retained l lowest) ps /\
  Log.segments l' = Log.segments l /\
  Log.activeSegment l' = Log.activeSegment l /\
  no_new_files d d' /\
  (forall q, segment.nextOffset <$> (Log.mem l' !! q)
             = segment.nextOffset <$> (Log.mem l !! q)) /\
  (forall q, retained l lowest q = true -> Log.mem l' !! q = Log.mem l !! q) /\
  (forall q, removed d l q -> removed d' l' q) /\
  (forall p, p ∈ ps -> retained l lowest p = false -> removed d' l' p).
Proof.
  induction ps as [|p ps IH]; intros d l kept d' l' kept' Hrun.
  - simpl in Hrun. simplify_eq. rewrite app_nil_r.
    split_and!; try done; [apply no_new_files_refl |].
    intros p Hp. by apply elem_of_nil in Hp.
  - cbn [Log.Truncate_loop] in Hrun.
    destruct (Log.deref l p) as [s|] eqn:Hd; [| done].
    apply deref_Done in Hd. cbn [mbind exec_bind] in Hrun.
    assert (Hret : retained l lowest p = (u64 (lowest + 1) <? segment.nextOffset s))
      by (unfold retained; by rewrite Hd).
    destruct (Z.leb_spec (segment.nextOffset s) (u64 (lowest + 1))) as [Hle|Hgt].
    + destruct (segment.Remove d s) as [[d1 s1] e1] eqn:Hrm.
      destruct e1 as [e|]; [simplify_eq |].
      pose proof (segment_Remove_was_open _ _ _ _ Hrm) as Hopen.
      apply segment_Remove_inv in Hrm as (Hnn & Hnext & Hbase & Hc1 & Hc2 & Hg1 & Hg2).
      set (l1 := Log.with_mem l (<[p:=s1]> (Log.mem l))) in *.
      assert (Hp1 : Log.mem l1 !! p = Some s1).
      { unfold l1. cbn. apply list_lookup_insert_eq. by eapply lookup_lt_Some. }
      assert (Hq1 : forall q, q <> p -> Log.mem l1 !! q = Log.mem l !! q).
      { intros q Hq. unfold l1. cbn. by apply list_lookup_insert_ne. }
      assert (Hno1 : forall q, segment.nextOffset <$> (Log.mem l1 !! q)
                               = segment.nextOffset <$> (Log.mem l !! q)).
      { intros q. destruct (decide (q = p)) as [->|Hq].
        - rewrite Hp1, Hd. simpl. by rewrite Hnext.
        - by rewrite Hq1. }
      assert (Hrem1 : removed d1 l1 p) by (exists s1; done).
      assert (Hfalse : retained l lowest p = false)
        by (rewrite Hret; apply Z.ltb_ge; lia).
      apply IH in Hrun as (Hk & Hsegs & Hact & Hnn' & Hno & Hkeep & Hpers & Hrmv).
      pose proof (retained_ext _ _ lowest Hno1) as Hext.
      split_and!.
      * rewrite Hk. f_equal. cbn [List.filter]. rewrite Hfalse.
        apply List.filter_ext. intros q. apply Hext.
      * done.
      * done.
      * by eapply no_new_files_trans.
      * intros q. by rewrite Hno, Hno1.
      * intros q Hq. rewrite Hkeep by (by rewrite Hext).
        apply Hq1. intros ->. congruence.
      * intros q (sq & Hsq & Hq1' & Hq2 & Hq3 & Hq4). apply Hpers.
        assert (q <> p) by (intros ->; congruence).
        exists sq. rewrite Hq1 by done. split_and!; auto.
      * intros q Hq Hqf. apply elem_of_cons in Hq as [->|Hq].
        -- by apply Hpers.
        -- apply Hrmv; [done |]. by rewrite Hext.
    + assert (Htrue : retained l lowest p = true)
        by (rewrite Hret; apply Z.ltb_lt; lia).
      apply IH in Hrun as (Hk & Hsegs & Hact & Hnn' & Hno & Hkeep & Hpers & Hrmv).
      split_and!; try done.
      * rewrite Hk, <- app_assoc. cbn [List.filter]. by rewrite Htrue.
      * intros q Hq Hqf. apply elem_of_cons in Hq as [->|Hq]; [congruence |].
        by apply Hrmv.
Qed.

(** * Truncate *)

Lemma u64_succ lowest : 0 <= lowest < 2 ^ 64 - 1 -> u64 (lowest + 1) = lowest + 1.
Proof. intros. apply u64_small. lia. Qed.

Lemma Truncate_spec d l lowest d' l' :
  Log.Truncate d l lowest = Done (d', l', None) ->
  Log.segments l' = List.filter (retained l lowest) (Log.segments l) /\
  (forall p, p ∈ Log.segments l -> retained l lowest p = false -> removed d' l' p) /\
  (forall p, retained l lowest p = true -> Log.mem l' !! p = Log.mem l !! p).
Proof.
  unfold Log.Truncate. intros Hrun.
  destruct (Log.Truncate_loop d l lowest (Log.segments l) []) as [[[[d1 l1] kept] e]|] eqn:E;
    [| done].
  cbn [mbind exec_bind] in Hrun. destruct e; simplify_eq.
  apply Truncate_loop_spec in E as (Hk & Hsegs & Hact & Hnn & Hno & Hkeep & Hpers & Hrmv).
  split_and!.
  - cbn. by rewrite Hk.
  - intros p Hp Hf. destruct (Hrmv p Hp Hf) as (s & ?). by exists s.
  - intros p Hp. cbn. by apply Hkeep.
Qed.

Lemma filter_all_true {A} (f : A -> bool) (l : list A) :
  (forall x, x ∈ l -> f x = true) -> List.filter f l = l.
Proof.
  induction l as [|x l IH]; intros Hall; [done |].
  cbn [List.filter]. rewrite Hall by apply list_elem_of_here.
  f_equal. apply IH. intros y Hy. apply Hall. by apply list_elem_of_further.
Qed.

Lemma filter_sublist {A} (f : A -> bool) (l : list A) : sublist (List.filter f l) l.
Proof.
  induction l as [|x l IH]; [constructor |].
  cbn [List.filter]. destruct (f x); by constructor.
Qed.

(** C6.  [Truncate] compares each next offset with [lowest+1] taken in
    [uint64].  At the watermark [2^64 - 1] that sum is 0: a [Truncate]
    that succeeds on a log whose segments all hold a record removes none
    of them.  The list and the segments are as they were, although every
    record lies below the watermark and no next offset is above
    [lowest + 1]. *)
Theorem C6_Truncate_at_the_highest_watermark (d : Disk) (l : Log.t)
    (d' : Disk) (l' : Log.t) :
  Log.Truncate d l (2 ^ 64 - 1) = Done (d', l', None) ->
  (forall p, p ∈ Log.segments l ->
     exists s, Log.mem l !! p = Some s /\ 0 < segment.nextOffset s <= 2 ^ 64 - 1) ->
  Log.segments l' = Log.segments l /\
  (forall p, p ∈ Log.segments l' ->
     exists s, Log.mem l' !! p = Some s /\ Log.mem l !! p = Some s /\
               segment.nextOffset s <= (2 ^ 64 - 1) + 1).
Proof.
  intros Hrun Hall. apply Truncate_spec in Hrun as (Hsegs & _ & Hkeep).
  assert (Hret : forall p, p ∈ Log.segments l -> retained l (2 ^ 64 - 1) p = true).
  { intros p Hp. destruct (Hall p Hp) as (s & Hs & Hn).
    unfold retained. rewrite Hs. change (u64 (2 ^ 64 - 1 + 1)) with 0.
    apply Z.ltb_lt. lia. }
  rewrite filter_all_true in Hsegs by done.
  split; [done |]. intros p Hp. rewrite Hsegs in Hp.
  destruct (Hall p Hp) as (s & Hs & Hn).
  exists s. split_and!; [| done | lia].
  rewrite Hkeep by (by apply Hret). done.
Qed.

(** * The segment list under the public operations *)

Lemma extends_refl l : extends l l.
Proof. exists []. by rewrite app_nil_r. Qed.

Lemma extends_trans l1 l2 l3 : extends l1 l2 -> extends l2 l3 -> extends l1 l3.
Proof. intros [e1 H1] [e2 H2]. exists (e1 ++ e2). by rewrite H2, H1, app_assoc. Qed.

Lemma extends_nonempty l l' : extends l l' -> Log.segments l <> [] -> Log.segments l' <> [].
Proof. intros [e ->] Hne Happ. by apply app_eq_nil in Happ as [? _]. Qed.

Lemma Log_newSegment_segments d l off d' l' e :
  Log.newSegment d l off = Done (d', l', e) ->
  extends l l' /\ (e = None -> Log.segments l' <> []).
Proof.
  unfold Log.newSegment.
  destruct (segment.newSegment d off (Log.Config l)) as [[d1 [s err]]|]; [| done].
  cbn [mbind exec_bind].
  destruct s as [s|], err as [e1|]; intros; simplify_eq;
    try (split; [apply extends_refl | done]).
  split.
  - by eexists.
  - intros _ Hnil. cbn in Hnil. by apply app_eq_nil in Hnil as [_ ?].
Qed.

Lemma setup_loop_segments bs : forall d l d' l' e,
  Log.setup_loop d l bs = Done (d', l', e) ->
  extends l l' /\ (e = None -> bs <> [] -> Log.segments l' <> []).
Proof.
  induction bs as [bs IH] using (induction_ltof1 _ (@length Z)).
  intros d l d' l' e. destruct bs as [|off rest]; cbn [Log.setup_loop].
  - intros; simplify_eq. split; [apply extends_refl | done].
  - destruct (Log.newSegment d l off) as [[[d1 l1] e1]|] eqn:E; [| done].
    cbn [mbind exec_bind].
    apply Log_newSegment_segments in E as [Hext Hne].
    destruct e1 as [e1|]; [intros; simplify_eq; done |].
    specialize (Hne eq_refl).
    destruct rest as [|x rest'].
    + intros; simplify_eq. done.
    + intros Hrun. apply IH in Hrun as [Hext2 _]; [| unfold ltof; simpl; lia].
      split; [by eapply extends_trans |].
      intros _ _. by eapply extends_nonempty.
Qed.

Lemma setup_segments d l d' l' e :
  Log.setup d l = Done (d', l', e) ->
  extends l l' /\ (e = None -> Log.segments l' <> []).
Proof.
  unfold Log.setup.
  destruct (ioutil_ReadDir d) as [files [e0|]];
    [intros; simplify_eq; split; [apply extends_refl | done] |].
  destruct (Log.parse_names files []) as [baseOffsets [e1|]];
    [intros; simplify_eq; split; [apply extends_refl | done] |].
  destruct (Log.setup_loop d l (sort_Slice baseOffsets)) as [[[d1 l1] e2]|] eqn:E; [| done].
  cbn [mbind exec_bind].
  apply setup_loop_segments in E as [Hext _].
  destruct e2 as [e2|]; [intros; simplify_eq; done |].
  destruct (Log.segments l1) as [|p ps] eqn:Hsegs.
  - destruct (Log.newSegment d1 l1 (InitialOffset (Segment (Log.Config l1))))
      as [[[d2 l2] e3]|] eqn:E3; [| done].
    cbn [mbind exec_bind].
    apply Log_newSegment_segments in E3 as [Hext3 Hne3].
    destruct e3; intros; simplify_eq; (split; [by eapply extends_trans | done]).
  - intros; simplify_eq. split; [done |]. intros _. by rewrite Hsegs.
Qed.

Section segment_lists.
Context `{Codec}.

Lemma Append_segments d l record d' l' record' res :
  Log.Append d l record = Done (d', l', record', res) -> extends l l'.
Proof.
  unfold Log.Append. destruct (Log.activeSegment l) as [p|]; [| done].
  destruct (Log.deref l p) as [s|]; [| done]. cbn [mbind exec_bind].
  destruct (segment.Append d s record) as [[[[d1 s1] r1] [off err]]|]; [| done].
  cbn [mbind exec_bind].
  destruct err; [intros; simplify_eq; exists []; cbn; by rewrite app_nil_r |].
  destruct (segment.IsMaxed s1);
    [| intros; simplify_eq; exists []; cbn; by rewrite app_nil_r].
  destruct (Log.newSegment _ _ _) as [[[d2 l2] e2]|] eqn:E; [| done].
  cbn [mbind exec_bind]. apply Log_newSegment_segments in E as [Hext _].
  intros; simplify_eq. done.
Qed.

Lemma Read_segments d l off d' l' res :
  Log.Read d l off = Done (d', l', res) -> Log.segments l' = Log.segments l.
Proof.
  unfold Log.Read. destruct (Log.find_segment _ _ _) as [[p|]|]; cbn [mbind exec_bind];
    [| intros; by simplify_eq | done].
  destruct (Log.deref l p) as [s|]; [| done]. cbn [mbind exec_bind].
  destruct (_ <=? _); [intros; by simplify_eq |].
  destruct (segment.Read d s off) as [[[d1 s1] r]|]; [| done].
  cbn [mbind exec_bind]. intros; by simplify_eq.
Qed.
End segment_lists.

Lemma Close_loop_segments ps : forall d l d' l' e,
  Log.Close_loop d l ps = Done (d', l', e) -> Log.segments l' = Log.segments l.
Proof.
  induction ps as [|p ps IH]; intros d l d' l' e; cbn [Log.Close_loop].
  - intros; by simplify_eq.
  - destruct (Log.deref l p) as [s|]; [| done]. cbn [mbind exec_bind].
    destruct (segment.Close d s) as [[d1 s1] [e1|]].
    + intros; by simplify_eq.
    + intros Hrun. by apply IH in Hrun.
Qed.

Lemma Remove_segments d l d' l' e :
  Log.Remove d l = Done (d', l', e) -> Log.segments l' = Log.segments l.
Proof.
  unfold Log.Remove, Log.Close.
  destruct (Log.Close_loop d l (Log.segments l)) as [[[d1 l1] e1]|] eqn:E; [| done].
  apply Close_loop_segments in E. cbn [mbind exec_bind].
  destruct e1; cbn [os_RemoveAll]; intros; by simplify_eq.
Qed.

Lemma Reset_segments d l d' l' e :
  Log.Reset d l = Done (d', l', e) -> extends l l'.
Proof.
  unfold Log.Reset.
  destruct (Log.Remove d l) as [[[d1 l1] e1]|] eqn:E; [| done].
  apply Remove_segments in E. cbn [mbind exec_bind].
  destruct e1.
  - intros; simplify_eq. exists []. by rewrite app_nil_r.
  - intros Hrun. apply setup_segments in Hrun as [[extra Hx] _].
    exists extra. by rewrite Hx, E.
Qed.

Lemma Truncate_loop_segments lowest ps : forall d l kept d' l' kept' e,
  Log.Truncate_loop d l lowest ps kept = Done (d', l', kept', e) ->
  Log.segments l' = Log.segments l.
Proof.
  induction ps as [|p ps IH]; intros d l kept d' l' kept' e; cbn [Log.Truncate_loop].
  - intros; by simplify_eq.
  - destruct (Log.deref l p) as [s|]; [| done]. cbn [mbind exec_bind].
    destruct (_ <=? _).
    + destruct (segment.Remove d s) as [[d1 s1] [e1|]].
      * intros; by simplify_eq.
      * intros Hrun. by apply IH in Hrun.
    + intros Hrun. by apply IH in Hrun.
Qed.

Lemma Truncate_failed_segments d l lowest d' l' e :
  Log.Truncate d l lowest = Done (d', l', Some e) -> Log.segments l' = Log.segments l.
Proof.
  unfold Log.Truncate.
  destruct (Log.Truncate_loop _ _ _ _ _) as [[[[d1 l1] kept] e1]|] eqn:E; [| done].
  apply Truncate_loop_segments in E. cbn [mbind exec_bind].
  destruct e1; intros; by simplify_eq.
Qed.

(** * At least one segment *)

(** C9 (amended).  A [setup] that returns no error leaves at least one
    segment in the log.  Every public operation keeps the segment list
    non-empty, [Truncate(lowest)] included as long as some segment passes
    its test [nextOffset > lowest+1]; a [Truncate] that succeeds when no
    segment passes the test leaves the list empty. *)
Theorem C9_at_least_one_segment `{Codec} :
  (forall d l d' l',
     Log.setup d l = Done (d', l', None) -> Log.segments l' <> []) /\
  (forall d l o d' l',
     run_op d l o = Done (d', l') ->
     Log.segments l <> [] ->
     (forall lowest, o = OpTruncate lowest ->
        exists p, p ∈ Log.segments l /\ retained l lowest p = true) ->
     Log.segments l' <> []) /\
  (forall d l lowest d' l',
     Log.Truncate d l lowest = Done (d', l', None) ->
     (forall p, p ∈ Log.segments l -> retained l lowest p = false) ->
     Log.segments l' = []).
Proof.
  split_and!.
  - intros d l d' l' Hrun. by apply setup_segments in Hrun as [_ Hne]; auto.
  - intros d l o d' l' Hrun Hne Htr. destruct o; cbn [run_op] in Hrun.
    + destruct (Log.Append d l record) as [[[[d1 l1] r1] res]|] eqn:E; [| done].
      cbn [mbind exec_bind] in Hrun. simplify_eq.
      apply Append_segments in E. by eapply extends_nonempty.
    + destruct (Log.Read d l off) as [[[d1 l1] res]|] eqn:E; [| done].
      cbn [mbind exec_bind] in Hrun. simplify_eq.
      apply Read_segments in E. by rewrite E.
    + destruct (Log.Close d l) as [[[d1 l1] res]|] eqn:E; [| done].
      cbn [mbind exec_bind] in Hrun. simplify_eq.
      apply Close_loop_segments in E. by rewrite E.
    + destruct (Log.Remove d l) as [[[d1 l1] res]|] eqn:E; [| done].
      cbn [mbind exec_bind] in Hrun. simplify_eq.
      apply Remove_segments in E. by rewrite E.
    + destruct (Log.Reset d l) as [[[d1 l1] res]|] eqn:E; [| done].
      cbn [mbind exec_bind] in Hrun. simplify_eq.
      apply Reset_segments in E. by eapply extends_nonempty.
    + destruct (Log.LowestOffset l); [| done].
      cbn [mbind exec_bind] in Hrun. by simplify_eq.
    + destruct (Log.HighestOffset l); [| done].
      cbn [mbind exec_bind] in Hrun. by simplify_eq.
    + destruct (Log.Truncate d l lowest) as [[[d1 l1] [e|]]|] eqn:E; [| | done];
        cbn [mbind exec_bind] in Hrun; simplify_eq.
      * apply Truncate_failed_segments in E. by rewrite E.
      * apply Truncate_spec in E as (Hsegs & _ & _).
        destruct (Htr lowest eq_refl) as (p & Hp & Hret).
        rewrite Hsegs. intros Hnil.
        assert (Hin : List.In p (List.filter (retained l lowest) (Log.segments l))).
        { apply List.filter_In. split; [by apply list_elem_of_In | done]. }
        rewrite Hnil in Hin. done.
    + destruct (Log.Reader l); [| done].
      cbn [mbind exec_bind] in Hrun. by simplify_eq.
  - intros d l lowest d' l' Hrun Hall.
    apply Truncate_spec in Hrun as (Hsegs & _ & _). rewrite Hsegs. clear Hsegs.
    induction (Log.segments l) as [|p ps IH]; [done |].
    cbn [List.filter]. rewrite Hall by apply list_elem_of_here.
    apply IH. intros q Hq. apply Hall. by apply list_elem_of_further.
Qed.

Lemma C9_counterexample :
  match fresh_log with
  | Done (d, l, None) =>
      Log.segments l = [0%nat] /\
      match Log.Truncate d l 0 with
      | Done (_, l', None) => Log.segments l' = []
      | _ => False
      end
  | _ => False
  end.
Proof. vm_compute. done. Qed.

Lemma C9_witness :
  exists d' l',
    Log.setup empty_dir
      {| Log.Dir := "log"; Log.Config := cfg1024; Log.mem := [];
         Log.activeSegment := None; Log.segments := [] |} = Done (d', l', None) /\
    Log.segments l' <> [].
Proof.
  destruct (Log.setup empty_dir
      {| Log.Dir := "log"; Log.Config := cfg1024; Log.mem := [];
         Log.activeSegment := None; Log.segments := [] |}) as [[[d' l'] [e|]]|] eqn:E.
  - exfalso. vm_compute in E. discriminate.
  - exists d', l'. split; [reflexivity |].
    exact (proj1 (C9_at_least_one_segment (H := header_codec)) _ _ _ _ E).
  - exfalso. vm_compute in E. discriminate.
Defined.

(** * Index writes, highest offset, reads of the log *)

Lemma byte_values_PutUint32 v :
  Z_of_byte <$> PutUint32 v
  = [v / 2 ^ 24 mod 256; v / 2 ^ 16 mod 256; v / 2 ^ 8 mod 256; v mod 256].
Proof.
  unfold PutUint32. cbn [be_bytes fmap list_fmap].
  rewrite !Z_of_byte_of_Z, !Z.shiftr_div_pow2 by lia.
  change (8 * Z.of_nat 3) with 24. change (8 * Z.of_nat 2) with 16.
  change (8 * Z.of_nat 1) with 8. change (8 * Z.of_nat 0) with 0.
  by rewrite Z.pow_0_r, Z.div_1_r.
Qed.

Lemma byte_values_PutUint64 v :
  Z_of_byte <$> PutUint64 v
  = [v / 2 ^ 56 mod 256; v / 2 ^ 48 mod 256; v / 2 ^ 40 mod 256; v / 2 ^ 32 mod 256;
     v / 2 ^ 24 mod 256; v / 2 ^ 16 mod 256; v / 2 ^ 8 mod 256; v mod 256].
Proof.
  unfold PutUint64. cbn [be_bytes fmap list_fmap].
  rewrite !Z_of_byte_of_Z, !Z.shiftr_div_pow2 by lia.
  change (8 * Z.of_nat 7) with 56. change (8 * Z.of_nat 6) with 48.
  change (8 * Z.of_nat 5) with 40. change (8 * Z.of_nat 4) with 32.
  change (8 * Z.of_nat 3) with 24. change (8 * Z.of_nat 2) with 16.
  change (8 * Z.of_nat 1) with 8. change (8 * Z.of_nat 0) with 0.
  by rewrite Z.pow_0_r, Z.div_1_r.
Qed.

(** C5.  On an index whose mapping is live and whose [size + 12] does not
    wrap around in [uint64] (the size of a reachable index is a file size
    plus entries written inside the mapped region), [Write] fails exactly
    when the mapped region is shorter than [size + 12]; a failed [Write]
    returns [io.EOF] and leaves the index as it was; a successful one
    puts [off] in the four bytes at [size, size+4) and [pos] in the eight
    bytes at [size+4, size+12), most significant byte first, keeps every
    other byte and the length of the region, and adds 12 to [size]. *)
Theorem C5_index_Write (d : Disk) (i : index.t) (off pos : Z) :
  index_live d i ->
  0 <= index.size i < 2 ^ 64 - 12 ->
  ((exists i' e, index.Write i off pos = Done (i', Some e))
   <-> len (index.mmap i) < index.size i + 12) /\
  (forall i' e, index.Write i off pos = Done (i', Some e) -> i' = i /\ e = EOF) /\
  (index.size i + 12 <= len (index.mmap i) ->
   exists i',
     index.Write i off pos = Done (i', None) /\
     index.size i' = index.size i + 12 /\
     index.file i' = index.file i /\
     len (index.mmap i') = len (index.mmap i) /\
     Z_of_byte <$> slice (index.mmap i') (index.size i) (index.size i + 4)
       = [off / 2 ^ 24 mod 256; off / 2 ^ 16 mod 256; off / 2 ^ 8 mod 256; off mod 256] /\
     Z_of_byte <$> slice (index.mmap i') (index.size i + 4) (index.size i + 12)
       = [pos / 2 ^ 56 mod 256; pos / 2 ^ 48 mod 256; pos / 2 ^ 40 mod 256;
          pos / 2 ^ 32 mod 256; pos / 2 ^ 24 mod 256; pos / 2 ^ 16 mod 256;
          pos / 2 ^ 8 mod 256; pos mod 256] /\
     take (Z.to_nat (index.size i)) (index.mmap i')
       = take (Z.to_nat (index.size i)) (index.mmap i) /\
     drop (Z.to_nat (index.size i + 12)) (index.mmap i')
       = drop (Z.to_nat (index.size i + 12)) (index.mmap i)).
Proof.
  intros _ Hs.
  destruct (Z.lt_ge_cases (len (index.mmap i)) (index.size i + 12)) as [Hfull|Hroom].
  - rewrite Write_full by done. split_and!.
    + split; [done |]. intros _. by exists i, EOF.
    + intros i' e Heq. by simplify_eq.
    + lia.
  - rewrite Write_room by done. split_and!.
    + split; [| lia]. intros (i' & e & Heq). simplify_eq.
    + intros i' e Heq. simplify_eq.
    + intros _. eexists. split; [reflexivity |]. cbn [index.size index.file index.mmap].
      set (s := index.size i) in *. set (m := index.mmap i) in *.
      assert (HT : length (take (Z.to_nat s) m) = Z.to_nat s)
        by (rewrite length_take; unfold len in *; lia).
      assert (H4 : length (PutUint32 off) = 4%nat) by apply length_be_bytes.
      assert (H8 : length (PutUint64 pos) = 8%nat) by apply length_be_bytes.
      unfold entry_bytes. split_and!; try done.
      * rewrite !len_app. unfold len in *.
        rewrite HT, H4, H8, length_drop. lia.
      * rewrite <- byte_values_PutUint32. f_equal.
        rewrite <- !app_assoc.
        replace (s + 4) with (s + len (PutUint32 off)) by (unfold len; lia).
        apply slice_app_mid. unfold len. lia.
      * rewrite <- byte_values_PutUint64. f_equal.
        rewrite <- !app_assoc, (app_assoc (take _ _)).
        replace (s + 12) with (s + 4 + len (PutUint64 pos)) by (unfold len; lia).
        apply slice_app_mid. rewrite len_app. unfold len. lia.
      * by rewrite take_app_length'.
      * rewrite app_assoc.
        rewrite drop_app_length'; [done |].
        rewrite length_app, HT, length_app, H4, H8. lia.
Qed.

Lemma two_entries_live : index_live test_disk_mapped two_entries.
Proof.
  split; [reflexivity |]. eexists. split; [reflexivity |]. by vm_compute.
Qed.

Lemma C5_index_Write_witness :
  index_live test_disk_mapped two_entries /\
  exists i',
    index.Write two_entries 16909060 72623859790382856 = Done (i', None) /\
    index.size i' = 36 /\
    slice (index.mmap i') 24 28 = [x01; x02; x03; x04] /\
    slice (index.mmap i') 28 36 = [x01; x02; x03; x04; x05; x06; x07; x08].
Proof.
  split; [exact two_entries_live |].
  assert (Hs : 0 <= index.size two_entries < 2 ^ 64 - 12)
    by (vm_compute; split; [discriminate | reflexivity]).
  destruct (C5_index_Write test_disk_mapped two_entries 16909060 72623859790382856
              two_entries_live Hs) as (_ & _ & Hok).
  destruct Hok as (i' & Hw & Hsz & _ & _ & _).
  { vm_compute. discriminate. }
  exists i'. split_and!; [exact Hw | exact Hsz | |].
  - vm_compute in Hw. injection Hw as <-. reflexivity.
  - vm_compute in Hw. injection Hw as <-. reflexivity.
Defined.

Lemma HighestOffset_spec l p s :
  last (Log.segments l) = Some p -> Log.mem l !! p = Some s ->
  0 <= segment.nextOffset s < 2 ^ 64 ->
  Log.HighestOffset l
  = Done (if segment.nextOffset s =? 0 then 0 else segment.nextOffset s - 1, None).
Proof.
  intros Hlast Hp Hr. unfold Log.HighestOffset, Log.deref. rewrite Hlast, Hp.
  cbn [mbind exec_bind].
  destruct (Z.eqb_spec (segment.nextOffset s) 0); [done |].
  by rewrite u64_small by lia.
Qed.

Section log_reads.
Context `{Codec}.

Lemma find_segment_Some l ps off p :
  Log.find_segment l ps off = Done (Some p) ->
  exists s, Log.mem l !! p = Some s /\
            segment.baseOffset s <= off < segment.nextOffset s.
Proof.
  induction ps as [|q ps IH]; cbn [Log.find_segment]; [done |].
  destruct (Log.deref l q) as [s|] eqn:Hd; [| done]. cbn [mbind exec_bind].
  apply deref_Done in Hd.
  destruct (Z.leb_spec (segment.baseOffset s) off);
    destruct (Z.ltb_spec off (segment.nextOffset s)); cbn [andb]; try done.
  intros; simplify_eq. exists s. split; [done | lia].
Qed.

Lemma segment_Read_EOF d s off :
  0 <= index.size (segment.index s) < 2 ^ 32 ->
  0 <= segment.baseOffset s <= off -> off < segment.nextOffset s ->
  segment.nextOffset s < 2 ^ 64 ->
  segment.Read d s off = Done (d, s, (None, Some EOF)).
Proof.
  intros Hs Hb Hn Hmax. unfold segment.Read.
  rewrite Read_not_last; [done | | done].
  rewrite u64_small by lia. unfold i64.
  rewrite Z.mod_small by lia.
  destruct (Z.ltb_spec (off - segment.baseOffset s) (2 ^ 63)); lia.
Qed.

(** No [Read] of the log returns a record, whatever has been appended:
    the index looks up the entry numbered by its own size. *)
Lemma Log_Read_never_succeeds d l off :
  (forall p s, p ∈ Log.segments l -> Log.mem l !! p = Some s ->
     0 <= segment.baseOffset s /\ segment.nextOffset s < 2 ^ 64 /\
     0 <= index.size (segment.index s) < 2 ^ 32) ->
  forall d' l' r, Log.Read d l off <> Done (d', l', (Some r, None)).
Proof.
  intros Hwf d' l' r. unfold Log.Read.
  destruct (Log.find_segment l (Log.segments l) off) as [[p|]|] eqn:Hf;
    cbn [mbind exec_bind]; [| done | done].
  assert (Hin : p ∈ Log.segments l).
  { clear -Hf. induction (Log.segments l) as [|q ps IH]; cbn [Log.find_segment] in Hf;
      [done |].
    destruct (Log.deref l q); [| done]. cbn [mbind exec_bind] in Hf.
    destruct (_ && _); [simplify_eq; apply list_elem_of_here |].
    apply list_elem_of_further. by apply IH. }
  apply find_segment_Some in Hf as (s & Hs & Hb & Hn).
  unfold Log.deref. rewrite Hs. cbn [mbind exec_bind].
  destruct (Hwf p s Hin Hs) as (Hb0 & Hmax & Hsz).
  destruct (Z.leb_spec (segment.nextOffset s) off); [done |].
  rewrite segment_Read_EOF by (try done; lia). cbn [mbind exec_bind]. done.
Qed.
End log_reads.

(** * The buffered writer and the store *)

Lemma File_Write_ok d f p c :
  closed f = false -> file_content d (fname f) = Some c ->
  File_Write d f p = (set_content d (fname f) (c ++ p), (len p, None)) /\
  file_content (set_content d (fname f) (c ++ p)) (fname f) = Some (c ++ p).
Proof.
  intros Hcl Hc. unfold File_Write. rewrite Hcl, Hc. split; [done |].
  destruct d as [m|]; [| done]. simpl. apply lookup_insert_eq.
Qed.

Lemma len_take_le {A} (l : list A) n : 0 <= n <= len l -> len (take (Z.to_nat n) l) = n.
Proof. intros. unfold len in *. rewrite length_take. lia. Qed.

Lemma len_drop_le {A} (l : list A) n : 0 <= n <= len l -> len (drop (Z.to_nat n) l) = len l - n.
Proof. intros. unfold len in *. rewrite length_drop. lia. Qed.

Lemma bufio_Write_ok d f b p c :
  closed f = false -> file_content d (fname f) = Some c ->
  bufio.err b = None -> bufio.Buffered b <= bufio.defaultBufSize ->
  exists d' b' c',
    bufio.Write d f b p = (d', b', (len p, None)) /\
    file_content d' (fname f) = Some c' /\
    c' ++ bufio.pending b' = c ++ bufio.pending b ++ p /\
    bufio.err b' = None /\ bufio.Buffered b' <= bufio.defaultBufSize.
Proof.
  intros Hcl Hc Herr Hbuf.
  unfold bufio.Write, bufio.Available, bufio.Buffered, bufio.defaultBufSize in *.
  rewrite Herr. pose proof (len_nonneg p) as Hp. pose proof (len_nonneg (bufio.pending b)) as Hb.
  destruct (Z.leb_spec (len p) (4096 - len (bufio.pending b))) as [Hfit|Hbig].
  { exists d, {| bufio.pending := bufio.pending b ++ p; bufio.err := None |}, c.
    split_and!; try done. cbn. rewrite len_app. lia. }
  destruct (Z.eqb_spec (len (bufio.pending b)) 0) as [Hempty|Hnonempty].
  { unfold bufio.Write_empty, bufio.defaultBufSize.
    destruct (Z.ltb_spec 4096 (len p)); [| lia].
    destruct (File_Write_ok d f p c Hcl Hc) as [-> Hc'].
    eexists _, _, _. split_and!; [reflexivity | exact Hc' | | done | done].
    cbn. assert (bufio.pending b = []) as ->
      by (destruct (bufio.pending b); [done | unfold len in *; simpl in *; lia]).
    by rewrite app_nil_r. }
  set (n := 4096 - len (bufio.pending b)) in *.
  set (full := bufio.pending b ++ take (Z.to_nat n) p).
  assert (Hfull : len full = 4096).
  { unfold full. rewrite len_app, len_take_le by lia. lia. }
  unfold bufio.Flush, bufio.Buffered. cbn [bufio.err bufio.pending]. fold full.
  destruct (Z.eqb_spec (len full) 0); [lia |].
  destruct (File_Write_ok d f full c Hcl Hc) as [-> Hc1].
  unfold bufio.Write_empty, bufio.defaultBufSize.
  assert (Hsplit : c ++ bufio.pending b ++ p = (c ++ full) ++ drop (Z.to_nat n) p).
  { unfold full. rewrite <- !app_assoc. by rewrite take_drop. }
  assert (Hlen : n + len (drop (Z.to_nat n) p) = len p) by (rewrite len_drop_le; lia).
  destruct (Z.ltb_spec 4096 (len (drop (Z.to_nat n) p))).
  - destruct (File_Write_ok (set_content d (fname f) (c ++ full)) f
                (drop (Z.to_nat n) p) (c ++ full) Hcl Hc1) as [-> Hc2].
    rewrite Hlen.
    eexists _, _, _. split_and!; [reflexivity | exact Hc2 | | done | done].
    cbn. by rewrite app_nil_r.
  - rewrite Hlen.
    eexists _, _, _. split_and!; [reflexivity | exact Hc1 | | done |].
    + cbn. by rewrite Hsplit.
    + cbn. lia.
Qed.

Lemma store_Append_ok d s p :
  store_ready d s ->
  exists d' s',
    store.Append d s p = (d', s', (u64 (len p + 8), store.size s, None)) /\
    store_ready d' s' /\
    store_content d' s' = store_content d s ++ PutUint64 (u64 (len p)) ++ p /\
    store.size s' = u64 (store.size s + u64 (len p + 8)) /\
    store.File s' = store.File s.
Proof.
  intros (Hcl & [c Hc] & Herr & Hbuf).
  unfold store.Append, binary_Write, store.Name in *.
  destruct (bufio_Write_ok d (store.File s) (store.buf s)
              (PutUint64 (u64 (len p))) c Hcl Hc Herr Hbuf)
    as (d1 & b1 & c1 & -> & Hc1 & Hcont1 & Herr1 & Hbuf1).
  destruct (bufio_Write_ok d1 (store.File s) b1 p c1 Hcl Hc1 Herr1 Hbuf1)
    as (d2 & b2 & c2 & -> & Hc2 & Hcont2 & Herr2 & Hbuf2).
  change lenWidth with 8.
  do 2 eexists. split_and!; [reflexivity | | | done | done].
  - unfold store_ready, store.Name. cbn. split_and!; done.
  - unfold store_content, store.Name. cbn. rewrite Hc, Hc2, Hcont2.
    rewrite app_assoc, Hcont1. by rewrite <- !app_assoc.
Qed.

(** * Appending to a segment *)

Lemma index_Write_Done i off pos :
  0 <= index.size i < 2 ^ 64 - 12 ->
  exists i' e, index.Write i off pos = Done (i', e).
Proof.
  intros Hs.
  destruct (Z.lt_ge_cases (len (index.mmap i)) (index.size i + 12)).
  - rewrite Write_full by done. by eexists _, _.
  - rewrite Write_room by done. by eexists _, _.
Qed.

(** C10.  [segment.Append] on a segment whose index mapping is live
    always leaves the caller's record with its [Offset] set to the
    segment's next offset, whatever it held, also when the append fails.
    If marshalling that record fails nothing else has changed; if it
    yields the bytes [r] and the store accepts writes, the store
    afterwards holds what it held before, then the 8-byte length of [r],
    then [r]: the marshalled record with the assigned offset. *)
Theorem C10_segment_Append_stamps_record `{Codec}
    (d : Disk) (s : segment.t) (record : api_Record) :
  index_live d (segment.index s) ->
  0 <= index.size (segment.index s) < 2 ^ 64 - 12 ->
  exists d' s' res,
    segment.Append d s record
      = Done (d', s', {| Value := Value record; Offset := segment.nextOffset s |}, res) /\
    (forall r e,
       Marshal {| Value := Value record; Offset := segment.nextOffset s |} = (r, Some e) ->
       d' = d /\ s' = s /\ res = (0, Some e)) /\
    (forall r,
       Marshal {| Value := Value record; Offset := segment.nextOffset s |} = (r, None) ->
       store_ready d (segment.store s) ->
       store_content d' (segment.store s')
       = store_content d (segment.store s) ++ PutUint64 (u64 (len r)) ++ r).
Proof.
  intros _ Hs. unfold segment.Append.
  change (set_Offset record (segment.nextOffset s))
    with {| Value := Value record; Offset := segment.nextOffset s |}.
  destruct (Marshal {| Value := Value record; Offset := segment.nextOffset s |})
    as [r [e|]] eqn:Hm.
  { do 3 eexists. split_and!; [reflexivity | |]; intros; by simplify_eq. }
  destruct (store.Append d (segment.store s) r) as [[d1 st] [[n pos] err]] eqn:Hst.
  destruct err as [e|].
  { do 3 eexists. split_and!; [reflexivity | intros; simplify_eq |].
    intros r' Hr' Hready. exfalso.
    destruct (store_Append_ok d (segment.store s) r Hready) as (? & ? & Heq & _).
    rewrite Heq in Hst. simplify_eq. }
  destruct (index_Write_Done (segment.index (segment.with_store s st))
              (u32 (u64 (segment.nextOffset (segment.with_store s st)
                         - segment.baseOffset (segment.with_store s st)))) pos Hs)
    as (ix & e & Hw).
  rewrite Hw. cbn [mbind exec_bind].
  assert (Hcontent : forall r', (r, @None error) = (r', None) ->
            store_ready d (segment.store s) ->
            store_content d1 st
            = store_content d (segment.store s) ++ PutUint64 (u64 (len r')) ++ r').
  { intros r' Hr' Hready. simplify_eq.
    destruct (store_Append_ok d (segment.store s) r' Hready) as (d2 & s2 & Heq & _ & Hc & _).
    rewrite Heq in Hst. by simplify_eq. }
  destruct e as [e|]; do 3 eexists;
    (split_and!; [reflexivity | intros; simplify_eq | exact Hcontent]).
Qed.

(** * Errors that do not reach the caller *)

Section swallowed_errors.
Context `{Codec}.

(** With the index full, the record is written to the store and the
    failure of the index is answered with [(0, nil)]; the next offset
    stays where it was. *)
Lemma segment_Append_index_full d s record r :
  Marshal (set_Offset record (segment.nextOffset s)) = (r, None) ->
  store_ready d (segment.store s) ->
  0 <= index.size (segment.index s) < 2 ^ 64 - 12 ->
  len (index.mmap (segment.index s)) < index.size (segment.index s) + 12 ->
  exists d' s',
    segment.Append d s record
      = Done (d', s', set_Offset record (segment.nextOffset s), (0, None)) /\
    segment.nextOffset s' = segment.nextOffset s /\
    segment.index s' = segment.index s /\
    store_content d' (segment.store s')
      = store_content d (segment.store s) ++ PutUint64 (u64 (len r)) ++ r.
Proof.
  intros Hm Hready Hs Hfull. unfold segment.Append. rewrite Hm.
  destruct (store_Append_ok d (segment.store s) r Hready)
    as (d1 & st & -> & _ & Hc & _).
  cbn [segment.with_store segment.index segment.nextOffset segment.baseOffset].
  rewrite Write_full by done. cbn [mbind exec_bind].
  do 2 eexists. split_and!; [reflexivity | done | | exact Hc].
  by destruct s.
Qed.

(** With room in the index, the append returns the next offset and
    advances it by one. *)
Lemma segment_Append_ok d s record r :
  Marshal (set_Offset record (segment.nextOffset s)) = (r, None) ->
  store_ready d (segment.store s) ->
  0 <= index.size (segment.index s) < 2 ^ 64 - 12 ->
  index.size (segment.index s) + 12 <= len (index.mmap (segment.index s)) ->
  exists d' s',
    segment.Append d s record
      = Done (d', s', set_Offset record (segment.nextOffset s),
              (segment.nextOffset s, None)) /\
    segment.nextOffset s' = u64 (segment.nextOffset s + 1) /\
    segment.baseOffset s' = segment.baseOffset s /\
    index.size (segment.index s') = index.size (segment.index s) + 12.
Proof.
  intros Hm Hready Hs Hroom. unfold segment.Append. rewrite Hm.
  destruct (store_Append_ok d (segment.store s) r Hready)
    as (d1 & st & -> & _ & Hc & _).
  cbn [segment.with_store segment.index segment.nextOffset segment.baseOffset].
  rewrite Write_room by done. cbn [mbind exec_bind].
  do 2 eexists. split_and!; [reflexivity | done | done | done].
Qed.

(** Whatever error the active segment reports, [Log.Append] answers
    [(0, nil)]. *)
Lemma Log_Append_hides_segment_errors d l p s record d1 s1 r1 off e :
  Log.activeSegment l = Some p -> Log.mem l !! p = Some s ->
  segment.Append d s record = Done (d1, s1, r1, (off, Some e)) ->
  Log.Append d l record
    = Done (d1, Log.with_mem l (<[p:=s1]> (Log.mem l)), r1, (0, None)).
Proof.
  intros Hact Hp Happ. unfold Log.Append, Log.deref. rewrite Hact, Hp.
  cbn [mbind exec_bind]. rewrite Happ. done.
Qed.

(** An error returned by [Log.Append] can only be that of opening the
    next segment. *)
Lemma Log_Append_error_origin d l record d' l' r off e :
  Log.Append d l record = Done (d', l', r, (off, Some e)) ->
  exists d1 l1, Log.newSegment d1 l1 (u64 (off + 1)) = Done (d', l', Some e).
Proof.
  unfold Log.Append. destruct (Log.activeSegment l) as [p|]; [| done].
  destruct (Log.deref l p) as [s|]; [| done]. cbn [mbind exec_bind].
  destruct (segment.Append d s record) as [[[[d1 s1] r1] [off1 err]]|]; [| done].
  cbn [mbind exec_bind].
  destruct err; [intros; simplify_eq |].
  destruct (segment.IsMaxed s1); [| intros; simplify_eq].
  destruct (Log.newSegment _ _ _) as [[[d2 l2] e2]|] eqn:E; [| done].
  cbn [mbind exec_bind]. intros; simplify_eq. by do 2 eexists.
Qed.

End swallowed_errors.

(** * Appends on the good path *)

Lemma append_inj_l (s a b : string) : (s +:+ a = s +:+ b)%string -> a = b.
Proof. induction s as [|c s IH]; simpl; [done |]. intros Heq. injection Heq as Heq. auto. Qed.

Lemma store_name_ne_index_name base :
  file_name base ".store" <> file_name base ".index".
Proof. unfold file_name. intros Heq. apply append_inj_l in Heq. discriminate. Qed.

(** A segment created over two files that do not exist yet is empty and
    starts at its base offset. *)
Lemma newSegment_fresh m base c :
  m !! file_name base ".store" = None ->
  m !! file_name base ".index" = None ->
  0 < i64 (MaxIndexBytes (Segment c)) ->
  exists d' s,
    segment.newSegment (Some m) base c = Done (d', (Some s, None)) /\
    segment.baseOffset s = base /\ segment.nextOffset s = base /\
    index.size (segment.index s) = 0 /\
    len (index.mmap (segment.index s)) = i64 (MaxIndexBytes (Segment c)) /\
    store.size (segment.store s) = 0 /\
    segment.config s = c /\
    store_ready d' (segment.store s).
Proof.
  intros Hst Hix HM. pose proof (store_name_ne_index_name base) as Hne.
  unfold segment.newSegment, os_OpenFile. rewrite Hst.
  unfold store.newStore, os_Stat. cbn [file_content fname].
  rewrite lookup_insert_eq. change (u64 (len [])) with 0.
  rewrite lookup_insert_ne, Hix by done.
  erewrite newIndex_ok;
    [| cbn [fname]; apply lookup_insert_eq | done | done].
  cbn [fname]. change (u64 (len [])) with 0.
  cbn [index.Read index.size mbind exec_bind]. change (0 =? 0) with true. cbv iota.
  cbn [mbind exec_bind].
  do 2 eexists. split_and!; try reflexivity.
  - cbn. by rewrite len_resize by lia.
  - unfold store_ready, store.Name. cbn. split_and!; try done.
    rewrite lookup_insert_ne by done. rewrite lookup_insert_ne by done.
    rewrite lookup_insert_eq. by eexists.
Qed.

Lemma bufio_Write_no_new d f b p d' b' r :
  bufio.Write d f b p = (d', b', r) -> no_new_files d d'.
Proof.
  assert (Hempty : forall d f p nn d' b' r,
            bufio.Write_empty d f p nn = (d', b', r) -> no_new_files d d').
  { intros d0 f0 p0 nn d0' b0' r0. unfold bufio.Write_empty.
    destruct (_ <? _).
    - destruct (File_Write d0 f0 p0) as [d1 [n werr]] eqn:E.
      apply File_Write_no_new in E. intros; by simplify_eq.
    - intros; simplify_eq. apply no_new_files_refl. }
  unfold bufio.Write.
  destruct (bufio.err b); [intros; simplify_eq; apply no_new_files_refl |].
  destruct (_ <=? _); [intros; simplify_eq; apply no_new_files_refl |].
  destruct (_ =? _); [apply Hempty |].
  destruct (bufio.Flush _ _ _) as [[d1 b1] ferr] eqn:E.
  apply Flush_no_new in E.
  destruct ferr; [intros; by simplify_eq |].
  intros Hw. apply Hempty in Hw. by eapply no_new_files_trans.
Qed.

Lemma store_Append_no_new d s p d' s' r :
  store.Append d s p = (d', s', r) -> no_new_files d d'.
Proof.
  unfold store.Append, binary_Write.
  destruct (bufio.Write d _ _ _) as [[d1 b1] [n1 e1]] eqn:E1.
  apply bufio_Write_no_new in E1.
  destruct e1; [intros; by simplify_eq |].
  destruct (bufio.Write d1 _ _ _) as [[d2 b2] [n2 e2]] eqn:E2.
  apply bufio_Write_no_new in E2.
  destruct e2; intros; simplify_eq; by eapply no_new_files_trans.
Qed.

Section good_path.
Context `{Codec}.

(** An append that finds the store writable and room in the index returns
    the active segment's next offset; afterwards the active segment (the
    same one, or a new one over files that did not exist, after a
    rollover) has the following offset as its next offset. *)
Lemma Log_Append_next d l p s record r :
  Log.activeSegment l = Some p -> Log.mem l !! p = Some s ->
  Marshal (set_Offset record (segment.nextOffset s)) = (r, None) ->
  store_ready d (segment.store s) ->
  0 <= index.size (segment.index s) < 2 ^ 64 - 12 ->
  index.size (segment.index s) + 12 <= len (index.mmap (segment.index s)) ->
  0 < i64 (MaxIndexBytes (Segment (Log.Config l))) ->
  file_content d (file_name (u64 (segment.nextOffset s + 1)) ".store") = None ->
  file_content d (file_name (u64 (segment.nextOffset s + 1)) ".index") = None ->
  exists d' l' p' s',
    Log.Append d l record
      = Done (d', l', set_Offset record (segment.nextOffset s),
              (segment.nextOffset s, None)) /\
    Log.activeSegment l' = Some p' /\ Log.mem l' !! p' = Some s' /\
    segment.nextOffset s' = u64 (segment.nextOffset s + 1) /\
    (Log.segments l' = Log.segments l \/ Log.segments l' = Log.segments l ++ [p']).
Proof.
  intros Hact Hp Hm Hready Hs Hroom HM Hst Hix.
  unfold Log.Append, Log.deref. rewrite Hact, Hp. cbn [mbind exec_bind].
  assert (Hnn : exists d1 s1,
            segment.Append d s record
              = Done (d1, s1, set_Offset record (segment.nextOffset s),
                      (segment.nextOffset s, None)) /\
            segment.nextOffset s1 = u64 (segment.nextOffset s + 1) /\
            no_new_files d d1 /\ is_Some (file_content d1 (store.Name (segment.store s)))).
  { destruct (segment_Append_ok d s record r Hm Hready Hs Hroom)
      as (d1 & s1 & Happ & Hnext & _ & _).
    exists d1, s1. split_and!; try done.
    - revert Happ. unfold segment.Append. rewrite Hm.
      destruct (store.Append d (segment.store s) r) as [[d2 st] [[n pos] err]] eqn:E.
      apply store_Append_no_new in E.
      destruct err; [intros; simplify_eq |].
      destruct (index.Write _ _ _) as [[ix [e|]]|]; cbn [mbind exec_bind];
        intros; by simplify_eq.
    - revert Happ. unfold segment.Append. rewrite Hm.
      destruct (store_Append_ok d (segment.store s) r Hready)
        as (d2 & st & -> & (_ & Hex & _) & _ & _ & Hf).
      destruct (index.Write _ _ _) as [[ix [e|]]|]; cbn [mbind exec_bind];
        intros; simplify_eq; unfold store.Name in *; by rewrite <- Hf. }
  destruct Hnn as (d1 & s1 & -> & Hnext & Hnew & Hex). cbn [mbind exec_bind].
  assert (Hlt : (p < length (Log.mem l))%nat) by by eapply lookup_lt_Some.
  destruct (segment.IsMaxed s1).
  - destruct d1 as [m1|]; [| by destruct Hex].
    destruct (newSegment_fresh m1 (u64 (segment.nextOffset s + 1)) (Log.Config l))
      as (d2 & s2 & Hnewseg & _ & Hnext2 & _); [by apply Hnew | by apply Hnew | done |].
    unfold Log.newSegment. cbn [Log.with_mem Log.Config].
    rewrite Hnewseg. cbn [mbind exec_bind].
    do 4 eexists. split_and!; [reflexivity | reflexivity | | exact Hnext2 | by right].
    cbn [Log.mem]. apply list_lookup_middle. done.
  - do 4 eexists. split_and!; [reflexivity | exact Hact | | exact Hnext | by left].
    cbn [Log.with_mem Log.mem]. by apply list_lookup_insert_eq.
Qed.

End good_path.

(** * Runs on concrete inputs *)

Example NewLog_empty_dir : fresh_log = Done (disk0, log0, None).
Proof. vm_compute. reflexivity. Qed.

Example index_test_writes :
  match index.newIndex test_disk test_file cfg1024 with
  | (_, (Some i, None)) => Write_all i [(0, 0); (1, 10)] = Done (two_entries, None)
  | _ => False
  end.
Proof. vm_compute. reflexivity. Qed.

(** C2 (the code departs from the claim).  On the index of the test,
    holding the entries (0, 0) and (1, 10), [Read(0)] and [Read(1)] both
    fail with [io.EOF] instead of returning the entries; only the sentinel
    -1 and the read past the end behave as the claim says. *)
Theorem C2_index_Read_ignores_entry_number :
  index.Read two_entries 0 = Done (0, 0, Some EOF) /\
  index.Read two_entries 1 = Done (0, 0, Some EOF) /\
  index.Read two_entries 2 = Done (0, 0, Some EOF) /\
  index.Read two_entries (-1) = Done (1, 10, None).
Proof. vm_compute. done. Qed.

(** C1 (the code departs from the claim).  In a fresh log, [Append]
    returns offset 0 without error, and the [Read(0)] that follows fails
    with [io.EOF]. *)
Theorem C1_read_after_append_fails :
  match Log.Append disk0 log0 hello with
  | Done (d, l, _, res) =>
      res = (0, None) /\
      match Log.Read d l 0 with
      | Done (_, _, r) => r = (None, Some EOF)
      | Panic => False
      end
  | Panic => False
  end.
Proof. vm_compute. done. Qed.

(** C3 (the code departs from the claim).  After 85 appends the index of
    the active segment is full short of one entry: the next [index.Write]
    fails with [io.EOF], [segment.Append] turns that into [(0, nil)], and
    [Log.Append] returns [(0, nil)] to the caller. *)
Theorem C3_index_error_is_swallowed :
  match after_85_appends with
  | Done (d, l, _) =>
      match Log.mem l !! 0%nat with
      | Some s =>
          Log.activeSegment l = Some 0%nat /\
          index.size (segment.index s) = 1020 /\
          len (index.mmap (segment.index s)) = 1024 /\
          segment.IsMaxed s = false /\
          (exists i, index.Write (segment.index s) 85 (store.size (segment.store s))
                     = Done (i, Some EOF)) /\
          (exists d' s' r, segment.Append d s hello = Done (d', s', r, (0, None))) /\
          (exists d' l' r, Log.Append d l hello = Done (d', l', r, (0, None)))
      | None => False
      end
  | Panic => False
  end.
Proof. vm_compute. split_and!; try done; by repeat eexists. Qed.

(** C4 (the code departs from the claim).  Of 86 appends to a fresh log,
    all reported as successful, the first 85 return the offsets 0 to 84
    and the 86th returns 0. *)
Theorem C4_offsets_not_increasing :
  match after_86_appends with
  | Done (_, _, out) =>
      out = map (fun n => (Z.of_nat n, None)) (seq 0 85) ++ [(0, None)]
  | Panic => False
  end.
Proof. vm_compute. reflexivity. Qed.

(** C8 (the code departs from the claim).  After those 86 appends to an
    empty log with initial offset 0, [HighestOffset] returns 84, not
    0 + 86 - 1. *)
Theorem C8_highest_offset_after_appends :
  match after_86_appends with
  | Done (_, l, out) =>
      length out = 86%nat /\ Forall (fun r => r.2 = None) out /\
      Log.HighestOffset l = Done (84, None)
  | Panic => False
  end.
Proof. vm_compute. split_and!; [done | repeat constructor | done]. Qed.

Lemma appended_seg_ready : store_ready appended_seg.1 (segment.store appended_seg.2).
Proof.
  unfold store_ready. split_and!; [reflexivity | by eexists | reflexivity | by vm_compute].
Qed.

Lemma appended_seg_live : index_live appended_seg.1 (segment.index appended_seg.2).
Proof. split; [reflexivity |]. eexists. split; [reflexivity |]. by vm_compute. Qed.

Lemma C10_segment_Append_witness :
  segment.nextOffset appended_seg.2 = 1 /\
  exists d' s' res,
    segment.Append appended_seg.1 appended_seg.2 {| Value := [x41]; Offset := 7 |}
      = Done (d', s', {| Value := [x41]; Offset := 1 |}, res) /\
    store_content d' (segment.store s')
      = store_content appended_seg.1 (segment.store appended_seg.2)
        ++ [x00; x00; x00; x00; x00; x00; x00; x09]
        ++ [x00; x00; x00; x00; x00; x00; x00; x01; x41].
Proof.
  split; [reflexivity |].
  assert (Hs : 0 <= index.size (segment.index appended_seg.2) < 2 ^ 64 - 12)
    by (vm_compute; split; [discriminate | reflexivity]).
  destruct (C10_segment_Append_stamps_record appended_seg.1 appended_seg.2
              {| Value := [x41]; Offset := 7 |} appended_seg_live Hs)
    as (d' & s' & res & Happ & _ & Hc).
  exists d', s', res. split; [exact Happ |].
  exact (Hc [x00; x00; x00; x00; x00; x00; x00; x01; x41] eq_refl appended_seg_ready).
Defined.

Lemma three_segments_hold_records p :
  p ∈ Log.segments three_segments.2 ->
  exists s, Log.mem three_segments.2 !! p = Some s /\
            0 < segment.nextOffset s <= 2 ^ 64 - 1.
Proof.
  intros Hp. vm_compute in Hp.
  exists (default seg0 (Log.mem three_segments.2 !! p)).
  repeat (apply elem_of_cons in Hp as [->|Hp]; [by vm_compute |]).
  by apply elem_of_nil in Hp.
Qed.

Lemma first_of_three_segments : 0%nat ∈ Log.segments three_segments.2.
Proof. vm_compute. apply list_elem_of_here. Qed.

Lemma C6_Truncate_at_the_highest_watermark_witness :
  bases three_segments.2 = [Some (0, 3); Some (3, 6); Some (6, 7)] /\
  exists d' l',
    Log.Truncate three_segments.1 three_segments.2 (2 ^ 64 - 1) = Done (d', l', None) /\
    Log.segments l' = [0%nat; 1%nat; 2%nat] /\
    forall p, p ∈ Log.segments l' ->
      exists s, Log.mem l' !! p = Some s /\ Log.mem three_segments.2 !! p = Some s /\
                segment.nextOffset s <= (2 ^ 64 - 1) + 1.
Proof.
  split; [vm_compute; reflexivity |].
  destruct (Log.Truncate three_segments.1 three_segments.2 (2 ^ 64 - 1))
    as [[[d' l'] [e|]]|] eqn:E.
  - exfalso. vm_compute in E. discriminate.
  - destruct (C6_Truncate_at_the_highest_watermark _ _ _ _ E) as [Hsegs Hkept].
    { exact three_segments_hold_records. }
    exists d', l'. split_and!; [reflexivity | | exact Hkept].
    rewrite Hsegs. vm_compute. reflexivity.
  - exfalso. vm_compute in E. discriminate.
Defined.

Lemma C7_index_close_reopen_witness :
  exists d0 i0 i1 d1 i1',
    index.newIndex test_disk test_file cfg1024 = (d0, (Some i0, None)) /\
    Write_all i0 [(0, 0); (1, 10)] = Done (i1, None) /\
    index.Close d0 i1 = (d1, i1', None) /\
    os_Stat d1 "index_test" = (24, None) /\
    exists d2 i2,
      index.newIndex d1 test_file cfg1024 = (d2, (Some i2, None)) /\
      index.size i2 = 24 /\
      index.Read i2 (-1) = Done (1, 10, None).
Proof.
  destruct (index.newIndex test_disk test_file cfg1024) as [d0 [[i0|] [e0|]]] eqn:E0;
    try (exfalso; vm_compute in E0; discriminate).
  destruct (Write_all i0 [(0, 0); (1, 10)]) as [[i1 [e1|]]|] eqn:E1;
    try (exfalso; vm_compute in E0; injection E0 as <- <-; vm_compute in E1; discriminate).
  destruct (index.Close d0 i1) as [[d1 i1'] [e2|]] eqn:E2;
    try (exfalso; vm_compute in E0; injection E0 as <- <-;
         vm_compute in E1; injection E1 as <-; vm_compute in E2; discriminate).
  assert (Hfit : 12 * len (@nil (Z * Z)) <= i64 (MaxIndexBytes (Segment cfg1024)))
    by (vm_compute; discriminate).
  assert (Hcount : len ([] ++ [(0, 0); (1, 10)]) <= 2 ^ 32)
    by (vm_compute; discriminate).
  assert (Htyped : Forall (fun e : Z * Z => 0 <= e.1 < 2 ^ 32 /\ 0 <= e.2 < 2 ^ 64)
                     ([] ++ [(0, 0); (1, 10)]))
    by (repeat constructor; vm_compute; discriminate).
  destruct (C7_index_close_reopen test_disk test_file cfg1024 [] [(0, 0); (1, 10)]
              d0 d1 i0 i1 i1' eq_refl Hfit Hcount Htyped E0 E1 E2)
    as (_ & Hstat & Hre).
  destruct (Hre test_file eq_refl eq_refl) as (d2 & i2 & Hnew & Hsz & Hrd).
  exists d0, i0, i1, d1, i1'.
  split_and!;
    [first [reflexivity | exact E0] | first [reflexivity | exact E1]
    | first [reflexivity | exact E2] | exact Hstat |].
  exists d2, i2. split_and!; [exact Hnew | exact Hsz | exact Hrd].
Defined.

(** * The scenarios of the specification *)

(** Scenario B: the fourth append rolls over to a segment at offset 3. *)
Example scenario_rollover :
  match '(d, l, _) ← Log.NewLog empty_dir "log" cfg_three;
        append_all d l (replicate 4 hello) with
  | Done (_, l, out) =>
      out = [(0, None); (1, None); (2, None); (3, None)] /\
      bases l = [Some (0, 3); Some (3, 4)] /\
      Log.LowestOffset l = Done (0, None) /\
      Log.HighestOffset l = Done (3, None)
  | Panic => False
  end.
Proof. vm_compute. done. Qed.

(** Scenario C: reading past the highest offset. *)
Example scenario_out_of_range :
  match '(d, l, _) ← Log.NewLog empty_dir "log" cfg1024;
        '(d, l, _) ← append_all d l (replicate 3 hello);
        Log.Read d l 3 with
  | Done (_, _, r) => r = (None, Some (ErrOffsetOutOfRange 3))
  | Panic => False
  end.
Proof. vm_compute. done. Qed.

(** Scenario D, as far as reads are not involved: after three appends,
    a close and a reopen of the directory, the highest offset is 2 and
    the next append returns 3. *)
Example scenario_reopen :
  match '(d, l, _) ← Log.NewLog empty_dir "log" cfg1024;
        '(d, l, _) ← append_all d l (replicate 3 hello);
        '(d, _, err) ← Log.Close d l;
        '(d, l, err') ← Log.NewLog d "log" cfg1024;
        '(_, _, _, res) ← Log.Append d l hello;
        Done (err, err', Log.HighestOffset l, res) with
  | Done r => r = (None, None, Done (2, None), (3, None))
  | Panic => False
  end.
Proof. vm_compute. done. Qed.

(** Scenario E: segments ending at 3, 6 and 9 (and the empty active one
    at 9); [Truncate(5)] removes the first two. *)
Example scenario_truncate :
  match '(d, l, _) ← Log.NewLog empty_dir "log" cfg_three;
        '(d, l, _) ← append_all d l (replicate 9 hello);
        '(d, l', err) ← Log.Truncate d l 5;
        Done (bases l, err, bases l', Log.LowestOffset l') with
  | Done r =>
      r = ([Some (0, 3); Some (3, 6); Some (6, 9); Some (9, 9)], None,
           [Some (6, 9); Some (9, 9)], Done (6, None))
  | Panic => False
  end.
Proof. vm_compute. done. Qed.

(** * The store: appended records are read back *)

Lemma len_frame p : len (frame p) = 8 + len p.
Proof. unfold frame. by rewrite len_app, len_PutUint64. Qed.

Lemma Flush_ready d s :
  store_ready d s ->
  exists d',
    bufio.Flush d (store.File s) (store.buf s) = (d', bufio.NewWriter, None) /\
    file_content d' (store.Name s) = Some (store_content d s) /\
    (forall n, n <> store.Name s -> file_content d' n = file_content d n).
Proof.
  intros (Hcl & [c Hc] & Herr & Hbuf). unfold bufio.Flush, store_content, bufio.Buffered.
  unfold store.Name in *. rewrite Herr, Hc.
  destruct (Z.eqb_spec (len (bufio.pending (store.buf s))) 0) as [E|E].
  - assert (bufio.pending (store.buf s) = []) as Hp
      by (destruct (bufio.pending (store.buf s)); [done | unfold len in E; simpl in E; lia]).
    exists d. rewrite Hp, app_nil_r. split_and!; try done.
    destruct (store.buf s) as [pend e]. simpl in *. by subst.
  - destruct (File_Write_ok d (store.File s) (bufio.pending (store.buf s)) c Hcl Hc)
      as [-> Hc'].
    eexists. split_and!; [reflexivity | exact Hc' |].
    intros n Hn. destruct d as [m|]; [| done]. simpl. by rewrite lookup_insert_ne.
Qed.

Lemma slice_app_mid3 {A} (a b rest : list A) lo hi :
  lo = len a -> hi = lo + len b -> slice (a ++ b ++ rest) lo hi = b.
Proof. intros -> ->. by apply slice_app_mid. Qed.

(** Reading the record that sits at [pos] in the store. *)
Lemma store_Read_frame d s a p rest :
  store_ready d s ->
  store_content d s = a ++ frame p ++ rest ->
  len a + 8 + len p < 2 ^ 63 ->
  exists d',
    store.Read d s (len a)
      = Done (d', {| store.File := store.File s; store.buf := bufio.NewWriter;
                     store.size := store.size s |}, (p, None)) /\
    file_content d' (store.Name s) = Some (store_content d s) /\
    (forall n, n <> store.Name s -> file_content d' n = file_content d n).
Proof.
  intros Hready Hcont Hsmall.
  destruct (Flush_ready d s Hready) as (d' & Hfl & Hfile & Hother).
  destruct Hready as (Hcl & _).
  pose proof (len_nonneg a) as Ha. pose proof (len_nonneg p) as Hp.
  pose proof (len_nonneg rest) as Hr.
  unfold store.Read. rewrite Hfl. cbn [store.File store.buf store.size].
  change lenWidth with 8.
  rewrite i64_small by lia.
  unfold File_ReadAt at 1. unfold store.Name in Hfile. rewrite Hcl, Hfile, Hcont.
  destruct (Z.ltb_spec (len a) 0); [lia |]. change (8 =? 0) with false. cbv iota.
  assert (Hlen : len (a ++ frame p ++ rest) = len a + (8 + len p) + len rest)
    by (rewrite !len_app, len_frame; lia).
  rewrite Hlen.
  destruct (Z.ltb_spec (len a + (8 + len p) + len rest) (len a + 8)); [lia |].
  assert (Hsl : slice (a ++ frame p ++ rest) (len a) (len a + 8) = PutUint64 (u64 (len p))).
  { unfold frame. rewrite <- (app_assoc (PutUint64 _)).
    apply slice_app_mid3; rewrite ?len_PutUint64; lia. }
  rewrite !Hsl.
  rewrite !Uint64_PutUint64, !(u64_small (len p)) by lia.
  unfold maxInt. destruct (Z.ltb_spec (2 ^ 63 - 1) (len p)); [lia |].
  rewrite (u64_small (len a + 8)), i64_small by lia.
  unfold File_ReadAt. rewrite Hcl, Hfile, Hcont.
  destruct (Z.ltb_spec (len a + 8) 0); [lia |].
  exists d'. split_and!; [| by rewrite <- Hcont | done].
  destruct (Z.eqb_spec (len p) 0) as [E|E].
  - assert (p = []) as -> by (destruct p; [done | unfold len in E; simpl in E; lia]). done.
  - rewrite Hlen.
    destruct (Z.ltb_spec (len a + (8 + len p) + len rest) (len a + 8 + len p)); [lia |].
    unfold frame.
    rewrite <- (app_assoc (PutUint64 _) p rest), (app_assoc a).
    rewrite slice_app_mid3; [done | | done].
    rewrite len_app, len_PutUint64. lia.
Qed.

Lemma store0_ready : store_ready disk0 store0.
Proof.
  unfold store_ready. split_and!; [reflexivity | by eexists | reflexivity | by vm_compute].
Defined.

Lemma store_Append_sized d s p :
  store_ready d s -> store_sized d s -> store.size s + 8 + len p < 2 ^ 63 ->
  exists d1 s1,
    store.Append d s p = (d1, s1, (8 + len p, store.size s, None)) /\
    store_ready d1 s1 /\ store_sized d1 s1 /\
    store_content d1 s1 = store_content d s ++ frame p /\
    store.size s1 = store.size s + 8 + len p /\
    store.File s1 = store.File s.
Proof.
  intros Hready Hsized Hsmall.
  pose proof (len_nonneg p) as Hp. pose proof (len_nonneg (store_content d s)) as Hc.
  unfold store_sized in *.
  destruct (store_Append_ok d s p Hready) as (d1 & s1 & Happ & Hr1 & Hc1 & Hs1 & Hf1).
  exists d1, s1. rewrite Happ.
  rewrite (u64_small (len p + 8)) in * by lia.
  rewrite u64_small in Hs1 by lia.
  split_and!; try done.
  - do 3 f_equal. lia.
  - rewrite Hc1, Hs1, len_app. fold (frame p). rewrite len_frame. lia.
  - lia.
Qed.

Lemma store_Append_then_Read d s p :
  store_ready d s -> store_sized d s -> store.size s + 8 + len p < 2 ^ 63 ->
  exists d1 s1 d2 s2,
    store.Append d s p = (d1, s1, (8 + len p, store.size s, None)) /\
    store_content d1 s1 = store_content d s ++ frame p /\
    store.size s1 = store.size s + 8 + len p /\
    store.Read d1 s1 (store.size s) = Done (d2, s2, (p, None)).
Proof.
  intros Hready Hsized Hsmall.
  destruct (store_Append_sized d s p Hready Hsized Hsmall)
    as (d1 & s1 & Happ & Hr1 & Hz1 & Hc1 & Hs1 & _).
  unfold store_sized in Hsized.
  destruct (store_Read_frame d1 s1 (store_content d s) p [] Hr1) as (d2 & Hrd & _).
  { by rewrite app_nil_r. }
  { lia. }
  rewrite <- Hsized in Hrd.
  do 4 eexists. split_and!; [exact Happ | exact Hc1 | exact Hs1 | exact Hrd].
Qed.

(** X1.  On a store that accepts writes and whose size is the length of
    its content, [Append(p)] returns the number of bytes written, 8 more
    than the payload, and the old size as the position; the content grows
    by the length prefix and the payload; and [Read] at the returned
    position gives [p] back. *)
Theorem X1_store_Append_then_Read (d : Disk) (s : store.t) (p : list byte) :
  store_ready d s -> store_sized d s -> store.size s + 8 + len p < 2 ^ 63 ->
  exists d1 s1 d2 s2,
    store.Append d s p = (d1, s1, (8 + len p, store.size s, None)) /\
    store_content d1 s1 = store_content d s ++ frame p /\
    store.size s1 = store.size s + 8 + len p /\
    store.Read d1 s1 (store.size s) = Done (d2, s2, (p, None)).
Proof. apply store_Append_then_Read. Qed.

Lemma X1_store_Append_then_Read_witness :
  exists d1 s1 d2 s2,
    store.Append disk0 store0 [x41; x42] = (d1, s1, (8 + 2, 0, None)) /\
    store_content d1 s1 = store_content disk0 store0 ++ frame [x41; x42] /\
    store.size s1 = 0 + 8 + 2 /\
    store.Read d1 s1 0 = Done (d2, s2, ([x41; x42], None)).
Proof.
  apply (X1_store_Append_then_Read disk0 store0 [x41; x42]);
    [exact store0_ready | reflexivity | reflexivity].
Defined.

(** X2.  A record that sits in the store, at the position where the
    content before it ends, is read back by [Read] at that position, and
    it still is after any further [Append]. *)
Theorem X2_store_Read_earlier_record (d : Disk) (s : store.t)
    (a q rest p : list byte) :
  store_ready d s ->
  store_content d s = a ++ frame q ++ rest ->
  len a + 8 + len q < 2 ^ 63 ->
  (exists d' s', store.Read d s (len a) = Done (d', s', (q, None))) /\
  (exists d1 s1 r d2 s2,
     store.Append d s p = (d1, s1, r) /\
     store.Read d1 s1 (len a) = Done (d2, s2, (q, None))).
Proof.
  intros Hready Hcont Hsmall. split.
  - destruct (store_Read_frame d s a q rest Hready Hcont Hsmall) as (d' & Hrd & _).
    by do 2 eexists.
  - destruct (store_Append_ok d s p Hready) as (d1 & s1 & Happ & Hr1 & Hc1 & _).
    destruct (store_Read_frame d1 s1 a q (rest ++ PutUint64 (u64 (len p)) ++ p) Hr1)
      as (d2 & Hrd & _); [| done |].
    { rewrite Hc1, Hcont. by rewrite <- !app_assoc. }
    do 5 eexists. split; [exact Happ | exact Hrd].
Qed.

Lemma X2_store_Read_earlier_record_witness :
  (exists d' s', store.Read store1.1 store1.2 (len (@nil byte))
                 = Done (d', s', ([x41; x42], None))) /\
  (exists d1 s1 r d2 s2,
     store.Append store1.1 store1.2 [x43] = (d1, s1, r) /\
     store.Read d1 s1 (len (@nil byte)) = Done (d2, s2, ([x41; x42], None))).
Proof.
  apply (X2_store_Read_earlier_record store1.1 store1.2 [] [x41; x42] [] [x43]).
  - unfold store_ready. split_and!; [reflexivity | by eexists | reflexivity | by vm_compute].
  - reflexivity.
  - reflexivity.
Defined.

(** X3.  [Read] at a position that fits an [int64] and where fewer than
    eight bytes are left fails with [io.EOF] and returns no bytes; it has
    flushed the store first: the file then holds the whole content, the
    buffer is empty, and file handle and size are as they were. *)
Theorem X3_store_Read_past_end (d : Disk) (s : store.t) (pos : Z) :
  store_ready d s -> 0 <= pos < 2 ^ 63 ->
  len (store_content d s) < pos + 8 ->
  exists d' s',
    store.Read d s pos = Done (d', s', ([], Some EOF)) /\
    file_content d' (store.Name s) = Some (store_content d s) /\
    bufio.pending (store.buf s') = [] /\
    store.File s' = store.File s /\ store.size s' = store.size s.
Proof.
  intros Hready Hpos Hend.
  destruct (Flush_ready d s Hready) as (d' & Hfl & Hfile & _).
  destruct Hready as (Hcl & _).
  unfold store.Read. rewrite Hfl. cbn [store.File]. change lenWidth with 8.
  rewrite i64_small by lia. unfold File_ReadAt.
  unfold store.Name in *. rewrite Hcl, Hfile.
  destruct (Z.ltb_spec pos 0); [lia |]. change (8 =? 0) with false. cbv iota.
  destruct (Z.ltb_spec (len (store_content d s)) (pos + 8)); [| lia].
  do 2 eexists. split_and!; [reflexivity | exact Hfile | reflexivity..].
Qed.

Lemma X3_store_Read_past_end_witness :
  file_content store1.1 "0.store" = Some [] /\
  exists d' s',
    store.Read store1.1 store1.2 5 = Done (d', s', ([], Some EOF)) /\
    file_content d' "0.store" = Some [x00; x00; x00; x00; x00; x00; x00; x02; x41; x42] /\
    bufio.pending (store.buf s') = [] /\
    store.File s' = store.File store1.2 /\ store.size s' = store.size store1.2.
Proof.
  split; [reflexivity |].
  apply (X3_store_Read_past_end store1.1 store1.2 5).
  - unfold store_ready. split_and!; [reflexivity | by eexists | reflexivity | by vm_compute].
  - split; [discriminate | reflexivity].
  - reflexivity.
Defined.

(** X4.  [Close] on a store that accepts writes flushes it: the file then
    holds the whole content and the handle is closed; a second [Close]
    fails and changes nothing; and a store built by [newStore] on the
    file opened again has the content as it was, with its length as size. *)
Theorem X4_store_Close_and_reopen (d : Disk) (s : store.t) :
  store_ready d s -> len (store_content d s) < 2 ^ 64 ->
  exists d' s',
    store.Close d s = (d', s', None) /\
    closed (store.File s') = true /\
    file_content d' (store.Name s) = Some (store_content d s) /\
    store.Close d' s' = (d', s', Some ErrClosed) /\
    forall f, fname f = store.Name s -> closed f = false ->
      exists s2,
        store.newStore d' f = (Some s2, None) /\
        store.size s2 = len (store_content d s) /\
        store_content d' s2 = store_content d s /\
        store_ready d' s2.
Proof.
  intros Hready Hlen.
  destruct (Flush_ready d s Hready) as (d' & Hfl & Hfile & _).
  destruct Hready as (Hcl & _).
  unfold store.Close. rewrite Hfl. unfold File_Close. rewrite Hcl.
  do 2 eexists. split_and!; [reflexivity | reflexivity | exact Hfile | reflexivity |].
  intros f Hname Hclf. unfold store.newStore, os_Stat. rewrite Hname, Hfile.
  eexists. split_and!; [reflexivity | | |].
  - cbn. apply u64_small. pose proof (len_nonneg (store_content d s)). lia.
  - unfold store_content at 1, store.Name. cbn. rewrite Hname, Hfile. apply app_nil_r.
  - unfold store_ready, store.Name. cbn. rewrite Hname, Hfile.
    split_and!; [done | by eexists | done | by vm_compute].
Qed.

Lemma X4_store_Close_and_reopen_witness :
  exists d' s',
    store.Close store1.1 store1.2 = (d', s', None) /\
    closed (store.File s') = true /\
    file_content d' "0.store" = Some (frame [x41; x42]).
Proof.
  destruct (X4_store_Close_and_reopen store1.1 store1.2) as (d' & s' & Hc & Hcl & Hf & _).
  - unfold store_ready. split_and!; [reflexivity | by eexists | reflexivity | by vm_compute].
  - reflexivity.
  - exists d', s'. split_and!; [exact Hc | exact Hcl | exact Hf].
Defined.

(** * The index: the last entry and the capacity *)

Lemma Read_last_at f pre off pos rest k :
  len pre = 12 * k -> 0 <= k < 2 ^ 32 ->
  index.Read {| index.file := f;
                index.mmap := pre ++ entry_bytes off pos ++ rest;
                index.size := 12 * k + 12 |} (-1)
  = Done (u32 off, u64 pos, None).
Proof.
  intros Hpre Hk. unfold index.Read. cbn [index.size index.mmap].
  destruct (Z.eqb_spec (12 * k + 12) 0); [lia |].
  change (-1 =? -1) with true. cbv iota.
  change entWidth with 12. change offWidth with 4.
  replace ((12 * k + 12) / 12 - 1) with k
    by (replace (12 * k + 12) with ((k + 1) * 12) by lia; rewrite Z.div_mul by lia; lia).
  rewrite (u64_small k), (u32_small k) by lia.
  rewrite (u64_small (12 * k)) by lia.
  rewrite (u64_small (12 * k + 12)), (u64_small (12 * k + 4)) by lia.
  destruct (Z.ltb_spec (12 * k + 12) (12 * k + 12)); [lia |].
  assert (Hm : len (pre ++ entry_bytes off pos ++ rest) = 12 * k + 12 + len rest)
    by (rewrite !len_app, len_entry_bytes; lia).
  pose proof (len_nonneg rest).
  rewrite !in_bounds_true by lia. simpl andb. cbv iota.
  unfold entry_bytes. rewrite <- !app_assoc.
  do 2 f_equal.
  - f_equal.
    + replace (12 * k + 4) with (12 * k + len (PutUint32 off))
        by (rewrite len_PutUint32; lia).
      rewrite slice_app_mid by done.
      apply Uint32_PutUint32.
    + rewrite (app_assoc pre).
      replace (12 * k + 12) with (12 * k + 4 + len (PutUint64 pos))
        by (rewrite len_PutUint64; lia).
      rewrite slice_app_mid by (rewrite len_app, len_PutUint32; lia).
      apply Uint64_PutUint64.
Qed.

(** X5.  After a [Write(off, pos)] that finds room in a live index
    holding [k] whole entries ([k] within the range of the 32-bit entry
    number), [Read(-1)] returns [(off, pos)]. *)
Theorem X5_index_Write_then_Read_last (d : Disk) (i : index.t) (off pos k : Z) :
  index_live d i ->
  index.size i = 12 * k -> 0 <= k < 2 ^ 32 ->
  index.size i + 12 <= len (index.mmap i) ->
  0 <= off < 2 ^ 32 -> 0 <= pos < 2 ^ 64 ->
  exists i',
    index.Write i off pos = Done (i', None) /\
    index.Read i' (-1) = Done (off, pos, None).
Proof.
  intros _ Hsz Hk Hroom Hoff Hpos.
  rewrite Write_room by lia. eexists. split; [reflexivity |].
  rewrite Hsz.
  rewrite Read_last_at; [by rewrite u32_small, u64_small by lia | | done].
  unfold len in *. rewrite length_take. lia.
Qed.

Lemma X5_index_Write_then_Read_last_witness :
  exists i',
    index.Write two_entries 2 20 = Done (i', None) /\
    index.Read i' (-1) = Done (2, 20, None).
Proof.
  apply (X5_index_Write_then_Read_last test_disk_mapped two_entries 2 20 2);
    first [ exact two_entries_live | reflexivity
          | (split; [discriminate | reflexivity]) | discriminate].
Defined.

Lemma Write_all_fits es : forall i,
  0 <= index.size i -> index.size i + 12 * len es <= len (index.mmap i) ->
  len (index.mmap i) <= maxInt ->
  exists i', Write_all i es = Done (i', None).
Proof.
  induction es as [|e es IH]; intros i Hs Hfit Hm; [by eexists |].
  assert (Hl : len (e :: es) = 1 + len es) by (unfold len; rewrite length_cons; lia).
  pose proof (len_nonneg es). rewrite Hl in Hfit. unfold maxInt in Hm.
  cbn [Write_all]. rewrite Write_room by lia. cbn [mbind exec_bind].
  apply IH; cbn [index.size index.mmap].
  - lia.
  - rewrite !len_app, len_entry_bytes. unfold len in *.
    rewrite length_take, length_drop. lia.
  - rewrite !len_app, len_entry_bytes. unfold len in *.
    rewrite length_take, length_drop. unfold maxInt. lia.
Qed.

Lemma Write_all_result es : forall i,
  0 <= index.size i <= len (index.mmap i) -> len (index.mmap i) <= maxInt ->
  exists i' e, Write_all i es = Done (i', e) /\ (e = None \/ e = Some EOF).
Proof.
  induction es as [|e es IH]; intros i Hs Hm; [by eexists _, _; split; [| left] |].
  cbn [Write_all].
  destruct (Z.lt_ge_cases (len (index.mmap i)) (index.size i + 12)).
  - rewrite Write_full by (unfold maxInt in Hm; lia). cbn [mbind exec_bind].
    eexists _, _. split; [reflexivity | by right].
  - rewrite Write_room by (unfold maxInt in Hm; lia). cbn [mbind exec_bind].
    apply IH; cbn [index.size index.mmap];
      rewrite !len_app, len_entry_bytes; unfold len in *;
      rewrite length_take, length_drop; lia.
Qed.

(** X6.  A run of [Write]s on a live index never panics and ends either
    without error or with [io.EOF]; it ends without error exactly when
    all its entries fit in what is left of the mapped region, 12 bytes
    each. *)
Theorem X6_index_capacity (d : Disk) (i : index.t) (es : list (Z * Z)) :
  index_live d i ->
  0 <= index.size i <= len (index.mmap i) -> len (index.mmap i) <= maxInt ->
  exists i' e,
    Write_all i es = Done (i', e) /\
    (e = None \/ e = Some EOF) /\
    (e = None <-> index.size i + 12 * len es <= len (index.mmap i)).
Proof.
  intros _ Hs Hm.
  destruct (Write_all_result es i Hs Hm) as (i' & e & Hrun & He).
  exists i', e. split_and!; [done | done |]. split.
  - intros ->. apply Write_all_spec in Hrun as (Hsz & Hle & _); [lia | done | done].
  - intros Hfit. destruct (Write_all_fits es i) as (i2 & Hrun2); [lia | done | done |].
    rewrite Hrun in Hrun2. by simplify_eq.
Qed.

Lemma X6_index_capacity_witness :
  exists i' e,
    Write_all two_entries [(2, 20); (3, 30)] = Done (i', e) /\
    (e = None \/ e = Some EOF) /\
    (e = None <-> index.size two_entries + 12 * len [(2, 20); (3, 30)]
                  <= len (index.mmap two_entries)).
Proof.
  apply (X6_index_capacity test_disk_mapped two_entries [(2, 20); (3, 30)]).
  - exact two_entries_live.
  - split; discriminate.
  - discriminate.
Defined.

(** * Segments over new and over existing files *)

(** X7.  [newSegment] at a base offset whose two files do not exist
    creates both, the store file empty and the index file as long as the
    configured index size, and returns an empty segment: its next offset
    is the base offset, both sizes are 0, and its store accepts writes. *)
Theorem X7_newSegment_on_new_files (m : gmap string (list byte)) (base : Z) (c : Config) :
  m !! file_name base ".store" = None ->
  m !! file_name base ".index" = None ->
  0 < i64 (MaxIndexBytes (Segment c)) ->
  exists d' s,
    segment.newSegment (Some m) base c = Done (d', (Some s, None)) /\
    segment.baseOffset s = base /\ segment.nextOffset s = base /\
    store.size (segment.store s) = 0 /\
    index.size (segment.index s) = 0 /\
    len (index.mmap (segment.index s)) = i64 (MaxIndexBytes (Segment c)) /\
    file_content d' (file_name base ".store") = Some [] /\
    len <$> file_content d' (file_name base ".index")
      = Some (i64 (MaxIndexBytes (Segment c))) /\
    store_ready d' (segment.store s) /\ store_sized d' (segment.store s).
Proof.
  intros Hst Hix HM. pose proof (store_name_ne_index_name base) as Hne.
  unfold segment.newSegment, os_OpenFile. rewrite Hst.
  unfold store.newStore, os_Stat. cbn [file_content fname].
  rewrite lookup_insert_eq. change (u64 (len [])) with 0.
  rewrite lookup_insert_ne, Hix by done.
  erewrite newIndex_ok;
    [| cbn [fname]; apply lookup_insert_eq | done | done].
  cbn [fname]. change (u64 (len [])) with 0.
  cbn [index.Read index.size mbind exec_bind]. change (0 =? 0) with true. cbv iota.
  cbn [mbind exec_bind].
  assert (Hlook : (<[file_name base ".index":=resize [] (i64 (MaxIndexBytes (Segment c)))]>
                     (<[file_name base ".index":=[]]> (<[file_name base ".store":=[]]> m)))
                  !! file_name base ".store" = Some []).
  { rewrite lookup_insert_ne by done. rewrite lookup_insert_ne by done.
    apply lookup_insert_eq. }
  do 2 eexists. split_and!; try reflexivity.
  - cbn. by rewrite len_resize by lia.
  - exact Hlook.
  - cbn [file_content]. rewrite lookup_insert_eq. cbn. by rewrite len_resize by lia.
  - unfold store_ready, store.Name. cbn. rewrite Hlook. split_and!; try done.
  - unfold store_sized, store_content, store.Name. cbn. by rewrite Hlook.
Qed.

Lemma X7_newSegment_on_new_files_witness :
  exists d' s,
    segment.newSegment empty_dir 7 cfg1024 = Done (d', (Some s, None)) /\
    segment.baseOffset s = 7 /\ segment.nextOffset s = 7.
Proof.
  destruct (X7_newSegment_on_new_files ∅ 7 cfg1024) as (d' & s & Hn & Hb & Hx & _);
    [reflexivity | reflexivity | reflexivity |].
  exists d', s. split_and!; [exact Hn | exact Hb | exact Hx].
Defined.

(** X8.  [newSegment] over files that exist, the index file holding a
    non-empty run of entries that fits the configured index size, takes the
    next offset from the last entry: base offset plus its relative offset
    plus 1; the store's size is the length of the store file and the
    index's size the length the index file had. *)
Theorem X8_newSegment_recovers_next_offset (m : gmap string (list byte)) (base : Z)
    (c : Config) (cs : list byte) (es : list (Z * Z)) (off pos : Z) :
  m !! file_name base ".store" = Some cs ->
  m !! file_name base ".index" = Some (encode_entries (es ++ [(off, pos)])) ->
  12 * len (es ++ [(off, pos)]) <= i64 (MaxIndexBytes (Segment c)) ->
  len es < 2 ^ 32 -> 0 <= off < 2 ^ 32 ->
  exists d' s,
    segment.newSegment (Some m) base c = Done (d', (Some s, None)) /\
    segment.baseOffset s = base /\
    segment.nextOffset s = u64 (u64 (base + off) + 1) /\
    store.size (segment.store s) = u64 (len cs) /\
    index.size (segment.index s) = 12 * len (es ++ [(off, pos)]) /\
    file_content d' (file_name base ".store") = Some cs.
Proof.
  intros Hst Hix Hfit Hcount Hoff.
  pose proof (store_name_ne_index_name base) as Hne.
  pose proof (len_nonneg es) as Hes.
  assert (Hl : len (es ++ [(off, pos)]) = len es + 1) by (by rewrite len_app).
  pose proof (len_encode_entries (es ++ [(off, pos)])) as Hle.
  unfold segment.newSegment, os_OpenFile. rewrite Hst.
  unfold store.newStore, os_Stat. cbn [file_content fname]. rewrite Hst, Hix.
  erewrite newIndex_ok; [| cbn [fname]; exact Hix | done | lia].
  cbn [fname].
  rewrite Hle, (u64_small (12 * _)) by lia.
  rewrite resize_ge by lia.
  rewrite Read_last by done. cbn [mbind exec_bind fst].
  rewrite (u32_small off) by lia.
  do 2 eexists. split_and!; try reflexivity.
  cbn [file_content]. by rewrite lookup_insert_ne.
Qed.

Lemma X8_newSegment_recovers_next_offset_witness :
  exists d' s,
    segment.newSegment closed_seg.1 0 cfg1024 = Done (d', (Some s, None)) /\
    segment.nextOffset s = 1 /\ index.size (segment.index s) = 12.
Proof.
  destruct (X8_newSegment_recovers_next_offset
              (default ∅ closed_seg.1) 0 cfg1024
              (frame (PutUint64 0 ++ Value hello)) [] 0 0)
    as (d' & s & Hn & _ & Hx & _ & Hsz & _);
    [reflexivity | reflexivity | discriminate | reflexivity
    | split; [discriminate | reflexivity] |].
  exists d', s. split_and!; [exact Hn | exact Hx | exact Hsz].
Defined.

Section segment_append.
Context `{Codec}.

(** X9.  An [Append] to a segment whose store accepts writes and whose
    index is live and has room returns the segment's next offset, leaves
    the record with that offset in its [Offset] field, whatever it held,
    and advances the next offset by one; the last entry of the index is
    then the pair of the record's relative offset and the position the
    store had reached, and the store read at that position gives the
    marshalled record with the assigned offset. *)
Theorem X9_segment_Append_indexes_record (d : Disk) (s : segment.t)
    (record : api_Record) (r : list byte) (k : Z) :
  Marshal {| Value := Value record; Offset := segment.nextOffset s |} = (r, None) ->
  store_ready d (segment.store s) -> store_sized d (segment.store s) ->
  index_live d (segment.index s) ->
  store.size (segment.store s) + 8 + len r < 2 ^ 63 ->
  index.size (segment.index s) = 12 * k -> 0 <= k < 2 ^ 32 ->
  index.size (segment.index s) + 12 <= len (index.mmap (segment.index s)) ->
  exists d' s' d2 st2,
    segment.Append d s record
      = Done (d', s', {| Value := Value record; Offset := segment.nextOffset s |},
              (segment.nextOffset s, None)) /\
    segment.nextOffset s' = u64 (segment.nextOffset s + 1) /\
    segment.baseOffset s' = segment.baseOffset s /\
    index.Read (segment.index s') (-1)
      = Done (u32 (u64 (segment.nextOffset s - segment.baseOffset s)),
              store.size (segment.store s), None) /\
    store.Read d' (segment.store s') (store.size (segment.store s))
      = Done (d2, st2, (r, None)).
Proof.
  intros Hm Hready Hsized _ Hsmall Hsz Hk Hroom.
  pose proof (len_nonneg (store_content d (segment.store s))) as Hc.
  pose proof (len_nonneg r) as Hr.
  assert (Hpos : 0 <= store.size (segment.store s) < 2 ^ 64)
    by (unfold store_sized in Hsized; lia).
  destruct (store_Append_then_Read d (segment.store s) r Hready Hsized Hsmall)
    as (d1 & st1 & d2 & st2 & Happ & _ & _ & Hrd).
  unfold segment.Append.
  change (set_Offset record (segment.nextOffset s))
    with {| Value := Value record; Offset := segment.nextOffset s |}.
  rewrite Hm, Happ.
  cbn [segment.with_store segment.index segment.nextOffset segment.baseOffset].
  rewrite Write_room by lia. cbn [mbind exec_bind].
  do 4 eexists. split_and!; [reflexivity | reflexivity | reflexivity | | exact Hrd].
  cbn [segment.with_nextOffset segment.with_index segment.index].
  rewrite Hsz, Read_last_at; [by rewrite (u32_small (u32 _)), (u64_small (store.size _))
                               by (try done; unfold u32; apply Z.mod_pos_bound; lia)
                             | | done].
  unfold len in *. rewrite length_take. lia.
Qed.

End segment_append.

Lemma X9_segment_Append_indexes_record_witness :
  exists d' s' d2 st2,
    segment.Append appended_seg.1 appended_seg.2 {| Value := [x41]; Offset := 7 |}
      = Done (d', s', {| Value := [x41]; Offset := 1 |}, (1, None)) /\
    segment.nextOffset s' = 2 /\
    segment.baseOffset s' = 0 /\
    index.Read (segment.index s') (-1) = Done (1, 21, None) /\
    store.Read d' (segment.store s') 21
      = Done (d2, st2, ([x00; x00; x00; x00; x00; x00; x00; x01; x41], None)).
Proof.
  apply (X9_segment_Append_indexes_record appended_seg.1 appended_seg.2
           {| Value := [x41]; Offset := 7 |}
           [x00; x00; x00; x00; x00; x00; x00; x01; x41] 1);
    first [ reflexivity | exact appended_seg_ready | exact appended_seg_live
          | discriminate | (split; [discriminate | reflexivity]) ].
Defined.

Lemma Flush_closed d f b :
  closed f = true -> exists b' e, bufio.Flush d f b = (d, b', e).
Proof.
  intros Hcl. unfold bufio.Flush, File_Write. rewrite Hcl.
  destruct (bufio.err b); [by eexists _, _ |].
  destruct (_ =? _); by eexists _, _.
Qed.

Lemma store_Close_closed d s :
  closed (store.File s) = true ->
  exists s' e, store.Close d s = (d, s', Some e) /\ store.File s' = store.File s.
Proof.
  intros Hcl. unfold store.Close.
  destruct (Flush_closed d (store.File s) (store.buf s) Hcl) as (b' & e & ->).
  unfold File_Close. rewrite Hcl. destruct e; by eexists _, _.
Qed.

Lemma closed_segment_fails d s :
  closed (store.File (segment.store s)) = true ->
  (exists s' e, segment.Close d s = (d, s', Some e)) /\
  (exists s' e, segment.Remove d s = (d, s', Some e)).
Proof.
  intros Hcl.
  destruct (store_Close_closed d (segment.store s) Hcl) as (st & e & Hc & _).
  assert (HC : exists s' e, segment.Close d s = (d, s', Some e)).
  { unfold segment.Close. rewrite Hc. by eexists _, _. }
  split; [exact HC |].
  destruct HC as (s' & e' & HC). unfold segment.Remove. rewrite HC. by eexists _, _.
Qed.

(** X10.  [Close] and [Remove] on a segment whose store file is already
    closed fail, and leave the directory as it was: nothing is deleted. *)
Theorem X10_closed_segment_is_not_removed (d : Disk) (s : segment.t) :
  closed (store.File (segment.store s)) = true ->
  (exists s' e, segment.Close d s = (d, s', Some e)) /\
  (exists s' e, segment.Remove d s = (d, s', Some e)).
Proof. apply closed_segment_fails. Qed.

Lemma X10_closed_segment_is_not_removed_witness :
  (exists s' e, segment.Close closed_seg.1 closed_seg.2 = (closed_seg.1, s', Some e)) /\
  (exists s' e, segment.Remove closed_seg.1 closed_seg.2 = (closed_seg.1, s', Some e)).
Proof.
  apply (X10_closed_segment_is_not_removed closed_seg.1 closed_seg.2). reflexivity.
Defined.

(** * Appends to the log *)

Section log_append.
Context `{Codec}.

Lemma Log_Append_good d l p s record r :
  Log.activeSegment l = Some p -> Log.mem l !! p = Some s ->
  Marshal (set_Offset record (segment.nextOffset s)) = (r, None) ->
  store_ready d (segment.store s) ->
  0 <= index.size (segment.index s) < 2 ^ 64 - 12 ->
  index.size (segment.index s) + 12 <= len (index.mmap (segment.index s)) ->
  0 < i64 (MaxIndexBytes (Segment (Log.Config l))) ->
  file_content d (file_name (u64 (segment.nextOffset s + 1)) ".store") = None ->
  file_content d (file_name (u64 (segment.nextOffset s + 1)) ".index") = None ->
  exists d' l' p' s',
    Log.Append d l record
      = Done (d', l', set_Offset record (segment.nextOffset s),
              (segment.nextOffset s, None)) /\
    Log.activeSegment l' = Some p' /\ Log.mem l' !! p' = Some s' /\
    segment.nextOffset s' = u64 (segment.nextOffset s + 1) /\
    (Log.segments l' = Log.segments l /\ p' = p /\
     segment.baseOffset s' = segment.baseOffset s
     \/ Log.segments l' = Log.segments l ++ [p'] /\
        segment.baseOffset s' = u64 (segment.nextOffset s + 1) /\
        index.size (segment.index s') = 0).
Proof.
  intros Hact Hp Hm Hready Hs Hroom HM Hst Hix.
  unfold Log.Append, Log.deref. rewrite Hact, Hp. cbn [mbind exec_bind].
  destruct (segment_Append_ok d s record r Hm Hready Hs Hroom)
    as (d1 & s1 & Happ & Hnext & Hbase & _).
  assert (Hnew : no_new_files d d1 /\
                 is_Some (file_content d1 (store.Name (segment.store s)))).
  { revert Happ. unfold segment.Append. rewrite Hm.
    destruct (store.Append d (segment.store s) r) as [[d2 st] [[n pos] err]] eqn:E.
    pose proof (store_Append_no_new _ _ _ _ _ _ E) as Hnn.
    destruct (store_Append_ok d (segment.store s) r Hready)
      as (d3 & st3 & E3 & (_ & Hex & _) & _ & _ & Hf).
    rewrite E in E3. simplify_eq.
    destruct (index.Write _ _ _) as [[ix [e|]]|]; cbn [mbind exec_bind];
      intros; simplify_eq; (split; [done |]); unfold store.Name in *; by rewrite <- Hf. }
  destruct Hnew as [Hnew Hex].
  rewrite Happ. cbn [mbind exec_bind].
  assert (Hlt : (p < length (Log.mem l))%nat) by by eapply lookup_lt_Some.
  destruct (segment.IsMaxed s1).
  - destruct d1 as [m1|]; [| by destruct Hex].
    destruct (newSegment_fresh m1 (u64 (segment.nextOffset s + 1)) (Log.Config l))
      as (d2 & s2 & Hnewseg & Hbase2 & Hnext2 & Hsz2 & _);
      [by apply Hnew | by apply Hnew | done |].
    unfold Log.newSegment. cbn [Log.with_mem Log.Config].
    rewrite Hnewseg. cbn [mbind exec_bind].
    do 4 eexists.
    split_and!; [reflexivity | reflexivity | | exact Hnext2 | right; by split_and!].
    cbn [Log.mem]. apply list_lookup_middle. done.
  - do 4 eexists.
    split_and!; [reflexivity | exact Hact | | exact Hnext | left; by split_and!].
    cbn [Log.with_mem Log.mem]. by apply list_lookup_insert_eq.
Qed.

(** X11.  When the active segment's store accepts writes, its index has
    room, and no file stands where a rollover would open the next
    segment, [Log.Append] returns the active segment's next offset without
    error.  Afterwards the active segment expects the following offset:
    it is the same segment, or, after a rollover, a new empty segment at
    the end of the list whose base offset is that following offset. *)
Theorem X11_Log_Append_returns_next_offset (d : Disk) (l : Log.t) (p : nat)
    (s : segment.t) (record : api_Record) (r : list byte) :
  Log.activeSegment l = Some p -> Log.mem l !! p = Some s ->
  Marshal (set_Offset record (segment.nextOffset s)) = (r, None) ->
  store_ready d (segment.store s) ->
  0 <= index.size (segment.index s) < 2 ^ 64 - 12 ->
  index.size (segment.index s) + 12 <= len (index.mmap (segment.index s)) ->
  0 < i64 (MaxIndexBytes (Segment (Log.Config l))) ->
  file_content d (file_name (u64 (segment.nextOffset s + 1)) ".store") = None ->
  file_content d (file_name (u64 (segment.nextOffset s + 1)) ".index") = None ->
  exists d' l' p' s',
    Log.Append d l record
      = Done (d', l', set_Offset record (segment.nextOffset s),
              (segment.nextOffset s, None)) /\
    Log.activeSegment l' = Some p' /\ Log.mem l' !! p' = Some s' /\
    segment.nextOffset s' = u64 (segment.nextOffset s + 1) /\
    (Log.segments l' = Log.segments l /\ p' = p /\
     segment.baseOffset s' = segment.baseOffset s
     \/ Log.segments l' = Log.segments l ++ [p'] /\
        segment.baseOffset s' = u64 (segment.nextOffset s + 1) /\
        index.size (segment.index s') = 0).
Proof. apply Log_Append_good. Qed.

(** X12.  After an append under the conditions of X11 to a log whose
    active segment is the last of the list and has its next offset below
    [2^64 - 1], so that the offset after it does not wrap around,
    [HighestOffset] is the offset the append returned, and the active
    segment is still the last of the list. *)
Theorem X12_HighestOffset_after_Append (d : Disk) (l : Log.t) (p : nat)
    (s : segment.t) (record : api_Record) (r : list byte) :
  Log.activeSegment l = Some p -> Log.mem l !! p = Some s ->
  last (Log.segments l) = Some p ->
  0 <= segment.nextOffset s < 2 ^ 64 - 1 ->
  Marshal (set_Offset record (segment.nextOffset s)) = (r, None) ->
  store_ready d (segment.store s) ->
  0 <= index.size (segment.index s) < 2 ^ 64 - 12 ->
  index.size (segment.index s) + 12 <= len (index.mmap (segment.index s)) ->
  0 < i64 (MaxIndexBytes (Segment (Log.Config l))) ->
  file_content d (file_name (u64 (segment.nextOffset s + 1)) ".store") = None ->
  file_content d (file_name (u64 (segment.nextOffset s + 1)) ".index") = None ->
  exists d' l' off,
    Log.Append d l record = Done (d', l', set_Offset record off, (off, None)) /\
    off = segment.nextOffset s /\
    Log.HighestOffset l' = Done (off, None) /\
    Log.activeSegment l' = last (Log.segments l').
Proof.
  intros Hact Hp Hlast Hn Hm Hready Hs Hroom HM Hst Hix.
  destruct (Log_Append_good d l p s record r Hact Hp Hm Hready Hs Hroom HM Hst Hix)
    as (d' & l' & p' & s' & Happ & Hact' & Hp' & Hnext' & Hcase).
  assert (Hlast' : last (Log.segments l') = Some p').
  { destruct Hcase as [(-> & -> & _)|(-> & _)]; [done | apply last_snoc]. }
  exists d', l', (segment.nextOffset s).
  split_and!; [exact Happ | done | | by rewrite Hact'].
  unfold Log.HighestOffset, Log.deref. rewrite Hlast', Hp'. cbn [mbind exec_bind].
  rewrite Hnext', u64_small by lia.
  destruct (Z.eqb_spec (segment.nextOffset s + 1) 0); [lia |].
  rewrite u64_small by lia. do 2 f_equal. lia.
Qed.

End log_append.

Lemma X11_Log_Append_returns_next_offset_witness :
  exists d' l' p' s',
    Log.Append disk0 log0 hello = Done (d', l', set_Offset hello 0, (0, None)) /\
    Log.activeSegment l' = Some p' /\ Log.mem l' !! p' = Some s' /\
    segment.nextOffset s' = 1.
Proof.
  destruct (X11_Log_Append_returns_next_offset disk0 log0 0%nat seg0 hello
              (PutUint64 0 ++ Value hello))
    as (d' & l' & p' & s' & Happ & Hact & Hp & Hn & _);
    first [ reflexivity | exact store0_ready | discriminate
          | (split; [discriminate | reflexivity]) | idtac ].
  exists d', l', p', s'. split_and!; [exact Happ | exact Hact | exact Hp | exact Hn].
Defined.

Lemma X12_HighestOffset_after_Append_witness :
  exists d' l' off,
    Log.Append disk0 log0 hello = Done (d', l', set_Offset hello off, (off, None)) /\
    off = 0 /\
    Log.HighestOffset l' = Done (off, None) /\
    Log.activeSegment l' = last (Log.segments l').
Proof.
  apply (X12_HighestOffset_after_Append disk0 log0 0%nat seg0 hello
           (PutUint64 0 ++ Value hello));
    first [ reflexivity | exact store0_ready | discriminate
          | (split; [discriminate | reflexivity]) ].
Defined.

(** * Opening and resetting the log *)

(** X13.  [NewLog] on an existing, empty directory, with an index size
    that is 0 (then 1024 is taken) or fits an [int64], returns without
    error a log of one segment, which is the active one: it is empty,
    starts at the configured initial offset, and carries the
    configuration with the defaults filled in. *)
Theorem X13_NewLog_on_empty_directory (dir : string) (c : Config) :
  0 <= MaxIndexBytes (Segment c) < 2 ^ 63 ->
  exists d' l' s,
    Log.NewLog empty_dir dir c = Done (d', l', None) /\
    Log.segments l' = [0%nat] /\ Log.activeSegment l' = Some 0%nat /\
    Log.mem l' = [s] /\ Log.Config l' = with_defaults c /\
    segment.baseOffset s = InitialOffset (Segment c) /\
    segment.nextOffset s = InitialOffset (Segment c) /\
    segment.config s = with_defaults c /\
    Log.LowestOffset l' = Done (InitialOffset (Segment c), None).
Proof.
  intros HM.
  assert (Hc : forall c0 : Config,
            (if MaxStoreBytes (Segment
                 (if MaxIndexBytes (Segment c0) =? 0
                  then {| Segment := {| MaxStoreBytes := MaxStoreBytes (Segment c0);
                                        MaxIndexBytes := 1024;
                                        InitialOffset := InitialOffset (Segment c0) |} |}
                  else c0)) =? 0
             then {| Segment :=
                       {| MaxStoreBytes := 1024;
                          MaxIndexBytes := MaxIndexBytes (Segment
                             (if MaxIndexBytes (Segment c0) =? 0
                              then {| Segment := {| MaxStoreBytes := MaxStoreBytes (Segment c0);
                                                    MaxIndexBytes := 1024;
                                                    InitialOffset := InitialOffset (Segment c0) |} |}
                              else c0));
                          InitialOffset := InitialOffset (Segment
                             (if MaxIndexBytes (Segment c0) =? 0
                              then {| Segment := {| MaxStoreBytes := MaxStoreBytes (Segment c0);
                                                    MaxIndexBytes := 1024;
                                                    InitialOffset := InitialOffset (Segment c0) |} |}
                              else c0)) |} |}
             else (if MaxIndexBytes (Segment c0) =? 0
                   then {| Segment := {| MaxStoreBytes := MaxStoreBytes (Segment c0);
                                         MaxIndexBytes := 1024;
                                         InitialOffset := InitialOffset (Segment c0) |} |}
                   else c0)) = with_defaults c0).
  { intros [[ms mi io]]. unfold with_defaults. cbn.
    destruct (mi =? 0), (ms =? 0) eqn:E; cbn; rewrite ?E; reflexivity. }
  unfold Log.NewLog. rewrite Hc.
  assert (HM' : 0 < i64 (MaxIndexBytes (Segment (with_defaults c)))).
  { unfold with_defaults. cbn.
    destruct (Z.eqb_spec (MaxIndexBytes (Segment c)) 0); [done |].
    rewrite i64_small by lia. lia. }
  unfold Log.setup, ioutil_ReadDir, empty_dir.
  rewrite map_to_list_empty. cbn [fmap list_fmap Log.parse_names sort_Slice foldr
                                  Log.setup_loop mbind exec_bind Log.segments].
  destruct (newSegment_fresh ∅ (InitialOffset (Segment (with_defaults c))) (with_defaults c))
    as (d' & s & Hnew & Hb & Hn & _ & _ & _ & Hcfg & _); [done | done | done |].
  unfold Log.newSegment. cbn [Log.Config]. rewrite Hnew. cbn [mbind exec_bind].
  do 3 eexists. split_and!; try reflexivity; try done.
  unfold Log.LowestOffset, Log.deref. cbn. by rewrite Hb.
Qed.

Lemma X13_NewLog_on_empty_directory_witness :
  exists d' l' s,
    Log.NewLog empty_dir "log" cfg_big_store = Done (d', l', None) /\
    Log.segments l' = [0%nat] /\ Log.mem l' = [s] /\
    segment.nextOffset s = 0.
Proof.
  destruct (X13_NewLog_on_empty_directory "log" cfg_big_store)
    as (d' & l' & s & Hn & Hsegs & _ & Hmem & _ & _ & Hnext & _);
    [split; [discriminate | reflexivity] |].
  exists d', l', s. split_and!; [exact Hn | exact Hsegs | exact Hmem | exact Hnext].
Defined.

(** X14.  [Reset] never sets up a new log.  When its [Remove] fails it
    returns no error; when its [Remove] succeeds the directory is gone,
    the [setup] that follows fails on reading it, and that error is
    returned.  Either way the segment list is the old one. *)
Theorem X14_Reset_keeps_the_old_segments (d : Disk) (l : Log.t) (d' : Disk)
    (l' : Log.t) (err : option error) :
  Log.Reset d l = Done (d', l', err) ->
  Log.segments l' = Log.segments l /\
  ((exists e, Log.Remove d l = Done (d', l', Some e)) /\ err = None
   \/ Log.Remove d l = Done (d', l', None) /\ d' = None /\ err = Some ErrNotExist).
Proof.
  unfold Log.Reset.
  destruct (Log.Remove d l) as [[[d1 l1] e1]|] eqn:E; [| done].
  pose proof (Remove_segments _ _ _ _ _ E) as Hsegs. cbn [mbind exec_bind].
  destruct e1 as [e|].
  - intros; simplify_eq. split; [done |]. left. split; [by eexists | done].
  - assert (d1 = None) as ->.
    { revert E. unfold Log.Remove. destruct (Log.Close d l) as [[[d2 l2] [e2|]]|];
        cbn [mbind exec_bind os_RemoveAll]; intros; by simplify_eq. }
    cbn [Log.setup ioutil_ReadDir]. intros; simplify_eq.
    split; [done |]. by right.
Qed.

Lemma X14_Reset_keeps_the_old_segments_witness :
  exists l',
    Log.Reset disk0 log0 = Done (None, l', Some ErrNotExist) /\
    Log.segments l' = Log.segments log0.
Proof.
  destruct (Log.Reset disk0 log0) as [[[d' l'] err]|] eqn:E.
  - pose proof (X14_Reset_keeps_the_old_segments disk0 log0 d' l' err E) as [Hsegs _].
    assert (d' = None /\ err = Some ErrNotExist) as [-> ->].
    { vm_compute in E. injection E as <- _ <-. split; reflexivity. }
    exists l'. split; [reflexivity | exact Hsegs].
  - exfalso. vm_compute in E. discriminate.
Defined.

(** * Closing, truncating and reading the log *)

Lemma segment_Close_was_open d s d' s' :
  segment.Close d s = (d', s', None) -> closed (store.File (segment.store s)) = false.
Proof.
  unfold segment.Close, store.Close, File_Close.
  destruct (bufio.Flush _ _ _) as [[d1 b] [e|]]; [intros; simplify_eq |].
  destruct (closed (store.File (segment.store s))); [intros; simplify_eq | done].
Qed.

Lemma Close_loop_closes ps : forall d l d' l',
  Log.Close_loop d l ps = Done (d', l', None) ->
  (forall q, closed_at l q -> closed_at l' q) /\
  (forall p, p ∈ ps -> closed_at l' p).
Proof.
  induction ps as [|p ps IH]; intros d l d' l' Hrun; cbn [Log.Close_loop] in Hrun.
  - simplify_eq. split; [done |]. intros p Hp. by apply elem_of_nil in Hp.
  - destruct (Log.deref l p) as [s|] eqn:Hd; [| done]. apply deref_Done in Hd.
    cbn [mbind exec_bind] in Hrun.
    destruct (segment.Close d s) as [[d1 s1] [e|]] eqn:Hc; [simplify_eq |].
    pose proof (segment_Close_was_open _ _ _ _ Hc) as Hopen.
    apply segment_Close_inv in Hc as (_ & _ & _ & _ & _ & Hcl).
    destruct (Hcl eq_refl) as [Hc1 Hc2].
    set (l1 := Log.with_mem l (<[p:=s1]> (Log.mem l))) in *.
    assert (Hp1 : Log.mem l1 !! p = Some s1).
    { unfold l1. cbn. apply list_lookup_insert_eq. by eapply lookup_lt_Some. }
    apply IH in Hrun as [Hpers Hall]. split.
    + intros q (sq & Hsq & Hq1 & Hq2). apply Hpers.
      assert (q <> p) by (intros ->; congruence).
      exists sq. unfold l1. cbn. by rewrite list_lookup_insert_ne.
    + intros q Hq. apply elem_of_cons in Hq as [->|Hq]; [| by apply Hall].
      apply Hpers. by exists s1.
Qed.

(** X15.  After a [Close] of the log that returns no error, every segment
    of the list has its store file and its index file closed, and the
    list is unchanged; a second [Close] of a log with a segment returns an
    error. *)
Theorem X15_Log_Close_closes_every_segment (d : Disk) (l : Log.t) (d' : Disk)
    (l' : Log.t) :
  Log.Close d l = Done (d', l', None) ->
  Log.segments l' = Log.segments l /\
  (forall p, p ∈ Log.segments l -> closed_at l' p) /\
  (Log.segments l <> [] ->
   exists l2 e, Log.Close d' l' = Done (d', l2, Some e)).
Proof.
  unfold Log.Close. intros Hrun.
  pose proof (Close_loop_segments _ _ _ _ _ _ Hrun) as Hsegs.
  apply Close_loop_closes in Hrun as [_ Hall].
  split_and!; [done | done |].
  intros Hne. rewrite Hsegs.
  destruct (Log.segments l) as [|p ps]; [done |].
  destruct (Hall p) as (s & Hs & Hc1 & _); [apply list_elem_of_here |].
  cbn [Log.Close_loop]. unfold Log.deref. rewrite Hs. cbn [mbind exec_bind].
  destruct (closed_segment_fails d' s Hc1) as [(s' & e & ->) _].
  by eexists _, _.
Qed.

Lemma X15_Log_Close_closes_every_segment_witness :
  exists d' l',
    Log.Close disk0 log0 = Done (d', l', None) /\
    Log.segments l' = Log.segments log0 /\
    (forall p, p ∈ Log.segments log0 -> closed_at l' p).
Proof.
  destruct (Log.Close disk0 log0) as [[[d' l'] [e|]]|] eqn:E.
  - exfalso. vm_compute in E. discriminate.
  - destruct (X15_Log_Close_closes_every_segment disk0 log0 d' l' E) as (Hs & Hall & _).
    exists d', l'. split_and!; [reflexivity | exact Hs | exact Hall].
  - exfalso. vm_compute in E. discriminate.
Defined.

Lemma Truncate_loop_active lowest ps : forall d l kept d' l' kept' e,
  Log.Truncate_loop d l lowest ps kept = Done (d', l', kept', e) ->
  Log.activeSegment l' = Log.activeSegment l.
Proof.
  induction ps as [|p ps IH]; intros d l kept d' l' kept' e; cbn [Log.Truncate_loop].
  - intros; by simplify_eq.
  - destruct (Log.deref l p) as [s|]; [| done]. cbn [mbind exec_bind].
    destruct (_ <=? _).
    + destruct (segment.Remove d s) as [[d1 s1] [e1|]].
      * intros; by simplify_eq.
      * intros Hrun. by apply IH in Hrun.
    + intros Hrun. by apply IH in Hrun.
Qed.

(** X16.  [Truncate] never moves [activeSegment]; and when it returns an
    error, because a segment it had to remove could not be removed, the
    segment list is left as it was. *)
Theorem X16_Truncate_error_keeps_the_list (d : Disk) (l : Log.t) (lowest : Z)
    (d' : Disk) (l' : Log.t) (err : option error) :
  Log.Truncate d l lowest = Done (d', l', err) ->
  Log.activeSegment l' = Log.activeSegment l /\
  (err <> None -> Log.segments l' = Log.segments l).
Proof.
  intros Hrun. split.
  - revert Hrun. unfold Log.Truncate.
    destruct (Log.Truncate_loop d l lowest (Log.segments l) [])
      as [[[[d1 l1] kept] e1]|] eqn:E; [| done].
    cbn [mbind exec_bind]. apply Truncate_loop_active in E.
    destruct e1; intros; by simplify_eq.
  - intros Hne. destruct err as [e|]; [| done].
    by eapply Truncate_failed_segments.
Qed.

Lemma X16_Truncate_error_keeps_the_list_witness :
  exists d' l' e,
    Log.Truncate closed_log.1 closed_log.2 0 = Done (d', l', Some e) /\
    Log.activeSegment l' = Log.activeSegment closed_log.2 /\
    Log.segments l' = Log.segments closed_log.2.
Proof.
  destruct (Log.Truncate closed_log.1 closed_log.2 0) as [[[d' l'] [e|]]|] eqn:E.
  - destruct (X16_Truncate_error_keeps_the_list _ _ _ _ _ _ E) as [Hact Hsegs].
    exists d', l', e. split_and!; [reflexivity | exact Hact | apply Hsegs; discriminate].
  - exfalso. vm_compute in E. discriminate.
  - exfalso. vm_compute in E. discriminate.
Defined.

(** X17.  When [Truncate] succeeds and no segment passes its test, the
    log is left without segments: [LowestOffset] and [HighestOffset] then
    panic on the empty list, and an active segment that was in the list is
    still the active segment, closed and with its files deleted. *)
Theorem X17_Truncate_of_everything (d : Disk) (l : Log.t) (lowest : Z)
    (d' : Disk) (l' : Log.t) :
  Log.Truncate d l lowest = Done (d', l', None) ->
  (forall p, p ∈ Log.segments l -> retained l lowest p = false) ->
  Log.segments l' = [] /\
  Log.LowestOffset l' = Panic /\ Log.HighestOffset l' = Panic /\
  Log.activeSegment l' = Log.activeSegment l /\
  (forall p, Log.activeSegment l = Some p -> p ∈ Log.segments l -> removed d' l' p).
Proof.
  intros Hrun Hall.
  assert (Hact : Log.activeSegment l' = Log.activeSegment l).
  { revert Hrun. unfold Log.Truncate.
    destruct (Log.Truncate_loop d l lowest (Log.segments l) [])
      as [[[[d1 l1] kept] e1]|] eqn:E; [| done].
    cbn [mbind exec_bind]. apply Truncate_loop_active in E.
    destruct e1; intros; by simplify_eq. }
  apply Truncate_spec in Hrun as (Hsegs & Hrmv & _).
  assert (Hnil : Log.segments l' = []).
  { rewrite Hsegs. clear Hsegs Hrmv.
    induction (Log.segments l) as [|p ps IH]; [done |].
    cbn [List.filter]. rewrite Hall by apply list_elem_of_here.
    apply IH. intros q Hq. apply Hall. by apply list_elem_of_further. }
  split_and!; [done | | | done |].
  - unfold Log.LowestOffset. by rewrite Hnil.
  - unfold Log.HighestOffset. by rewrite Hnil.
  - intros p _ Hp. apply Hrmv; [done | by apply Hall].
Qed.

Lemma X17_Truncate_of_everything_witness :
  exists d' l',
    Log.Truncate disk0 log0 0 = Done (d', l', None) /\
    Log.segments l' = [] /\ Log.HighestOffset l' = Panic /\
    removed d' l' 0%nat.
Proof.
  destruct (Log.Truncate disk0 log0 0) as [[[d' l'] [e|]]|] eqn:E.
  - exfalso. vm_compute in E. discriminate.
  - destruct (X17_Truncate_of_everything disk0 log0 0 d' l' E)
      as (Hnil & _ & Hhi & _ & Hrm).
    { intros p Hp. apply list_elem_of_singleton in Hp as ->. reflexivity. }
    exists d', l'. split_and!; [reflexivity | exact Hnil | exact Hhi |].
    apply Hrm; [reflexivity | apply list_elem_of_here].
  - exfalso. vm_compute in E. discriminate.
Defined.

Section log_read.
Context `{Codec}.

Lemma find_segment_None l ps off :
  (forall p, p ∈ ps ->
     exists s, Log.mem l !! p = Some s /\
               ~ (segment.baseOffset s <= off < segment.nextOffset s)) ->
  Log.find_segment l ps off = Done None.
Proof.
  induction ps as [|p ps IH]; intros Hall; cbn [Log.find_segment]; [done |].
  destruct (Hall p) as (s & Hs & Hout); [apply list_elem_of_here |].
  unfold Log.deref. rewrite Hs. cbn [mbind exec_bind].
  destruct (Z.leb_spec (segment.baseOffset s) off);
    destruct (Z.ltb_spec off (segment.nextOffset s)); cbn [andb]; try lia;
    apply IH; intros q Hq; apply Hall; by apply list_elem_of_further.
Qed.

(** X18.  [Read] at an offset that lies in no segment of the list, below
    the base offset or at or above the next offset of each, fails with the
    out-of-range error for that offset and changes neither the log nor the
    directory. *)
Theorem X18_Log_Read_out_of_range (d : Disk) (l : Log.t) (off : Z) :
  (forall p, p ∈ Log.segments l ->
     exists s, Log.mem l !! p = Some s /\
               ~ (segment.baseOffset s <= off < segment.nextOffset s)) ->
  Log.Read d l off = Done (d, l, (None, Some (ErrOffsetOutOfRange off))).
Proof.
  intros Hall. unfold Log.Read. by rewrite find_segment_None.
Qed.

(** X19.  [Read] of the log returns no record at any offset, as long as
    the indexes are smaller than 4 GiB: where a segment holds the offset,
    the index is asked for the entry numbered by its own size and the read
    ends in an error. *)
Theorem X19_Log_Read_returns_no_record (d : Disk) (l : Log.t) (off : Z) :
  (forall p s, p ∈ Log.segments l -> Log.mem l !! p = Some s ->
     0 <= segment.baseOffset s /\ segment.nextOffset s < 2 ^ 64 /\
     0 <= index.size (segment.index s) < 2 ^ 32) ->
  forall d' l' r, Log.Read d l off <> Done (d', l', (Some r, None)).
Proof. apply Log_Read_never_succeeds. Qed.

End log_read.

Lemma X18_Log_Read_out_of_range_witness :
  Log.Read disk0 log0 5 = Done (disk0, log0, (None, Some (ErrOffsetOutOfRange 5))).
Proof.
  apply (X18_Log_Read_out_of_range disk0 log0 5).
  intros p Hp. apply list_elem_of_singleton in Hp as ->.
  exists seg0. split; [reflexivity |]. intros [_ Hlt]. discriminate Hlt.
Defined.

Lemma X19_Log_Read_returns_no_record_witness :
  exists d l,
    one_record_log = Done (d, l) /\
    forall d' l' r, Log.Read d l 0 <> Done (d', l', (Some r, None)).
Proof.
  destruct one_record_log as [[d l]|] eqn:E; [| exfalso; vm_compute in E; discriminate].
  exists d, l. split; [reflexivity |].
  apply (X19_Log_Read_returns_no_record d l 0).
  vm_compute in E. injection E as <- <-.
  intros p s Hp Hs. apply list_elem_of_singleton in Hp as ->.
  injection Hs as <-. vm_compute. repeat split; discriminate.
Defined.

(** * File names and base offsets *)

(** X20.  [nearestMultiple(j, k)] with [k > 0] returns the largest
    multiple of [k] that is not above [j], without wrapping; with [k = 0]
    its division panics. *)
Theorem X20_nearestMultiple_rounds_down j k :
  0 <= j < 2 ^ 64 -> 0 < k < 2 ^ 64 ->
  exists r, nearestMultiple j k = Done r /\
            r mod k = 0 /\ r <= j < r + k /\ nearestMultiple j 0 = Panic.
Proof.
  intros Hj Hk. exists (j / k * k). unfold nearestMultiple.
  destruct (Z.eqb_spec k 0) as [->|_]; [lia |].
  assert (Hm := Z.mod_pos_bound j k ltac:(lia)).
  assert (Hd := Z.div_mod j k ltac:(lia)).
  assert (0 <= j / k) by (apply Z.div_pos; lia).
  split_and!.
  - f_equal. apply u64_small. nia.
  - apply Z.mod_mul. lia.
  - nia.
  - nia.
  - reflexivity.
Qed.

Lemma X20_nearestMultiple_rounds_down_witness :
  exists r, nearestMultiple 2500 1024 = Done r /\
            r mod 1024 = 0 /\ r <= 2500 < r + 1024 /\ nearestMultiple 2500 0 = Panic.
Proof. apply X20_nearestMultiple_rounds_down; lia. Defined.

Lemma parse_digits_pos d : forall acc,
  parse_digits (Z.pos acc) (NilEmpty.string_of_uint d) = Some (Z.pos (Pos.of_uint_acc d acc)).
Proof.
  induction d as [|d IH|d IH|d IH|d IH|d IH|d IH|d IH|d IH|d IH|d IH]; intros acc;
    [reflexivity | ..];
    cbn [NilEmpty.string_of_uint parse_digits Pos.of_uint_acc];
    change (digit_of _) with (Some 0) || change (digit_of _) with (Some 1)
    || change (digit_of _) with (Some 2) || change (digit_of _) with (Some 3)
    || change (digit_of _) with (Some 4) || change (digit_of _) with (Some 5)
    || change (digit_of _) with (Some 6) || change (digit_of _) with (Some 7)
    || change (digit_of _) with (Some 8) || change (digit_of _) with (Some 9);
    cbv iota; rewrite <- IH; f_equal; lia.
Qed.

Lemma parse_digits_zero d :
  parse_digits 0 (NilEmpty.string_of_uint d) = Some (Z.of_N (N.of_uint d)).
Proof.
  unfold N.of_uint.
  induction d as [|d IH|d IH|d IH|d IH|d IH|d IH|d IH|d IH|d IH|d IH];
    [reflexivity | exact IH | ..];
    cbn [NilEmpty.string_of_uint parse_digits Pos.of_uint];
    change (digit_of _) with (Some 1)
    || change (digit_of _) with (Some 2) || change (digit_of _) with (Some 3)
    || change (digit_of _) with (Some 4) || change (digit_of _) with (Some 5)
    || change (digit_of _) with (Some 6) || change (digit_of _) with (Some 7)
    || change (digit_of _) with (Some 8) || change (digit_of _) with (Some 9);
    cbv iota; exact (parse_digits_pos d _).
Qed.

Lemma trim_ext_app s e :
  has_dot s = false -> has_dot e = false -> trim_ext (s +:+ String "." e) = s.
Proof.
  intros Hs He. induction s as [|a s IH].
  - change (trim_ext (String "." e) = ""). cbn. by rewrite He.
  - change (trim_ext (String a (s +:+ String "." e)) = String a s).
    cbn [trim_ext]. cbn [has_dot] in Hs.
    destruct (Ascii.eqb a ".") eqn:Ea; [done |].
    cbn [andb]. by rewrite IH.
Qed.

Lemma has_dot_digits d : has_dot (NilEmpty.string_of_uint d) = false.
Proof. induction d; cbn; done. Qed.

Lemma decimal_name n :
  NilZero.string_of_uint (N.to_uint n) = NilEmpty.string_of_uint (N.to_uint n) /\
  NilEmpty.string_of_uint (N.to_uint n) <> EmptyString.
Proof.
  destruct n as [|p]; [done |].
  unfold NilZero.string_of_uint. cbn [N.to_uint].
  assert (H := DecimalPos.Unsigned.to_uint_nonnil p).
  destruct (Pos.to_uint p); done.
Qed.

Lemma ParseUint_decimal b :
  0 <= b < 2 ^ 64 ->
  strconv_ParseUint (NilZero.string_of_uint (N.to_uint (Z.to_N b))) = (b, None).
Proof.
  intros Hb. destruct (decimal_name (Z.to_N b)) as [-> Hne].
  unfold strconv_ParseUint.
  rewrite parse_digits_zero, DecimalN.Unsigned.of_to, Z2N.id by lia.
  destruct (NilEmpty.string_of_uint _); [done |].
  destruct (Z.ltb_spec b (2 ^ 64)); [done | lia].
Qed.

(** X21.  The name [newSegment] gives a file, the base offset in decimal
    followed by an extension with one dot, is read back by [setup]: the
    name with its extension trimmed parses to that base offset, without
    error. *)
Theorem X21_file_name_round_trip b e :
  0 <= b < 2 ^ 64 -> has_dot e = false ->
  strconv_ParseUint (trim_ext (file_name b (String "." e))) = (b, None).
Proof.
  intros Hb He. unfold file_name.
  rewrite trim_ext_app; [by apply ParseUint_decimal | | done].
  destruct (decimal_name (Z.to_N b)) as [-> _]. apply has_dot_digits.
Qed.

Lemma X21_file_name_round_trip_witness :
  strconv_ParseUint (trim_ext (file_name 16 ".store")) = (16, None) /\
  strconv_ParseUint (trim_ext (file_name 0 ".index")) = (0, None).
Proof. split; apply X21_file_name_round_trip; done. Defined.

(** * Reading the stores through [Reader] *)

Lemma originReader_Read_chunk d l p s a b rest :
  Log.mem l !! p = Some s ->
  store_ready d (segment.store s) ->
  store_content d (segment.store s) = a ++ b ++ rest ->
  len (a ++ b ++ rest) < 2 ^ 63 ->
  exists d' l',
    originReader_Read d l (p, len a) (len b) = Done (d', l', (p, len a + len b), (b, None)) /\
    file_content d' (store.Name (segment.store s)) = Some (a ++ b ++ rest) /\
    Log.segments l' = Log.segments l.
Proof.
  intros Hp Hready Hcont Hsmall.
  destruct (Flush_ready d _ Hready) as (d' & Hfl & Hfile & _).
  destruct Hready as (Hcl & _).
  pose proof (len_nonneg a) as Ha. pose proof (len_nonneg b) as Hb.
  pose proof (len_nonneg rest) as Hr.
  rewrite !len_app in Hsmall.
  unfold originReader_Read, Log.deref. rewrite Hp. cbn [mbind exec_bind].
  unfold store.ReadAt. rewrite Hfl. cbn [store.File].
  unfold File_ReadAt. unfold store.Name in Hfile. rewrite Hcl, Hfile, Hcont.
  destruct (Z.ltb_spec (len a) 0); [lia |].
  exists d'. eexists.
  destruct (Z.eqb_spec (len b) 0) as [E|E].
  - assert (b = []) as -> by (destruct b; [done | unfold len in E; simpl in E; lia]).
    change (len []) with 0. rewrite Z.add_0_r, i64_small by lia.
    split_and!; [reflexivity | by unfold store.Name; rewrite Hfile, Hcont | done].
  - rewrite !len_app.
    destruct (Z.ltb_spec (len a + (len b + len rest)) (len a + len b)); [lia |].
    rewrite slice_app_mid3 by done. rewrite i64_small by lia.
    split_and!; [reflexivity | by unfold store.Name; rewrite Hfile, Hcont | done].
Qed.

Lemma Reader_loop_lookup l ps : forall rs i o,
  Log.Reader_loop l ps = Done rs -> rs !! i = Some o ->
  exists p s, o = (p, 0) /\ ps !! i = Some p /\ Log.mem l !! p = Some s.
Proof.
  induction ps as [|p ps IH]; intros rs i o; cbn [Log.Reader_loop].
  - intros ? Hi; simplify_eq.
  - unfold Log.deref. destruct (Log.mem l !! p) as [s|] eqn:Hp; [| done].
    cbn [mbind exec_bind].
    destruct (Log.Reader_loop l ps) as [rs'|] eqn:Hrs; [| done].
    cbn [mbind exec_bind]. intros ? Hi; simplify_eq.
    destruct i as [|i]; simpl in Hi.
    + simplify_eq. by exists p, s.
    + destruct (IH rs' i o eq_refl Hi) as (p' & s' & -> & ? & ?). by exists p', s'.
Qed.

Lemma Reader_loop_length l ps rs :
  Log.Reader_loop l ps = Done rs -> length rs = length ps.
Proof.
  revert rs. induction ps as [|p ps IH]; intros rs; cbn [Log.Reader_loop].
  - by intros [= <-].
  - destruct (Log.deref l p); [| done]. cbn [mbind exec_bind].
    destruct (Log.Reader_loop l ps) as [rs'|]; [| done]. cbn [mbind exec_bind].
    intros [= <-]. simpl. by rewrite (IH rs').
Qed.

(** X22.  [Reader] returns one reader per segment of the list, in the
    order of the list, each at offset 0 of that segment's store.  A read
    of such a reader for as many bytes as the store holds returns all of
    them, those still in the store's buffer included, and moves the
    reader to the end. *)
Theorem X22_Reader_reads_each_store_from_its_origin d l rs i o :
  Log.Reader l = Done rs -> rs !! i = Some o ->
  length rs = length (Log.segments l) /\
  exists p s,
    o = (p, 0) /\ Log.segments l !! i = Some p /\ Log.mem l !! p = Some s /\
    (store_ready d (segment.store s) ->
     len (store_content d (segment.store s)) < 2 ^ 63 ->
     exists d' l',
       originReader_Read d l o (len (store_content d (segment.store s)))
         = Done (d', l', (p, len (store_content d (segment.store s))),
                 (store_content d (segment.store s), None))).
Proof.
  unfold Log.Reader. intros Hrs Hi.
  split; [by apply (Reader_loop_length l) |].
  destruct (Reader_loop_lookup _ _ _ _ _ Hrs Hi) as (p & s & -> & Hp & Hs).
  exists p, s. split_and!; try done.
  intros Hready Hsmall.
  destruct (originReader_Read_chunk d l p s [] (store_content d (segment.store s)) []
              Hs Hready) as (d' & l' & Hread & _).
  - by rewrite app_nil_r.
  - by rewrite app_nil_r.
  - exists d', l'. exact Hread.
Qed.

(** X23.  A read of an [originReader] that asks for bytes the store
    holds returns exactly those bytes without error, advances the
    reader's offset by their number, and leaves the whole content in the
    file; the list of segments is as it was. *)
Theorem X23_originReader_reads_in_sequence d l p s a b rest :
  Log.mem l !! p = Some s ->
  store_ready d (segment.store s) ->
  store_content d (segment.store s) = a ++ b ++ rest ->
  len (a ++ b ++ rest) < 2 ^ 63 ->
  exists d' l',
    originReader_Read d l (p, len a) (len b) = Done (d', l', (p, len a + len b), (b, None)) /\
    file_content d' (store.Name (segment.store s)) = Some (a ++ b ++ rest) /\
    Log.segments l' = Log.segments l.
Proof. apply originReader_Read_chunk. Qed.

(** X24.  A read of an [originReader] that asks for more bytes than
    are left in the store returns the bytes that are left together with
    [io.EOF], and advances the reader's offset to the end of the store. *)
Theorem X24_originReader_short_read_at_the_end d l p s a b n :
  Log.mem l !! p = Some s ->
  store_ready d (segment.store s) ->
  store_content d (segment.store s) = a ++ b ->
  len (a ++ b) < 2 ^ 63 ->
  len b < n ->
  exists d' l',
    originReader_Read d l (p, len a) n = Done (d', l', (p, len a + len b), (b, Some EOF)) /\
    file_content d' (store.Name (segment.store s)) = Some (a ++ b).
Proof.
  intros Hp Hready Hcont Hsmall Hn.
  destruct (Flush_ready d _ Hready) as (d' & Hfl & Hfile & _).
  destruct Hready as (Hcl & _).
  pose proof (len_nonneg a) as Ha. pose proof (len_nonneg b) as Hb.
  rewrite len_app in Hsmall.
  unfold originReader_Read, Log.deref. rewrite Hp. cbn [mbind exec_bind].
  unfold store.ReadAt. rewrite Hfl. cbn [store.File].
  unfold File_ReadAt. unfold store.Name in Hfile. rewrite Hcl, Hfile, Hcont.
  destruct (Z.ltb_spec (len a) 0); [lia |].
  destruct (Z.eqb_spec n 0); [lia |].
  rewrite len_app.
  destruct (Z.ltb_spec (len a + len b) (len a + n)); [| lia].
  exists d'. eexists.
  assert (Hdrop : (if len a + len b <=? len a then [] else drop (Z.to_nat (len a)) (a ++ b)) = b).
  { destruct (Z.leb_spec (len a + len b) (len a)).
    - destruct b; [done | unfold len in *; simpl in *; lia].
    - unfold len. rewrite Nat2Z.id. by rewrite drop_app_length. }
  rewrite Hdrop, i64_small by lia.
  split; [reflexivity | by unfold store.Name; rewrite Hfile, Hcont].
Qed.

Lemma X22_Reader_reads_each_store_from_its_origin_witness :
  exists d' l',
    Log.Reader buffered_log.2 = Done [(0%nat, 0)] /\
    originReader_Read buffered_log.1 buffered_log.2 (0%nat, 0) 10
      = Done (d', l', (0%nat, 10), (frame [x41; x42], None)).
Proof.
  destruct (X22_Reader_reads_each_store_from_its_origin
              buffered_log.1 buffered_log.2 [(0%nat, 0)] 0 (0%nat, 0) eq_refl eq_refl)
    as (_ & p & s & Ho & _ & Hs & Hread).
  injection Ho as <-. injection Hs as <-.
  destruct Hread as (d' & l' & Hread).
  - unfold store_ready. split_and!; [reflexivity | by eexists | reflexivity | by vm_compute].
  - reflexivity.
  - exists d', l'. split; [reflexivity | exact Hread].
Defined.

Lemma X23_originReader_reads_in_sequence_witness :
  exists d' l',
    originReader_Read buffered_log.1 buffered_log.2 (0%nat, 8) 2
      = Done (d', l', (0%nat, 8 + 2), ([x41; x42], None)) /\
    file_content d' "0.store" = Some (frame [x41; x42]) /\
    Log.segments l' = [0%nat].
Proof.
  apply (X23_originReader_reads_in_sequence buffered_log.1 buffered_log.2 0
           (segment.with_store seg0 store1.2) (PutUint64 2) [x41; x42] []).
  - reflexivity.
  - unfold store_ready. split_and!; [reflexivity | by eexists | reflexivity | by vm_compute].
  - reflexivity.
  - reflexivity.
Defined.

Lemma X24_originReader_short_read_at_the_end_witness :
  exists d' l',
    originReader_Read buffered_log.1 buffered_log.2 (0%nat, 8) 4096
      = Done (d', l', (0%nat, 8 + 2), ([x41; x42], Some EOF)) /\
    file_content d' "0.store" = Some (frame [x41; x42]).
Proof.
  apply (X24_originReader_short_read_at_the_end buffered_log.1 buffered_log.2 0
           (segment.with_store seg0 store1.2) (PutUint64 2) [x41; x42] 4096).
  - reflexivity.
  - unfold store_ready. split_and!; [reflexivity | by eexists | reflexivity | by vm_compute].
  - reflexivity.
  - reflexivity.
  - reflexivity.
Defined.

(** * Directories with other files *)

Lemma ParseUint_error s e :
  (strconv_ParseUint s).2 = Some e -> e = ErrSyntax \/ e = ErrRange.
Proof.
  unfold strconv_ParseUint. destruct s; [cbn; intros; simplify_eq; by left |].
  destruct (parse_digits 0 _) as [v|]; [| cbn; intros; simplify_eq; by left].
  destruct (v <? 2 ^ 64); cbn; intros; simplify_eq. by right.
Qed.

Lemma parse_names_error name files : forall acc,
  name ∈ files -> is_Some (strconv_ParseUint (trim_ext name)).2 ->
  exists bo e, Log.parse_names files acc = (bo, Some e) /\ (e = ErrSyntax \/ e = ErrRange).
Proof.
  intros acc Hin Hbad. revert acc.
  induction files as [|f files IH]; intros acc; [by apply elem_of_nil in Hin |].
  cbn [Log.parse_names].
  destruct (strconv_ParseUint (trim_ext f)) as [off [e|]] eqn:Ef.
  - exists acc, e. split; [done |]. apply (ParseUint_error (trim_ext f)). by rewrite Ef.
  - apply elem_of_cons in Hin as [->|Hin].
    + rewrite Ef in Hbad. by destruct Hbad.
    + by apply IH.
Qed.

(** X25.  When the directory holds a file whose name, up to its
    extension, is not a decimal [uint64], [setup] returns the error of
    [strconv.ParseUint] and changes neither the directory nor the log;
    [NewLog] then returns that error with a log of no segment. *)
Theorem X25_setup_rejects_a_foreign_file d l name dir c :
  is_Some (file_content d name) ->
  is_Some (strconv_ParseUint (trim_ext name)).2 ->
  exists e l0,
    (e = ErrSyntax \/ e = ErrRange) /\
    Log.setup d l = Done (d, l, Some e) /\
    Log.NewLog d dir c = Done (d, l0, Some e) /\
    Log.segments l0 = [] /\ Log.activeSegment l0 = None.
Proof.
  intros [content Hc] Hbad. destruct d as [m|]; [| done]. cbn in Hc.
  assert (Hin : name ∈ (map_to_list m).*1).
  { apply list_elem_of_fmap. exists (name, content). split; [done |].
    by apply elem_of_map_to_list. }
  destruct (parse_names_error name _ [] Hin Hbad) as (bo & e & Hp & He).
  exists e. eexists. split; [exact He |].
  unfold Log.NewLog, Log.setup, ioutil_ReadDir. rewrite Hp.
  split_and!; reflexivity.
Qed.

Lemma X25_setup_rejects_a_foreign_file_witness :
  exists e l0,
    (e = ErrSyntax \/ e = ErrRange) /\
    Log.setup foreign_dir log0 = Done (foreign_dir, log0, Some e) /\
    Log.NewLog foreign_dir "log" cfg1024 = Done (foreign_dir, l0, Some e) /\
    Log.segments l0 = [] /\ Log.activeSegment l0 = None.
Proof.
  apply (X25_setup_rejects_a_foreign_file foreign_dir log0 "readme.md" "log" cfg1024).
  - by eexists.
  - by eexists.
Defined.

(** * Truncate below the highest watermark *)

(** X26.  For a watermark below [2^64 - 1], a [Truncate(lowest)] that
    succeeds leaves exactly the segments of the list whose next offset is
    above [lowest + 1], in their old order and untouched; every other
    segment of the list has been closed and its two files deleted. *)
Theorem X26_Truncate_retains (d : Disk) (l : Log.t) (lowest : Z) (d' : Disk) (l' : Log.t) :
  0 <= lowest < 2 ^ 64 - 1 ->
  Log.Truncate d l lowest = Done (d', l', None) ->
  Log.segments l' = List.filter (retained l lowest) (Log.segments l) /\
  sublist (Log.segments l') (Log.segments l) /\
  (forall p, p ∈ Log.segments l ->
     (p ∈ Log.segments l' <->
      exists s, Log.mem l !! p = Some s /\ lowest + 1 < segment.nextOffset s)) /\
  (forall p, p ∈ Log.segments l -> p ∉ Log.segments l' -> removed d' l' p) /\
  (forall p, p ∈ Log.segments l' -> Log.mem l' !! p = Log.mem l !! p).
Proof.
  intros Hlow Hrun. apply Truncate_spec in Hrun as (Hsegs & Hrmv & Hkeep).
  assert (Hret : forall p, retained l lowest p = true <->
            exists s, Log.mem l !! p = Some s /\ lowest + 1 < segment.nextOffset s).
  { intros p. unfold retained. rewrite u64_succ by done.
    destruct (Log.mem l !! p) as [s|]; split.
    - intros Hlt. exists s. split; [done | by apply Z.ltb_lt].
    - intros (s' & ? & ?). simplify_eq. by apply Z.ltb_lt.
    - done.
    - by intros (s' & ? & ?). }
  assert (Hin : forall p, p ∈ Log.segments l' <->
            p ∈ Log.segments l /\ retained l lowest p = true).
  { intros p. rewrite Hsegs, !list_elem_of_In. apply List.filter_In. }
  split_and!.
  - done.
  - rewrite Hsegs. apply filter_sublist.
  - intros p Hp. rewrite Hin, <- Hret. tauto.
  - intros p Hp Hnot. apply Hrmv; [done |].
    destruct (retained l lowest p) eqn:Er; [| done].
    exfalso. apply Hnot. by apply Hin.
  - intros p Hp. apply Hkeep. by apply Hin.
Qed.

Lemma X26_Truncate_retains_witness :
  bases three_segments.2 = [Some (0, 3); Some (3, 6); Some (6, 7)] /\
  exists d' l',
    Log.Truncate three_segments.1 three_segments.2 2 = Done (d', l', None) /\
    Log.segments l' = [1%nat; 2%nat] /\
    removed d' l' 0%nat /\
    Log.mem l' !! 1%nat = Log.mem three_segments.2 !! 1%nat /\
    Log.mem l' !! 2%nat = Log.mem three_segments.2 !! 2%nat.
Proof.
  split; [vm_compute; reflexivity |].
  destruct (Log.Truncate three_segments.1 three_segments.2 2)
    as [[[d' l'] [e|]]|] eqn:E.
  - exfalso. vm_compute in E. discriminate.
  - destruct (X26_Truncate_retains _ _ 2 _ _ ltac:(lia) E) as (Hsegs & _ & _ & Hrm & Hmem).
    assert (Hl : Log.segments l' = [1%nat; 2%nat])
      by (rewrite Hsegs; vm_compute; reflexivity).
    exists d', l'. split_and!; [reflexivity | exact Hl | | |].
    + apply Hrm; [exact first_of_three_segments |].
      rewrite Hl. intros Hp.
      apply elem_of_cons in Hp as [Hp|Hp]; [discriminate Hp |].
      apply elem_of_cons in Hp as [Hp|Hp]; [discriminate Hp |].
      apply elem_of_nil in Hp. exact Hp.
    + apply Hmem. rewrite Hl. apply list_elem_of_here.
    + apply Hmem. rewrite Hl. apply list_elem_of_further, list_elem_of_here.
  - exfalso. vm_compute in E. discriminate.
Defined.
